(** * xml-ftp-to-millennium: the resilient transfer-and-relocate scripts

    A shallow embedding of [receive.py] (strict, fail-fast batch: download,
    relocate on the server, stop at the first file that cannot be processed)
    and of [send.py] (upload with bounded requeue), and the properties the
    design document states about them.

    The scripts talk to an FTPS server through [ftplib].  Every method call on
    an [FTPSClient] object is an interaction with the environment: the
    environment (server, network, clock) is a parameter of the development
    ([Environment]), it answers each call with a [reply], and the call and its
    answer are recorded in a trace.  Python exceptions are values of [exn];
    code runs in a state-and-exception monad [M] over the [world].  The local
    disk is a finite map from paths to file contents.  Console output
    ([print]) is not modelled. *)

From Stdlib Require Import ZArith QArith String Ascii List Lia.
From stdpp Require Import base tactics option list gmap strings pretty sorting.

Set Default Proof Using "Type".

(** ** Python values *)

(** Exceptions the scripts distinguish in their [except] clauses, and the
    ones the modelled library calls raise. *)
Inductive exn :=
| error_perm              (* ftplib.error_perm: a 5xx reply *)
| error_temp              (* ftplib.error_temp: a 4xx reply *)
| error_reply             (* ftplib.error_reply: unexpected reply *)
| SSLError                (* ssl.SSLError *)
| ConnectionResetError
| EOFError
| TimeoutError            (* socket.timeout *)
| AttributeError          (* a method called on None *)
| ValueError
| FileNotFoundError
| RuntimeError (msg : string).

(** Data-channel protection level, the scripts' strings "P" and "C". *)
Inductive prot := PROT_P | PROT_C.

(** Client-side attributes of an [FTPSClient] object: [_prot_level] (read with
    [getattr(self, "_prot_level", "C")]) and ftplib's [passiveserver]. *)
Record modo := Modo { prot_level : prot; passiveserver : bool }.

Definition modo_inicial : modo := Modo PROT_C true.

(** The [ftplib] methods the scripts call.  A data transfer carries the
    client-side mode it is performed in. *)
Inductive cmd :=
| Connect (host : string) (port : Z)
| Auth
| Login (user passwd : string)
| Sendcmd (s : string)
| ProtP
| ProtC
| Voidcmd (s : string)
| Cwd (dirname : string)
| Pwd
| Mkd (dirname : string)
| Size (filename : string)
| Delete (filename : string)
| Rename (fromname toname : string)
| Retr (filename : string) (m : modo)
| Stor (filename : string) (dados : string) (m : modo)
| Retrlines (c : string) (m : modo)
| QuitCmd
| Close.

(** What a method call produces: it returns, possibly with a value, or
    raises.  A download may deliver data to the callback and then raise. *)
Inductive reply :=
| ROk
| RSize (n : option Z)
| RPath (p : string)
| RData (dados : string) (fim : option exn)
| RLines (ls : list string)
| RExc (e : exn).

(** The "status" strings of a transfer record of [send.py]. *)
Inductive status_t := Pendente | Sucesso | Falha | Ignorado.

(** Observable events: method calls on the client with handle [h], sleeps,
    and ghost markers used to state properties (start of an attempt of the
    per-file retry loop, start and end of the processing of a batch item,
    creation of a client object, return of a per-item send). *)
Inductive event :=
| EvFtp (h : nat) (c : cmd) (r : reply)
| EvSleep (d : Q)
| EvNew (h : nat)
| EvAttempt (nome : string) (tent : nat)
| EvItemStart (idx : nat) (nome : string)
| EvItemEnd (idx : nat) (nome : string) (ok : bool)
| EvSend (caminho : string) (tentativa : nat) (st : status_t).

Global Instance exn_eq_dec : EqDecision exn.
Proof. solve_decision. Defined.
Global Instance prot_eq_dec : EqDecision prot.
Proof. solve_decision. Defined.
Global Instance modo_eq_dec : EqDecision modo.
Proof. solve_decision. Defined.
Global Instance cmd_eq_dec : EqDecision cmd.
Proof. solve_decision. Defined.
Global Instance reply_eq_dec : EqDecision reply.
Proof. solve_decision. Defined.
Global Instance status_eq_dec : EqDecision status_t.
Proof. solve_decision. Defined.
Global Instance Q_eq_dec : EqDecision Q.
Proof. solve_decision. Defined.
Global Instance event_eq_dec : EqDecision event.
Proof. solve_decision. Defined.

(** ** The environment *)

Class Environment := {
  env_state : Type;
  (** a method call on the client object [h] *)
  ftp_step : nat → cmd → env_state → reply * env_state;
  (** [time.sleep(d)] *)
  sleep_step : Q → env_state → env_state;
  (** [time.time()] *)
  time_step : env_state → Q * env_state
}.

Inductive res (A : Type) :=
| Val (a : A)
| Exc (e : exn).
Arguments Val {A} a.
Arguments Exc {A} e.

Section Monad.
Context `{Environment}.

Record world := World {
  srv : env_state;
  disk : gmap string string;
  clients : gmap nat modo;
  trace : list event
}.

Definition M (A : Type) : Type := world → res A * world.

Definition ret {A} (a : A) : M A := λ w, (Val a, w).

Definition bind {A B} (m : M A) (f : A → M B) : M B :=
  λ w, match m w with
       | (Val a, w') => f a w'
       | (Exc e, w') => (Exc e, w')
       end.

Definition raise {A} (e : exn) : M A := λ w, (Exc e, w).

(** [try: m except ...]: [h e] is the handler of the first clause that
    matches [e], [None] when no clause does. *)
Definition try_except {A} (m : M A) (h : exn → option (M A)) : M A :=
  λ w, match m w with
       | (Exc e, w') => match h e with
                        | Some k => k w'
                        | None => (Exc e, w')
                        end
       | r => r
       end.

(** [try: m finally: f], for an [f] that does not raise. *)
Definition try_finally {A} (m : M A) (f : M unit) : M A :=
  λ w, match m w with
       | (r, w') => (r, snd (f w'))
       end.

Definition log (e : event) : M unit :=
  λ w, (Val tt, World (srv w) (disk w) (clients w) (trace w ++ [e])).

Global Instance M_ret : MRet M := @ret.
Global Instance M_bind : MBind M := λ A B f m, bind m f.

End Monad.

(** [except Exception:] *)
Definition any_exc {A} (k : A) : exn → option A := λ _, Some k.
(** [except error_perm:] *)
Definition only_perm {A} (k : A) : exn → option A :=
  λ e, match e with error_perm => Some k | _ => None end.
(** [except (_ssl.SSLError,):] *)
Definition only_ssl {A} (k : A) : exn → option A :=
  λ e, match e with SSLError => Some k | _ => None end.

(** ** String helpers: the [str] and [os.path] functions the scripts use *)

(** [s.split(sep)] for a one-character separator. *)
Fixpoint split (sep : ascii) (s : string) : list string :=
  match s with
  | EmptyString => [EmptyString]
  | String c r =>
      if decide (c = sep) then EmptyString :: split sep r
      else match split sep r with
           | [] => [String c EmptyString]
           | x :: xs => String c x :: xs
           end
  end.

(** [s.lstrip(ch)], [s.rstrip(ch)], [s.strip(ch)] for a single character. *)
Fixpoint lstrip (ch : ascii) (s : string) : string :=
  match s with
  | EmptyString => EmptyString
  | String c r => if decide (c = ch) then lstrip ch r else s
  end.

Fixpoint rstrip (ch : ascii) (s : string) : string :=
  match s with
  | EmptyString => EmptyString
  | String c r =>
      match rstrip ch r with
      | EmptyString => if decide (c = ch) then EmptyString else String c EmptyString
      | r' => String c r'
      end
  end.

Definition strip (ch : ascii) (s : string) : string := lstrip ch (rstrip ch s).

(** [s.rsplit(sep, 1)] unpacked into two names: [None] stands for the
    [ValueError] of unpacking a one-element list. *)
Fixpoint rsplit1 (sep : ascii) (s : string) : option (string * string) :=
  match s with
  | EmptyString => None
  | String c r =>
      match rsplit1 sep r with
      | Some (a, b) => Some (String c a, b)
      | None => if decide (c = sep) then Some (EmptyString, r) else None
      end
  end.

Definition nonempty (s : string) : bool :=
  match s with EmptyString => false | _ => true end.

Definition barra : ascii := "/"%char.
Definition contrabarra : ascii := "\"%char.

(** [os.path.basename]: the text after the last separator ([/] or [\]). *)
Fixpoint basename (s : string) : string :=
  match s with
  | EmptyString => EmptyString
  | String c r =>
      if decide (c = barra) then basename r
      else if decide (c = contrabarra) then basename r
      else if existsb (λ x, bool_decide (x = barra) || bool_decide (x = contrabarra))
                      (list_ascii_of_string r)
           then basename r
           else s
  end.

(** [os.path.join(a, b)] for a relative [b], Windows flavour. *)
Definition path_join (a b : string) : string := a +:+ String contrabarra b.

(** [os.path.splitext]: the extension starts at the last dot of the last
    component, the leading dots of that component excluded. *)
Definition splitext (p : string) : string * string :=
  let nome := basename p in
  let dir := String.substring 0 (String.length p - String.length nome) p in
  let sem_pontos := lstrip "."%char nome in
  let pontos := String.substring 0 (String.length nome - String.length sem_pontos) nome in
  match rsplit1 "."%char sem_pontos with
  | Some (a, b) => (dir +:+ pontos +:+ a, String "."%char b)
  | None => (p, EmptyString)
  end.

(** [f"{base}_{i}{ext}"] *)
Definition sufixado (base ext : string) (i : nat) : string :=
  base +:+ "_" +:+ pretty i +:+ ext.

(** [s.lower()]: the ASCII capitals are lowered and every other byte is
    left as it is, which is all that a comparison of the result with ASCII
    text depends on. *)
Definition lower_ascii (c : ascii) : ascii :=
  let n := nat_of_ascii c in
  if (65 <=? n) && (n <=? 90) then ascii_of_nat (n + 32) else c.

Fixpoint lower (s : string) : string :=
  match s with
  | EmptyString => EmptyString
  | String c r => String (lower_ascii c) (lower r)
  end.

(** [s.endswith(suf)] *)
Definition endswith (suf s : string) : bool :=
  (String.length suf <=? String.length s) &&
  String.eqb (String.substring (String.length s - String.length suf)
                (String.length suf) s) suf.

(** The order of [sorted] on [str]: by code point, which on UTF-8 text is
    the order of the bytes. *)
Definition string_le (a b : string) : Prop := String.leb a b.

Global Instance string_le_dec : RelDecision string_le.
Proof. intros a b. unfold string_le. apply _. Defined.

(** [l[:n]] *)
Definition fatia {A} (n : Z) (l : list A) : list A :=
  if (n <? 0)%Z then take (length l - Z.to_nat (- n)) l else take (Z.to_nat n) l.

(** The lines [FTP.retrlines] hands to its callback from the text of a
    transfer: a line ends at a line feed and is handed over without its
    CRLF or LF; what follows the last line feed, if anything, is handed
    over as it is. *)
Definition LF : ascii := ascii_of_nat 10.
Definition CR : ascii := ascii_of_nat 13.

Fixpoint sem_cr (s : string) : string :=
  match s with
  | EmptyString => EmptyString
  | String c EmptyString => if decide (c = CR) then EmptyString else s
  | String c r => String c (sem_cr r)
  end.

Fixpoint linhas_aux (s cur : string) : list string :=
  match s with
  | EmptyString => if nonempty cur then [cur] else []
  | String c r =>
      if decide (c = LF) then sem_cr cur :: linhas_aux r EmptyString
      else linhas_aux r (cur +:+ String c EmptyString)
  end.

Definition linhas_de (s : string) : list string := linhas_aux s EmptyString.

(** ** Primitive operations *)

Section Primitives.
Context `{Environment}.

(** A method call on the object the variable [ftp] holds; on [None] it is
    an [AttributeError]. *)
Definition call (ftp : option nat) (c : cmd) : M reply :=
  λ w, match ftp with
       | None => (Exc AttributeError, w)
       | Some h =>
           let '(r, s) := ftp_step h c (srv w) in
           let w' := World s (disk w) (clients w) (trace w ++ [EvFtp h c r]) in
           match r with
           | RExc e => (Exc e, w')
           | _ => (Val r, w')
           end
       end.

Definition call_ (ftp : option nat) (c : cmd) : M unit := call ftp c ;; mret tt.

(** [FTPSClient(timeout=60)] *)
Definition FTPSClient : M (option nat) :=
  λ w, let h := fresh (dom (clients w)) in
       (Val (Some h),
        World (srv w) (disk w) (<[h := modo_inicial]> (clients w)) (trace w ++ [EvNew h])).

Definition get_modo (ftp : option nat) : M modo :=
  λ w, match ftp with
       | None => (Exc AttributeError, w)
       | Some h => (Val (default modo_inicial (clients w !! h)), w)
       end.

Definition set_modo (ftp : option nat) (f : modo → modo) : M unit :=
  λ w, match ftp with
       | None => (Exc AttributeError, w)
       | Some h =>
           (Val tt, World (srv w) (disk w)
                      (<[h := f (default modo_inicial (clients w !! h))]> (clients w))
                      (trace w))
       end.

Definition ftp_connect ftp host port := call_ ftp (Connect host port).
Definition ftp_auth ftp := call_ ftp Auth.
Definition ftp_login ftp user passwd := call_ ftp (Login user passwd).
Definition ftp_sendcmd ftp s := call_ ftp (Sendcmd s).
Definition ftp_voidcmd ftp s := call_ ftp (Voidcmd s).
Definition ftp_cwd ftp d := call_ ftp (Cwd d).
Definition ftp_mkd ftp d := call_ ftp (Mkd d).
Definition ftp_delete ftp f := call_ ftp (Delete f).
Definition ftp_rename ftp a b := call_ ftp (Rename a b).
Definition ftp_close ftp := call_ ftp Close.

(** [FTP.quit]: sends QUIT and, when that returned, closes the connection. *)
Definition ftp_quit ftp := call_ ftp QuitCmd ;; ftp_close ftp.

(** [FTPSClient.prot_p] / [prot_c]: the library call, then [_prot_level]. *)
Definition ftp_prot_p ftp :=
  call_ ftp ProtP ;; set_modo ftp (λ m, Modo PROT_P (passiveserver m)).
Definition ftp_prot_c ftp :=
  call_ ftp ProtC ;; set_modo ftp (λ m, Modo PROT_C (passiveserver m)).
(** [FTP.set_pasv]: client side only. *)
Definition ftp_set_pasv ftp (b : bool) := set_modo ftp (λ m, Modo (prot_level m) b).

(** [FTP.size]: the size, or [None] when the reply carries none. *)
Definition ftp_size ftp f : M (option Z) :=
  r ← call ftp (Size f);
  mret (match r with RSize n => n | _ => None end).

(** [FTP.pwd] *)
Definition ftp_pwd ftp : M string :=
  r ← call ftp Pwd;
  match r with RPath p => mret p | _ => raise error_reply end.

(** [FTP.retrlines(c, callback)] with a callback that collects the lines. *)
Definition ftp_retrlines ftp c : M (list string) :=
  m ← get_modo ftp;
  r ← call ftp (Retrlines c m);
  mret (match r with RLines ls => ls | _ => [] end).

(** Local disk. *)
Definition path_exists (p : string) : M bool :=
  λ w, (Val (bool_decide (is_Some (disk w !! p))), w).

Definition write_file (p dados : string) : M unit :=
  λ w, (Val tt, World (srv w) (<[p := dados]> (disk w)) (clients w) (trace w)).

Definition read_file (p : string) : M string :=
  λ w, match disk w !! p with
       | Some d => (Val d, w)
       | None => (Exc FileNotFoundError, w)
       end.

Definition getsize (p : string) : M Z :=
  d ← read_file p; mret (Z.of_nat (String.length d)).

Definition os_remove (p : string) : M unit :=
  λ w, match disk w !! p with
       | Some _ => (Val tt, World (srv w) (delete p (disk w)) (clients w) (trace w))
       | None => (Exc FileNotFoundError, w)
       end.

(** [with open(p, "wb") as f: ftp.retrbinary("RETR " + nome, f.write, ...)]:
    the file is created empty, then holds whatever the server delivered
    before the transfer ended or failed. *)
Definition ftp_retrbinary ftp (nome p : string) : M unit :=
  write_file p EmptyString ;;
  m ← get_modo ftp;
  r ← call ftp (Retr nome m);
  match r with
  | RData d fim =>
      write_file p d ;;
      match fim with Some e => raise e | None => mret tt end
  | _ => mret tt
  end.

(** [with open(p, "rb") as f: ftp.storbinary("STOR " + destino, f, ...)] *)
Definition ftp_storbinary ftp (destino p : string) : M unit :=
  d ← read_file p;
  m ← get_modo ftp;
  call_ ftp (Stor destino d m).

Definition sleep (d : Q) : M unit :=
  λ w, (Val tt, World (sleep_step d (srv w)) (disk w) (clients w) (trace w ++ [EvSleep d])).

Definition time_now : M Q :=
  λ w, let '(t, s) := time_step (srv w) in
       (Val t, World s (disk w) (clients w) (trace w)).

(** [FTP.retrlines(c, callback)] as a callback that collects lines sees it:
    the lines it was handed, and the exception the call ended with, if any.
    A reply [RData] stands for a transfer that delivered its text and then
    ended or failed. *)
Definition ftp_retrlines_parcial (ftp : option nat) (c : string)
    : M (list string * option exn) :=
  λ w, match ftp with
       | None => (Val ([], Some AttributeError), w)
       | Some h =>
           let m := default modo_inicial (clients w !! h) in
           let '(r, s) := ftp_step h (Retrlines c m) (srv w) in
           (Val match r with
                | RLines ls => (ls, None)
                | RData d fim => (linhas_de d, fim)
                | RExc e => ([], Some e)
                | _ => ([], None)
                end,
            World s (disk w) (clients w) (trace w ++ [EvFtp h (Retrlines c m) r]))
       end.

End Primitives.

(** ** receive.py: one strict batch *)

Module Receive.

(** [os.getenv] with its default; the default credential of the script is
    not reproduced here. *)
Definition FTP_HOST : string := "ftp-amobeleza.millenniumhosting.com.br".
Definition FTP_USER : string := "amobeleza".
Definition FTP_PASS : string := "(senha)".

Definition PASTA_REMOTA_ORIGEM : string := "/XML/CTE".
Definition PASTA_REMOTA_ENVIADO : string := "/XML/CTES_ENVIADOS".
Definition PASTA_LOCAL_DESTINO : string := "C:\wts\download_enfe".

Definition ARQUIVOS_POR_LOTE : Z := 100.
Definition SOMENTE_XML : bool := true.

Definition KEEPALIVE_INTERVAL : Z := 30.
Definition RECONNECT_A_CADA : nat := 100.
Definition MAX_TENTATIVAS_POR_ARQUIVO : nat := 5.
Definition BACKOFF_INICIAL_S : Z := 1.

(** How a block of the per-file loop body ends: [return ftp, ok], [continue]
    with the loop variables [ftp] and [tam_local_cache], or by falling
    through to the next block. *)
Inductive saida (A : Type) :=
| Retorna (r : option nat * bool)
| Continua (ftp : option nat) (cache : option Z)
| Segue (a : A).
Arguments Retorna {A} r.
Arguments Continua {A} ftp cache.
Arguments Segue {A} a.

Section Receive.
Context `{Environment}.

Definition configurar_transferencia (ftp : option nat) (protecao : prot)
    (modo_passivo : bool) : M unit :=
  match protecao with
  | PROT_P => ftp_prot_p ftp
  | PROT_C => ftp_prot_c ftp
  end ;;
  ftp_set_pasv ftp modo_passivo.

Definition modos : list (string * (prot * bool)) :=
  [ ("PROT P + PASV", (PROT_P, true));
    ("PROT P + ATIVO", (PROT_P, false));
    ("PROT C + PASV", (PROT_C, true));
    ("PROT C + ATIVO", (PROT_C, false)) ].

(** The [for nome, (prot, pasv) in modos] loop of [conectar_ftp]; the empty
    list is the code after the loop ([return None]). *)
Fixpoint tentar_modos (ftp : option nat) (ms : list (string * (prot * bool)))
    : M (option nat) :=
  match ms with
  | [] => mret None
  | (_, (prot, pasv)) :: resto =>
      r ← try_except
            (configurar_transferencia ftp prot pasv ;;
             ftp_cwd ftp PASTA_REMOTA_ORIGEM ;;
             try_except (ftp_voidcmd ftp "NOOP") (any_exc (mret tt)) ;;
             mret (Some ftp))
            (any_exc (mret None));
      match r with
      | Some f => mret f
      | None => tentar_modos ftp resto
      end
  end.

Definition conectar_ftp : M (option nat) :=
  ftp ← FTPSClient;
  ftp_connect ftp FTP_HOST 21 ;;
  ftp_auth ftp ;;
  ftp_login ftp FTP_USER FTP_PASS ;;
  ftp_sendcmd ftp "PBSZ 0" ;;
  tentar_modos ftp modos.

Definition garantir_conexao (ftp : option nat) : M (option nat) :=
  try_except
    (match ftp with
     | None => conectar_ftp
     | Some _ =>
         try_except (ftp_voidcmd ftp "NOOP" ;; mret ftp)
           (any_exc (try_except (ftp_close ftp) (any_exc (mret tt)) ;;
                     conectar_ftp))
     end)
    (λ e, match e with
          | ConnectionResetError | EOFError =>
              Some (try_except
                      (match ftp with Some _ => ftp_close ftp | None => mret tt end)
                      (any_exc (mret tt)) ;;
                    conectar_ftp)
          | _ => None
          end).

Definition _force_type_i_and_tls (ftp : option nat) : M unit :=
  try_except (ftp_prot_p ftp) (any_exc (mret tt)) ;;
  try_except (ftp_voidcmd ftp "TYPE I") (any_exc (mret tt)).

(** The [for _ in range(tentativas)] loop over one path prefix [atual];
    the boolean is [ok]. *)
Fixpoint assegurar_segmento (tentativas : nat) (pausa : Q) (ftp : option nat)
    (atual : string) : M (option nat * bool) :=
  match tentativas with
  | 0 => mret (ftp, false)
  | S n =>
      '(ftp', ok) ←
        try_except (ftp_cwd ftp atual ;; mret (ftp, true))
          (any_exc
             (try_except (ftp_mkd ftp atual ;; mret (ftp, true))
                (λ e, match e with
                      | error_perm =>
                          Some (try_except (ftp_cwd ftp atual ;; mret (ftp, true))
                                  (any_exc (mret (ftp, false))))
                      | ConnectionResetError | EOFError | SSLError =>
                          Some (ftp' ← garantir_conexao ftp; mret (ftp', false))
                      | _ => None
                      end)));
      if ok : bool then mret (ftp', true)
      else sleep pausa ;; assegurar_segmento n pausa ftp' atual
  end.

(** The [for p in partes] loop. *)
Fixpoint assegurar_partes (tentativas : nat) (pausa : Q) (ftp : option nat)
    (atual : string) (partes : list string) : M (option nat) :=
  match partes with
  | [] => mret ftp
  | p :: resto =>
      let atual := atual +:+ "/" +:+ p in
      '(ftp', ok) ← assegurar_segmento tentativas pausa ftp atual;
      if ok : bool then assegurar_partes tentativas pausa ftp' atual resto
      else raise (RuntimeError ("Nao foi possivel assegurar diretorio remoto: " +:+ atual))
  end.

Definition partes_de (caminho_abs : string) : list string :=
  List.filter nonempty (split "/" (strip "/" caminho_abs)).

Definition assegurar_diretorio_remoto (ftp : option nat) (caminho_abs : string)
    (tentativas : nat) (pausa : Q) : M (option nat) :=
  if bool_decide (caminho_abs = "" ∨ caminho_abs = "/") then mret ftp
  else
    '(ftp1, cur) ← try_except (cur ← ftp_pwd ftp; mret (ftp, cur))
                     (any_exc (ftp' ← garantir_conexao ftp; mret (ftp', "/")));
    ftp2 ← assegurar_partes tentativas pausa ftp1 "" (partes_de caminho_abs);
    try_except (ftp_cwd ftp2 cur) (any_exc (mret tt)) ;;
    mret ftp2.

Definition _cwd_and_size (ftp : option nat) (caminho_abs : string) : M (option Z) :=
  _force_type_i_and_tls ftp ;;
  r ← try_except (sz ← ftp_size ftp caminho_abs; mret (Some sz)) (any_exc (mret None));
  match r with
  | Some sz => mret sz
  | None =>
      try_except
        (match rsplit1 "/" caminho_abs with
         | None => raise ValueError
         | Some (dirpath, fname) =>
             if negb (nonempty dirpath) then mret None
             else
               cur ← ftp_pwd ftp;
               try_finally
                 (ftp_cwd ftp dirpath ;;
                  try_except (ftp_size ftp fname) (any_exc (mret None)))
                 (try_except (ftp_cwd ftp cur) (any_exc (mret tt)))
         end)
        (any_exc (mret None))
  end.

Definition remoto_confere_tamanho (ftp : option nat) (caminho_abs : string)
    (tamanho_esperado : Z) : M bool :=
  sz ← _cwd_and_size ftp caminho_abs;
  mret (match sz with
        | Some n => (n =? tamanho_esperado)%Z
        | None => false
        end).

(** Lines 250-256: the one-character prefixes, in the order they are tried. *)
Definition caracteres (primeiro quantos : nat) : list string :=
  (λ c, String (ascii_of_nat c) EmptyString) <$> seq primeiro quantos.

Definition _PREFIXES : list string :=
  caracteres 48 10 ++ caracteres 65 26 ++ caracteres 97 26 ++ ["_"; "-"; "."].

(** The test of the callbacks [coletor] and [cap]:
    [nome and nome not in (".", "..")]. *)
Definition nome_valido (nome : string) : bool :=
  nonempty nome && negb (bool_decide (nome = ".")) &&
  negb (bool_decide (nome = "..")).

(** The names the callback has collected are returned whether the listing
    ran to its end or not. *)
Definition _nlst_prefix (ftp : option nat) (pattern : string) : M (list string) :=
  try_except (ftp_voidcmd ftp "TYPE A") (any_exc (mret tt)) ;;
  '(linhas, _) ← ftp_retrlines_parcial ftp ("NLST " +:+ pattern);
  mret (List.filter nome_valido linhas).

(** [x.lower().endswith(".xml")] *)
Definition termina_em_xml (x : string) : bool := endswith ".xml" (lower x).

(** [sorted(set(nomes) - vistos)] *)
Definition ordenados (nomes : list string) (vistos : gset string) : list string :=
  merge_sort string_le (elements (list_to_set nomes ∖ vistos)).

(** Lines 285-289: the loop [for nome in nomes], which stops inside the
    list when [n] names are collected. *)
Fixpoint acrescentar (n : Z) (nomes coletados : list string) (vistos : gset string)
    : list string * gset string :=
  match nomes with
  | [] => (coletados, vistos)
  | nome :: resto =>
      let coletados := coletados ++ [nome] in
      let vistos := {[nome]} ∪ vistos in
      if (n <=? Z.of_nat (length coletados))%Z then (coletados, vistos)
      else acrescentar n resto coletados vistos
  end.

(** Lines 308-311: the loop [for nm in tudo] of the fallback. *)
Fixpoint acrescentar_tudo (n : Z) (tudo coletados : list string) : list string :=
  match tudo with
  | [] => coletados
  | nm :: resto =>
      let coletados := coletados ++ [nm] in
      if (n <=? Z.of_nat (length coletados))%Z then coletados
      else acrescentar_tudo n resto coletados
  end.

(** Lines 276-289: the loop [for prefix in _PREFIXES]. *)
Fixpoint varrer_prefixos (ftp : option nat) (n : Z) (somente_xml : bool)
    (prefixos coletados : list string) (vistos : gset string)
    : M (list string * gset string) :=
  match prefixos with
  | [] => mret (coletados, vistos)
  | prefix :: resto =>
      if (n <=? Z.of_nat (length coletados))%Z then mret (coletados, vistos)
      else
        nomes ← _nlst_prefix ftp (prefix +:+ "*");
        match nomes with
        | [] => varrer_prefixos ftp n somente_xml resto coletados vistos
        | _ =>
            let nomes :=
              if somente_xml then List.filter termina_em_xml nomes else nomes in
            let nomes := ordenados nomes vistos in
            let '(coletados, vistos) := acrescentar n nomes coletados vistos in
            varrer_prefixos ftp n somente_xml resto coletados vistos
        end
  end.

(** The fallback filters by the global [SOMENTE_XML], not by the
    parameter. *)
Definition listar_primeiros_n_ordenados_nome (ftp : option nat) (n : Z)
    (somente_xml : bool) : M (list string) :=
  '(coletados, vistos) ← varrer_prefixos ftp n somente_xml _PREFIXES [] ∅;
  coletados ←
    (if (Z.of_nat (length coletados) <? n)%Z
     then
       try_except (ftp_voidcmd ftp "TYPE A") (any_exc (mret tt)) ;;
       '(linhas, _) ← ftp_retrlines_parcial ftp "NLST";
       let tudo := List.filter nome_valido linhas in
       let tudo := if SOMENTE_XML then List.filter termina_em_xml tudo else tudo in
       let tudo := ordenados tudo vistos in
       mret (acrescentar_tudo n tudo coletados)
     else mret coletados);
  mret (fatia n coletados).

(** The [while os.path.exists(caminho_local)] loop that picks a local path
    not in use, by the number of iterations left.  The suffixed candidates
    are pairwise distinct and at most [size disco] of them can be taken, so
    the loop ends within [S (S (size disco))] tests ([caminho_livre_fresh]). *)
Fixpoint caminho_livre (n : nat) (disco : gmap string string) (base ext : string)
    (i : nat) (caminho_local : string) : string :=
  match n with
  | 0 => caminho_local
  | S n' =>
      if bool_decide (is_Some (disco !! caminho_local))
      then caminho_livre n' disco base ext (S i) (sufixado base ext i)
      else caminho_local
  end.

Definition escolher_caminho_local (nome : string) : M string :=
  λ w, let caminho_local := path_join PASTA_LOCAL_DESTINO (basename nome) in
       let '(base, ext) := splitext caminho_local in
       (Val (caminho_livre (S (S (size (disk w)))) (disk w) base ext 1 caminho_local), w).

Definition seguir {A B} (m : M (saida A)) (k : A → M (saida B)) : M (saida B) :=
  r ← m;
  match r with
  | Retorna x => mret (Retorna x)
  | Continua f c => mret (Continua f c)
  | Segue a => k a
  end.

(** Lines 340-351: the defensive keepalive at the head of an attempt. *)
Definition keepalive_defensivo (ftp : option nat) : M (saida (option nat)) :=
  try_except (ftp_voidcmd ftp "NOOP" ;; mret (Segue ftp))
    (any_exc
       (try_except (ftp_quit ftp) (any_exc (mret tt)) ;;
        ftp' ← conectar_ftp;
        mret (match ftp' with
              | None => Retorna (ftp', false)
              | Some _ => Segue ftp'
              end))).

(** Lines 353-362: the periodic reconnection. *)
Definition reconexao_periodica (ftp : option nat) (idx tent : nat)
    : M (saida (option nat)) :=
  if negb (RECONNECT_A_CADA =? 0) && ((idx - 1) mod RECONNECT_A_CADA =? 0)
     && (1 <? idx) && (tent =? 1)
  then
    try_except (ftp_quit ftp) (any_exc (mret tt)) ;;
    ftp' ← conectar_ftp;
    mret (match ftp' with
          | None => Retorna (ftp', false)
          | Some _ => Segue ftp'
          end)
  else mret (Segue ftp).

(** Lines 364-392: the download, done once per file; it yields [tam_local]. *)
Definition etapa_download (ftp : option nat) (nome caminho_local : string)
    (backoff : Z) (cache : option Z) : M (saida Z) :=
  try_except
    (_force_type_i_and_tls ftp ;;
     match cache with
     | None =>
         ftp_retrbinary ftp nome caminho_local ;;
         tam_local ← getsize caminho_local;
         if (tam_local <=? 0)%Z then raise (RuntimeError "arquivo local vazio")
         else mret (Segue tam_local)
     | Some tam_local => mret (Segue tam_local)
     end)
    (λ e, Some
       match e with
       | SSLError =>
           _force_type_i_and_tls ftp ;;
           sleep (inject_Z backoff) ;;
           mret (Continua ftp cache)
       | _ =>
           try_except
             (existe ← path_exists caminho_local;
              if existe : bool then os_remove caminho_local else mret tt)
             (any_exc (mret tt)) ;;
           sleep (inject_Z backoff) ;;
           mret (Continua ftp None)
       end).

(** Lines 398-410: the move by RNFR/RNTO; it yields [move_ok]. *)
Definition etapa_rename (ftp : option nat) (nome destino_abs : string)
    (tam_local : Z) : M bool :=
  try_except
    (try_except (ftp_cwd ftp PASTA_REMOTA_ORIGEM) (any_exc (mret tt)) ;;
     ftp_rename ftp nome destino_abs ;;
     remoto_confere_tamanho ftp destino_abs tam_local)
    (any_exc (mret false)).

(** Lines 426-433: the origin is deleted, by absolute path and, when that is
    refused, by name. *)
Definition apagar_original (ftp : option nat) (nome : string) : M unit :=
  try_except (ftp_delete ftp (rstrip "/" PASTA_REMOTA_ORIGEM +:+ "/" +:+ nome))
    (only_perm (try_except (ftp_delete ftp nome) (any_exc (mret tt)))).

(** Lines 438-444: the two [except] clauses of the fallback; both leave
    [move_ok] false, the first one after re-asserting the transfer settings. *)
Definition apos_falha (ftp : option nat) (e : exn) : M unit :=
  match e with
  | SSLError => _force_type_i_and_tls ftp
  | _ => mret tt
  end.

(** Lines 412-444: the fallback STOR, SIZE, DELE; it yields the variable
    [ftp], which [assegurar_diretorio_remoto] may have replaced, and
    [move_ok]. *)
Definition etapa_fallback (ftp : option nat) (nome caminho_local destino_abs : string)
    (tam_local : Z) : M (option nat * bool) :=
  r ← try_except
        (ftp1 ← try_except (ftp_cwd ftp PASTA_REMOTA_ENVIADO ;; mret ftp)
                  (any_exc (assegurar_diretorio_remoto ftp PASTA_REMOTA_ENVIADO 3 1));
         mret (Some ftp1))
        (λ e, Some (apos_falha ftp e ;; mret None));
  match r with
  | None => mret (ftp, false)
  | Some ftp1 =>
      move_ok ← try_except
        (_force_type_i_and_tls ftp1 ;;
         ftp_storbinary ftp1 destino_abs caminho_local ;;
         confere ← remoto_confere_tamanho ftp1 destino_abs tam_local;
         if confere : bool then apagar_original ftp1 nome ;; mret true
         else mret false)
        (λ e, Some (apos_falha ftp1 e ;; mret false));
      mret (ftp1, move_ok)
  end.

(** One iteration of the [while tent <= MAX_TENTATIVAS_POR_ARQUIVO] loop.
    It never falls through: it returns or goes to the next iteration. *)
Definition tentativa (ftp : option nat) (nome caminho_local : string)
    (idx tent : nat) (backoff : Z) (cache : option Z) : M (saida Empty_set) :=
  seguir (keepalive_defensivo ftp) (λ ftp,
  seguir (reconexao_periodica ftp idx tent) (λ ftp,
  seguir (etapa_download ftp nome caminho_local backoff cache) (λ tam_local,
    let destino_abs := rstrip "/" PASTA_REMOTA_ENVIADO +:+ "/" +:+ basename nome in
    move_ok ← etapa_rename ftp nome destino_abs tam_local;
    '(ftp, move_ok) ←
      (if move_ok : bool then mret (ftp, true)
       else etapa_fallback ftp nome caminho_local destino_abs tam_local);
    if move_ok : bool then mret (Retorna (ftp, true))
    else sleep (inject_Z backoff) ;; mret (Continua ftp (Some tam_local))))).

(** The loop, by the number of iterations left: [tent] runs from 1 to
    [MAX_TENTATIVAS_POR_ARQUIVO], and [backoff] doubles. *)
Fixpoint tentativas_loop (restantes : nat) (ftp : option nat)
    (nome caminho_local : string) (idx tent : nat) (backoff : Z)
    (cache : option Z) : M (option nat * bool) :=
  match restantes with
  | 0 => mret (ftp, false)
  | S n =>
      log (EvAttempt nome tent) ;;
      r ← tentativa ftp nome caminho_local idx tent backoff cache;
      match r with
      | Retorna x => mret x
      | Continua ftp' cache' =>
          tentativas_loop n ftp' nome caminho_local idx (S tent) (backoff * 2) cache'
      | Segue a => match a : Empty_set with end
      end
  end.

Definition tentar_processar_arquivo (ftp : option nat) (nome : string)
    (idx total : nat) : M (option nat * bool) :=
  caminho_local ← escolher_caminho_local nome;
  tentativas_loop MAX_TENTATIVAS_POR_ARQUIVO ftp nome caminho_local idx 1
    BACKOFF_INICIAL_S None.

(** Exit status of the script. *)
Definition EXIT_OK : Z := 0.
Definition EXIT_FALHA : Z := 2.

(** Lines 493-513 of [main]: the loop over the batch, and the exit status
    [sys.exit] is called with. *)
Fixpoint main_for (idx : nat) (nomes : list string) (total : nat)
    (inicio_lote : Q) (ftp : option nat) : M Z :=
  match nomes with
  | [] => mret EXIT_OK
  | nome :: resto =>
      ftp ← garantir_conexao ftp;
      match ftp with
      | None => mret EXIT_FALHA
      | Some _ =>
          log (EvItemStart idx nome) ;;
          '(ftp, ok) ← tentar_processar_arquivo ftp nome idx total;
          log (EvItemEnd idx nome ok) ;;
          if negb ok then mret EXIT_FALHA
          else
            agora ← time_now;
            '(ftp, inicio_lote) ←
              (if Qle_bool (inject_Z KEEPALIVE_INTERVAL) (agora - inicio_lote)
               then
                 ftp' ← try_except (ftp_voidcmd ftp "NOOP" ;; mret ftp)
                          (any_exc (garantir_conexao ftp));
                 t ← time_now;
                 mret (ftp', t)
               else mret (ftp, inicio_lote));
            main_for (S idx) resto total inicio_lote ftp
      end
  end.

Definition main_lote (nomes : list string) (ftp : option nat) : M Z :=
  inicio_lote ← time_now;
  main_for 1 nomes (length nomes) inicio_lote ftp.

End Receive.
End Receive.

(** ** send.py: upload with bounded requeue *)

Module Send.

Definition FTP_HOST : string := "ftp-amobeleza.millenniumhosting.com.br".
Definition FTP_USER : string := "amobeleza".
(** The credential of the script is not reproduced here. *)
Definition FTP_PASS : string := "(senha)".

Definition CAMINHO_PADRAO_TO_SEND : string :=
  "C:\Sys\PROJETOS\xml-ftp-to-millennium\to_send".
Definition CAMINHO_PADRAO_SEND : string :=
  "C:\Sys\PROJETOS\xml-ftp-to-millennium\send".

Definition DESTINO_REMOTO : string := "/XML/CTE".
Definition MAX_REPROCESSOS : nat := 3.

Definition MODOS_TRANSFERENCIA : list (prot * bool) :=
  [ (PROT_P, true); (PROT_P, false) ].

(** The "detalhe" text of a transfer record, by the statement that writes
    it; the text itself is not modelled. *)
Inductive detalhe_t :=
| DetVazio
| DetNaoEncontrado
| DetConexaoIndisponivel
| DetTransferido (tentativa : nat) (modo_passivo : bool)
| DetDivergente (tamanho_remoto : option Z)
| DetErro (e : exn)
| DetReagendado (d : detalhe_t)
| DetMovido (d : detalhe_t) (destino : string)
| DetFalhaMover (d : detalhe_t) (e : exn).

(** The dictionary [info] of [enviar_para_ftp]. *)
Record info := Info {
  arquivo : string;
  caminho_local : string;
  tamanho_local : Z;
  tamanho_remoto : option Z;
  tentativas : nat;
  status : status_t;
  detalhe : detalhe_t
}.

Definition com_tentativas (n : nat) (i : info) : info :=
  Info (arquivo i) (caminho_local i) (tamanho_local i) (tamanho_remoto i) n
       (status i) (detalhe i).
Definition com_status (s : status_t) (i : info) : info :=
  Info (arquivo i) (caminho_local i) (tamanho_local i) (tamanho_remoto i)
       (tentativas i) s (detalhe i).
Definition com_detalhe (d : detalhe_t) (i : info) : info :=
  Info (arquivo i) (caminho_local i) (tamanho_local i) (tamanho_remoto i)
       (tentativas i) (status i) d.
Definition com_tamanho_remoto (t : option Z) (i : info) : info :=
  Info (arquivo i) (caminho_local i) (tamanho_local i) t (tentativas i)
       (status i) (detalhe i).
Definition com_caminho_local (p : string) (i : info) : info :=
  Info (arquivo i) p (tamanho_local i) (tamanho_remoto i) (tentativas i)
       (status i) (detalhe i).

(** [str.split()], [str.isdigit()] and [int(str)] on ASCII text. *)
Definition is_space (c : ascii) : bool :=
  let n := nat_of_ascii c in
  ((9 <=? n) && (n <=? 13)) || ((28 <=? n) && (n <=? 32)).

Fixpoint split_ws_aux (s : string) (cur : string) : list string :=
  match s with
  | EmptyString => if nonempty cur then [cur] else []
  | String c r =>
      if is_space c
      then (if nonempty cur then cur :: split_ws_aux r EmptyString
            else split_ws_aux r EmptyString)
      else split_ws_aux r (cur +:+ String c EmptyString)
  end.
Definition split_ws (s : string) : list string := split_ws_aux s EmptyString.

Definition is_digit_char (c : ascii) : bool :=
  let n := nat_of_ascii c in (48 <=? n) && (n <=? 57).

Definition isdigit (s : string) : bool :=
  nonempty s && forallb is_digit_char (list_ascii_of_string s).

Definition int_of_digits (s : string) : Z :=
  fold_left (λ acc c, acc * 10 + Z.of_nat (nat_of_ascii c - 48))%Z
            (list_ascii_of_string s) 0%Z.

(** The [for linha in linhas] loop of [verificar_arquivo_remoto]. *)
Fixpoint tamanho_na_listagem (linhas : list string) (nome_arquivo : string)
    : option Z :=
  match linhas with
  | [] => None
  | linha :: resto =>
      let partes := split_ws linha in
      if bool_decide (last partes = Some nome_arquivo)
      then match List.find isdigit partes with
           | Some parte => Some (int_of_digits parte)
           | None => tamanho_na_listagem resto nome_arquivo
           end
      else tamanho_na_listagem resto nome_arquivo
  end.

(** [os.path.relpath(p, raiz)] for a [p] below [raiz]. *)
Fixpoint sem_prefixo (pre s : string) : option string :=
  match pre, s with
  | EmptyString, _ => Some s
  | String a pre', String b s' => if decide (a = b) then sem_prefixo pre' s' else None
  | _, _ => None
  end.
Definition relpath (p raiz : string) : string :=
  default p (sem_prefixo (raiz +:+ String contrabarra EmptyString) p).

(** An entry of [itens_envio]. *)
Record item := Item { caminho : string; nome_remoto : string }.

(** The variables of the loop of [main]. *)
Record estado := Estado {
  fila : list item;
  tentativas_por_arquivo : gmap string nat;
  relatorio_envios : list info;
  lote_atual : nat
}.

Section Send.
Context `{Environment}.

Definition verificar_arquivo_remoto (ftp : option nat) (nome_arquivo : string)
    : M (option Z) :=
  match ftp with
  | None => mret None
  | Some _ =>
      r ← try_except (ftp_size ftp nome_arquivo) (any_exc (mret None));
      match r with
      | Some tamanho => mret (Some tamanho)
      | None =>
          try_except
            (linhas ← ftp_retrlines ftp "LIST";
             mret (tamanho_na_listagem linhas nome_arquivo))
            (any_exc (mret None))
      end
  end.

(** The [for parte in partes] loop of [criar_diretorios_remotos]. *)
Fixpoint criar_partes (ftp : option nat) (caminho_atual : string)
    (partes : list string) : M unit :=
  match partes with
  | [] => mret tt
  | parte :: resto =>
      let caminho_atual := caminho_atual +:+ "/" +:+ parte in
      try_except (ftp_mkd ftp caminho_atual) (only_perm (mret tt)) ;;
      criar_partes ftp caminho_atual resto
  end.

Definition criar_diretorios_remotos (ftp : option nat) (caminho : string) : M unit :=
  criar_partes ftp "" (split "/" (strip "/" caminho)).

Definition conectar_ftp : M (option nat) :=
  try_except
    (ftp ← FTPSClient;
     ftp_connect ftp FTP_HOST 21 ;;
     ftp_auth ftp ;;
     ftp_login ftp FTP_USER FTP_PASS ;;
     ftp_sendcmd ftp "PBSZ 0" ;;
     ftp_prot_p ftp ;;
     ftp_set_pasv ftp true ;;
     ftp_voidcmd ftp "TYPE I" ;;
     try_except (ftp_cwd ftp DESTINO_REMOTO)
       (only_perm (criar_diretorios_remotos ftp DESTINO_REMOTO ;;
                   ftp_cwd ftp DESTINO_REMOTO)) ;;
     mret ftp)
    (any_exc (mret None)).

Definition garantir_conexao (ftp : option nat) : M (option nat) :=
  match ftp with
  | None => conectar_ftp
  | Some _ =>
      try_except (ftp_voidcmd ftp "NOOP" ;; mret ftp)
        (any_exc (try_except (ftp_close ftp) (any_exc (mret tt)) ;;
                  conectar_ftp))
  end.

Definition configurar_transferencia (ftp : option nat) (protecao : prot)
    (modo_passivo : bool) : M unit :=
  match protecao with
  | PROT_P => ftp_prot_p ftp
  | PROT_C => mret tt
  end ;;
  ftp_set_pasv ftp modo_passivo ;;
  ftp_voidcmd ftp "TYPE I".

(** The [except Exception as e] clause of the upload attempt. *)
Definition falha_envio (ftp : option nat) (i : info) (e : exn)
    : M (option (option nat * info) * (option nat * info)) :=
  try_except (ftp_close ftp) (any_exc (mret tt)) ;;
  mret (None, (None, com_detalhe (DetErro e) i)).

(** One iteration of [for tentativa in range(1, max_tentativas + 1)] after
    the connection was obtained: the first component is [Some] when the
    function returns from inside the loop, the second is the loop variables
    [ftp] and [info] otherwise. *)
Definition tentativa_envio (ftp : option nat) (caminho_arquivo nome_remoto : string)
    (tamanho_local : Z) (tentativa : nat) (protecao : prot) (modo_passivo : bool)
    (i : info) : M (option (option nat * info) * (option nat * info)) :=
  try_except
    (configurar_transferencia ftp protecao modo_passivo ;;
     ftp_storbinary ftp nome_remoto caminho_arquivo ;;
     tamanho_remoto ← verificar_arquivo_remoto ftp nome_remoto;
     if bool_decide (tamanho_remoto = Some tamanho_local)
     then
       let i := com_detalhe (DetTransferido tentativa modo_passivo)
                  (com_status Sucesso (com_tamanho_remoto tamanho_remoto i)) in
       mret (Some (ftp, i), (ftp, i))
     else
       let i := com_detalhe (DetDivergente tamanho_remoto)
                  (com_tamanho_remoto tamanho_remoto i) in
       try_except (ftp_delete ftp nome_remoto ;; mret (None, (ftp, i)))
         (λ e, match e with
               | error_perm => Some (mret (None, (ftp, i)))
               | _ => Some (falha_envio ftp i e)
               end))
    (λ e, Some (falha_envio ftp i e)).

(** [MODOS_TRANSFERENCIA[(tentativa - 1) % len(MODOS_TRANSFERENCIA)]] *)
Definition modo_da_tentativa (tentativa : nat) : prot * bool :=
  nth ((tentativa - 1) mod length MODOS_TRANSFERENCIA) MODOS_TRANSFERENCIA
      (PROT_P, true).

Fixpoint enviar_loop (restantes : nat) (tentativa : nat) (ftp : option nat)
    (caminho_arquivo nome_remoto : string) (tamanho_local : Z) (i : info)
    : M (option nat * info) :=
  match restantes with
  | 0 =>
      mret (ftp, match status i with Sucesso => i | _ => com_status Falha i end)
  | S n =>
      let '(protecao, modo_passivo) := modo_da_tentativa tentativa in
      log (EvAttempt nome_remoto tentativa) ;;
      ftp ← garantir_conexao ftp;
      match ftp with
      | None =>
          mret (None, com_detalhe DetConexaoIndisponivel
                        (com_status Falha (com_tentativas tentativa i)))
      | Some _ =>
          let i := com_tentativas tentativa i in
          r ← tentativa_envio ftp caminho_arquivo nome_remoto tamanho_local
                tentativa protecao modo_passivo i;
          match r with
          | (Some x, _) => mret x
          | (None, (ftp, i)) =>
              sleep (1 # 2) ;;
              enviar_loop n (S tentativa) ftp caminho_arquivo nome_remoto
                tamanho_local i
          end
      end
  end.

Definition enviar_para_ftp (ftp : option nat) (caminho_arquivo nome_remoto : string)
    (max_tentativas : Z) : M (option nat * info) :=
  existe ← path_exists caminho_arquivo;
  if negb existe
  then mret (ftp, Info nome_remoto caminho_arquivo 0 None 0 Ignorado DetNaoEncontrado)
  else
    tamanho_local ← getsize caminho_arquivo;
    let i := Info nome_remoto caminho_arquivo tamanho_local None 0 Pendente DetVazio in
    let max_tentativas :=
      if (max_tentativas <=? 0)%Z then Z.of_nat (length MODOS_TRANSFERENCIA)
      else max_tentativas in
    enviar_loop (Z.to_nat max_tentativas) 1 ftp caminho_arquivo nome_remoto
      tamanho_local i.

(** [shutil.move] of a file on the flat disk. *)
Definition shutil_move (origem destino : string) : M unit :=
  d ← read_file origem;
  os_remove origem ;;
  write_file destino d.

(** Directories are implicit in the disk model: [os.makedirs] and
    [remover_diretorios_vazios] have nothing to do. *)
Definition mover_para_enviados (caminho_origem raiz_origem pasta_destino : string)
    : M string :=
  let rel_path := relpath caminho_origem raiz_origem in
  let destino_final := path_join pasta_destino rel_path in
  shutil_move caminho_origem destino_final ;;
  mret destino_final.



(** Lines 735-783: the body of [for item in lote]. *)
Definition processar_item (it : item) (st : estado) (ftp : option nat)
    : M (estado * option nat) :=
  let tentativa_atual := S (default 0 (tentativas_por_arquivo st !! caminho it)) in
  let tpa := <[caminho it := tentativa_atual]> (tentativas_por_arquivo st) in
  match ftp with
  | Some _ => try_except (ftp_quit ftp) (any_exc (mret tt))
  | None => mret tt
  end ;;
  ftp ← conectar_ftp;
  '(ftp, info_envio) ← enviar_para_ftp ftp (caminho it) (nome_remoto it) 3;
  let info_envio := com_tentativas tentativa_atual info_envio in
  log (EvSend (caminho it) tentativa_atual (status info_envio)) ;;
  match status info_envio with
  | Sucesso =>
      info_envio ←
        try_except
          (destino_movido ←
             mover_para_enviados (caminho it) CAMINHO_PADRAO_TO_SEND CAMINHO_PADRAO_SEND;
           mret (com_caminho_local destino_movido
                   (com_detalhe (DetMovido (detalhe info_envio) destino_movido)
                      info_envio)))
          (λ e, Some (mret (com_detalhe (DetFalhaMover (detalhe info_envio) e)
                              info_envio)));
      mret (Estado (fila st) tpa (relatorio_envios st ++ [info_envio]) (lote_atual st),
            ftp)
  | Ignorado =>
      mret (Estado (fila st) tpa (relatorio_envios st ++ [info_envio]) (lote_atual st),
            ftp)
  | _ =>
      if tentativa_atual <? MAX_REPROCESSOS
      then
        mret (Estado (fila st ++ [it]) tpa (relatorio_envios st) (lote_atual st), ftp)
      else
        mret (Estado (fila st) tpa (relatorio_envios st ++ [info_envio]) (lote_atual st),
              ftp)
  end.

(** [for item in lote] *)
Fixpoint processar_lote (lote : list item) (st : estado) (ftp : option nat)
    : M (estado * option nat) :=
  match lote with
  | [] => mret (st, ftp)
  | it :: resto =>
      '(st, ftp) ← processar_item it st ftp;
      processar_lote resto st ftp
  end.

(** Lines 727-785: [while fila], with a bound on the number of iterations;
    [None] means the bound was reached with the queue not yet empty. *)
Fixpoint main_while (limite : nat) (st : estado) (ftp : option nat)
    : M (option (estado * option nat)) :=
  match limite with
  | 0 => mret None
  | S n =>
      match fila st with
      | [] => mret (Some (st, ftp))
      | _ =>
          let lote := take 100 (fila st) in
          let st := Estado (drop 100 (fila st)) (tentativas_por_arquivo st)
                      (relatorio_envios st) (lote_atual st) in
          '(st, ftp) ← processar_lote lote st ftp;
          main_while n
            (Estado (fila st) (tentativas_por_arquivo st) (relatorio_envios st)
               (S (lote_atual st)))
            ftp
      end
  end.

Definition estado_inicial (itens_envio : list item) : estado :=
  Estado itens_envio ∅ [] 1.

(** Lines 722-785 of [main].  Every iteration of [while fila] that runs the
    batch loop sends at least one item, and no run sends more than
    [MAX_REPROCESSOS * length itens_envio] times, so the bound below is never
    reached. *)
Definition main_envio (itens_envio : list item) (ftp : option nat)
    : M (option (estado * option nat)) :=
  main_while (S (MAX_REPROCESSOS * length itens_envio))
    (estado_inicial itens_envio) ftp.

End Send.
End Send.

(** ** A model server

    A reliable FTP server over a tree of directories and files, used to run
    the scripts on concrete inputs and to state what provisioning does to
    the remote tree.  A directory or file is the list of the segments of
    its absolute path; the root is the empty list.  Each control connection
    has a working directory.  [with_faults] puts a fault plan in front of
    any environment. *)

Module Server.

Record tree := Tree {
  dirs : gset (list string);
  files : gmap (list string) string;
  sessions : gmap nat (list string);
  clock : Q
}.

Definition segments (p : string) : list string :=
  List.filter nonempty (split "/" p).

Definition is_abs (p : string) : bool :=
  match p with
  | String c _ => bool_decide (c = "/"%char)
  | EmptyString => false
  end.

Definition resolve (wd : list string) (p : string) : list string :=
  if is_abs p then segments p else wd ++ segments p.

Definition render (l : list string) : string :=
  match l with
  | [] => "/"
  | _ => fold_right (λ seg acc, "/" +:+ seg +:+ acc) "" l
  end.

Definition is_dir (t : tree) (d : list string) : bool :=
  bool_decide (d = []) || bool_decide (d ∈ dirs t).

Definition is_file (t : tree) (f : list string) : bool :=
  bool_decide (is_Some (files t !! f)).

(** The lines of LIST for the working directory: one per file. *)
Definition listing (t : tree) (wd : list string) : list string :=
  omap (λ '(f, d),
          if bool_decide (removelast f = wd)
          then Some ("-rw-r--r-- 1 ftp ftp " +:+ pretty (String.length d) +:+ " "
                     +:+ List.last f "")
          else None)
       (map_to_list (files t)).

Definition with_session (h : nat) (wd : list string) (t : tree) : tree :=
  Tree (dirs t) (files t) (<[h := wd]> (sessions t)) (clock t).

Definition step (h : nat) (c : cmd) (t : tree) : reply * tree :=
  match c with
  | Connect _ _ => (ROk, with_session h [] t)
  | Close => (ROk, Tree (dirs t) (files t) (delete h (sessions t)) (clock t))
  | _ =>
      match sessions t !! h with
      | None => (RExc EOFError, t)
      | Some wd =>
          match c with
          | Cwd p =>
              let d := resolve wd p in
              if is_dir t d then (ROk, with_session h d t)
              else (RExc error_perm, t)
          | Pwd => (RPath (render wd), t)
          | Mkd p =>
              let d := resolve wd p in
              if is_dir t d || is_file t d || negb (is_dir t (removelast d))
              then (RExc error_perm, t)
              else (ROk, Tree ({[d]} ∪ dirs t) (files t) (sessions t) (clock t))
          | Size p =>
              match files t !! resolve wd p with
              | Some d => (RSize (Some (Z.of_nat (String.length d))), t)
              | None => (RExc error_perm, t)
              end
          | Delete p =>
              let f := resolve wd p in
              if is_file t f
              then (ROk, Tree (dirs t) (delete f (files t)) (sessions t) (clock t))
              else (RExc error_perm, t)
          | Rename a b =>
              let src := resolve wd a in
              let dst := resolve wd b in
              match files t !! src with
              | Some d =>
                  if is_dir t (removelast dst) && negb (is_dir t dst)
                  then (ROk, Tree (dirs t) (<[dst := d]> (delete src (files t)))
                               (sessions t) (clock t))
                  else (RExc error_perm, t)
              | None => (RExc error_perm, t)
              end
          | Retr p _ =>
              match files t !! resolve wd p with
              | Some d => (RData d None, t)
              | None => (RExc error_perm, t)
              end
          | Stor p d _ =>
              let dst := resolve wd p in
              if is_dir t (removelast dst) && negb (is_dir t dst)
              then (ROk, Tree (dirs t) (<[dst := d]> (files t)) (sessions t) (clock t))
              else (RExc error_perm, t)
          | Retrlines _ _ => (RLines (listing t wd), t)
          | _ => (ROk, t)
          end
      end
  end.

Definition env : Environment := {|
  env_state := tree;
  ftp_step := step;
  sleep_step d t := Tree (dirs t) (files t) (sessions t) (clock t + d);
  time_step t := (clock t, t)
|}.

(** A fault plan decides, from the number of method calls made so far, the
    client and the call, whether the call fails before reaching the server,
    and with which reply. *)
Definition with_faults (plan : nat → nat → cmd → option reply) (E : Environment)
    : Environment := {|
  env_state := @env_state E * nat;
  ftp_step h c s :=
    match plan (snd s) h c with
    | Some r => (r, (fst s, S (snd s)))
    | None => let '(r, s') := @ftp_step E h c (fst s) in (r, (s', S (snd s)))
    end;
  sleep_step d s := (@sleep_step E d (fst s), snd s);
  time_step s := let '(t, s') := @time_step E (fst s) in (t, (s', snd s))
|}.

Definition empty_tree : tree := Tree ∅ ∅ ∅ 0.

(** A tree from lists of directories and files given by their paths. *)
Definition make_tree (ds : list string) (fs : list (string * string)) : tree :=
  Tree (list_to_set (segments <$> ds))
       (list_to_map (prod_map segments id <$> fs)) ∅ 0.

End Server.

(** * Properties *)

(** ** Vocabulary for stating them *)

(** Events of connection management and directory provisioning: control
    commands that neither transfer nor delete nor rename a file, client
    creation and sleeps. *)
Definition cmd_infra (c : cmd) : bool :=
  match c with
  | Delete _ | Rename _ _ | Retr _ _ | Stor _ _ _ | Retrlines _ _ => false
  | _ => true
  end.

(** Connection management: control commands and client creation. *)
Definition ev_conn (e : event) : bool :=
  match e with
  | EvFtp _ c _ => cmd_infra c
  | EvNew _ => true
  | _ => false
  end.

(** Connection management and the pauses of directory provisioning. *)
Definition ev_infra (e : event) : bool :=
  match e with
  | EvFtp _ c _ => cmd_infra c
  | EvSleep _ | EvNew _ => true
  | _ => false
  end.

(** Any method call or client creation: no sleep, no ghost marker. *)
Definition ev_call (e : event) : bool :=
  match e with
  | EvFtp _ _ _ | EvNew _ => true
  | _ => false
  end.

(** Anything but a ghost marker. *)
Definition ev_real (e : event) : bool :=
  match e with
  | EvFtp _ _ _ | EvSleep _ | EvNew _ => true
  | _ => false
  end.

Definition is_sleep (e : event) : bool :=
  match e with EvSleep _ => true | _ => false end.

Definition is_delete (e : event) : bool :=
  match e with EvFtp _ (Delete _) _ => true | _ => false end.

Definition is_attempt (e : event) : bool :=
  match e with EvAttempt _ _ => true | _ => false end.

Definition is_item_event (e : event) : bool :=
  match e with EvItemStart _ _ | EvItemEnd _ _ _ => true | _ => false end.

Section Logic.
Context `{Environment}.

(** [spec m Q]: from any world, [m] extends the trace by some [t], and its
    result and [t] satisfy [Q]. *)
Definition spec {A} (m : M A) (Q : res A → list event → Prop) : Prop :=
  ∀ w, ∃ t, trace (m w).2 = trace w ++ t ∧ Q (m w).1 t.

(** [emits φ m]: every event [m] adds to the trace satisfies [φ]. *)
Definition emits {A} (φ : event → Prop) (m : M A) : Prop :=
  spec m (λ _ t, Forall φ t).

End Logic.

(** ** The monad and its primitives *)

Section LogicLemmas.
Context `{Environment}.

Lemma run_bind {A B} (m : M A) (f : A → M B) w :
  (m ≫= f) w = match m w with
               | (Val a, w') => f a w'
               | (Exc e, w') => (Exc e, w')
               end.
Proof. reflexivity. Qed.

Lemma run_ret {A} (a : A) w : (mret a : M A) w = (Val a, w).
Proof. reflexivity. Qed.

Lemma spec_conseq {A} (m : M A) (Q Q' : res A → list event → Prop) :
  spec m Q → (∀ r t, Q r t → Q' r t) → spec m Q'.
Proof.
  intros Hm HQ w. destruct (Hm w) as (t & Ht & HQt). eauto.
Qed.

Lemma spec_ret {A} (a : A) (Q : res A → list event → Prop) :
  Q (Val a) [] → spec (mret a) Q.
Proof. intros HQ w. exists []. rewrite app_nil_r. done. Qed.

Lemma spec_raise {A} e (Q : res A → list event → Prop) :
  Q (Exc e) [] → spec (raise e) Q.
Proof. intros HQ w. exists []. rewrite app_nil_r. done. Qed.

Lemma spec_bind {A B} (m : M A) (f : A → M B) Pm (Pf : A → res B → list event → Prop)
    (Q : res B → list event → Prop) :
  spec m Pm →
  (∀ a, spec (f a) (Pf a)) →
  (∀ e t, Pm (Exc e) t → Q (Exc e) t) →
  (∀ a t1 r t2, Pm (Val a) t1 → Pf a r t2 → Q r (t1 ++ t2)) →
  spec (m ≫= f) Q.
Proof.
  intros Hm Hf Hexc Hval w. rewrite run_bind.
  destruct (Hm w) as (t1 & Ht1 & HP). destruct (m w) as [[a|e] w1]; simpl in *.
  - destruct (Hf a w1) as (t2 & Ht2 & HP2).
    exists (t1 ++ t2). rewrite Ht2, Ht1, app_assoc. eauto.
  - exists t1. eauto.
Qed.

Lemma spec_try_except {A} (m : M A) h Pm (Q : res A → list event → Prop) :
  spec m Pm →
  (∀ a t, Pm (Val a) t → Q (Val a) t) →
  (∀ e t, Pm (Exc e) t → h e = None → Q (Exc e) t) →
  (∀ e k, h e = Some k →
     spec k (λ r t2, ∀ t1, Pm (Exc e) t1 → Q r (t1 ++ t2))) →
  spec (try_except m h) Q.
Proof.
  intros Hm Hval Hnone Hsome w. unfold try_except.
  destruct (Hm w) as (t1 & Ht1 & HP). destruct (m w) as [[a|e] w1]; simpl in *.
  - exists t1. eauto.
  - destruct (h e) as [k|] eqn:Hh.
    + destruct (Hsome e k Hh w1) as (t2 & Ht2 & HP2).
      exists (t1 ++ t2). rewrite Ht2, Ht1, app_assoc. eauto.
    + exists t1. eauto.
Qed.

Lemma emits_mono {A} (φ ψ : event → Prop) (m : M A) :
  emits φ m → (∀ e, φ e → ψ e) → emits ψ m.
Proof.
  intros Hm Himp. eapply spec_conseq; [exact Hm|].
  intros r t HF. eapply Forall_impl; [exact HF|exact Himp].
Qed.

Lemma emits_ret {A} φ (a : A) : emits φ (mret a).
Proof. apply spec_ret. constructor. Qed.

Lemma emits_raise {A} φ e : emits φ (raise e : M A).
Proof. apply spec_raise. constructor. Qed.

Lemma emits_bind {A B} φ (m : M A) (f : A → M B) :
  emits φ m → (∀ a, emits φ (f a)) → emits φ (m ≫= f).
Proof.
  intros Hm Hf.
  apply (spec_bind m f (λ _ t, Forall φ t) (λ _ _ t, Forall φ t)); auto.
  intros. by apply Forall_app.
Qed.

Lemma emits_try_except {A} φ (m : M A) h :
  emits φ m → (∀ e k, h e = Some k → emits φ k) → emits φ (try_except m h).
Proof.
  intros Hm Hh.
  apply (spec_try_except m h (λ _ t, Forall φ t)); auto.
  intros e k Hk. eapply spec_conseq; [exact (Hh e k Hk)|].
  simpl. intros. by apply Forall_app.
Qed.

Lemma emits_try_any {A} φ (m k : M A) :
  emits φ m → emits φ k → emits φ (try_except m (any_exc k)).
Proof.
  intros Hm Hk. apply emits_try_except; [done|].
  intros e k' [= <-]. done.
Qed.

Lemma emits_try_perm {A} φ (m k : M A) :
  emits φ m → emits φ k → emits φ (try_except m (only_perm k)).
Proof.
  intros Hm Hk. apply emits_try_except; [done|].
  intros e k' Hk'. destruct e; simplify_eq/=. done.
Qed.

Lemma emits_try_finally {A} φ (m : M A) f :
  emits φ m → emits φ f → emits φ (try_finally m f).
Proof.
  intros Hm Hf w. unfold try_finally.
  destruct (Hm w) as (t1 & Ht1 & HP). destruct (m w) as [r w1]; simpl in *.
  destruct (Hf w1) as (t2 & Ht2 & HP2).
  exists (t1 ++ t2). rewrite Ht2, Ht1, app_assoc. split; [done|]. by apply Forall_app.
Qed.

(** A computation that leaves the trace alone. *)
Definition silent {A} (m : M A) : Prop := ∀ w, trace (m w).2 = trace w.

Lemma emits_silent {A} φ (m : M A) : silent m → emits φ m.
Proof. intros Hm w. exists []. rewrite app_nil_r. split; [apply Hm|constructor]. Qed.

Lemma silent_get_modo ftp : silent (get_modo ftp).
Proof. intros w. by destruct ftp. Qed.
Lemma silent_set_modo ftp f : silent (set_modo ftp f).
Proof. intros w. by destruct ftp. Qed.
Lemma silent_path_exists p : silent (path_exists p).
Proof. done. Qed.
Lemma silent_write_file p d : silent (write_file p d).
Proof. done. Qed.
Lemma silent_read_file p : silent (read_file p).
Proof. intros w. unfold read_file. by destruct (disk w !! p). Qed.
Lemma silent_os_remove p : silent (os_remove p).
Proof. intros w. unfold os_remove. by destruct (disk w !! p). Qed.
Lemma silent_time_now : silent time_now.
Proof. intros w. unfold time_now. by destruct (time_step (srv w)). Qed.

Lemma spec_call ftp c (Q : res reply → list event → Prop) :
  (ftp = None → Q (Exc AttributeError) []) →
  (∀ h r, ftp = Some h →
     Q (match r with RExc e => Exc e | _ => Val r end) [EvFtp h c r]) →
  spec (call ftp c) Q.
Proof.
  intros Hnone Hsome w. unfold call. destruct ftp as [h|].
  - destruct (ftp_step h c (srv w)) as [r s] eqn:Hstep.
    exists [EvFtp h c r]. pose proof (Hsome h r eq_refl) as HQ. clear Hsome Hstep.
    destruct r; simpl in *; eauto.
  - exists []. rewrite app_nil_r. eauto.
Qed.

Lemma emits_call (φ : event → Prop) ftp c :
  (∀ h r, φ (EvFtp h c r)) → emits φ (call ftp c).
Proof.
  intros Hφ. apply spec_call; [constructor|].
  intros h r _. constructor; [apply Hφ|constructor].
Qed.

Lemma emits_call_ (φ : event → Prop) ftp c :
  (∀ h r, φ (EvFtp h c r)) → emits φ (call_ ftp c).
Proof.
  intros Hφ. apply emits_bind; [by apply emits_call|]. intros. apply emits_ret.
Qed.

Lemma emits_log (φ : event → Prop) e : φ e → emits φ (log e).
Proof. intros Hφ w. exists [e]. split; [done|]. by constructor. Qed.

Lemma emits_sleep (φ : event → Prop) d : φ (EvSleep d) → emits φ (sleep d).
Proof. intros Hφ w. exists [EvSleep d]. split; [done|]. by constructor. Qed.

Lemma emits_FTPSClient (φ : event → Prop) : (∀ h, φ (EvNew h)) → emits φ FTPSClient.
Proof. intros Hφ w. eexists [_]. split; [done|]. by constructor. Qed.

(** Forward versions: the postcondition of a composition from those of its
    parts. *)
Lemma spec_bind_fwd {A B} (m : M A) (f : A → M B) Pm
    (Pf : A → res B → list event → Prop) :
  spec m Pm →
  (∀ a, spec (f a) (Pf a)) →
  spec (m ≫= f)
    (λ r t, (∃ e, r = Exc e ∧ Pm (Exc e) t) ∨
            (∃ a t1 t2, t = t1 ++ t2 ∧ Pm (Val a) t1 ∧ Pf a r t2)).
Proof.
  intros Hm Hf. eapply spec_bind; [exact Hm|exact Hf|..]; simpl.
  - intros e t HP. left. eauto.
  - intros a t1 r t2 HP1 HP2. right. exists a, t1, t2. eauto.
Qed.

Lemma spec_try_any_fwd {A} (m k : M A) Pm Pk :
  spec m Pm →
  spec k Pk →
  spec (try_except m (any_exc k))
    (λ r t, (∃ a, r = Val a ∧ Pm (Val a) t) ∨
            (∃ e t1 t2, t = t1 ++ t2 ∧ Pm (Exc e) t1 ∧ Pk r t2)).
Proof.
  intros Hm Hk. eapply spec_try_except; [exact Hm|..]; simpl.
  - intros a t HP. left. eauto.
  - intros e t _ [=].
  - intros e k' [= <-]. eapply spec_conseq; [exact Hk|]. simpl.
    intros r t2 HPk t1 HP. right. exists e, t1, t2. eauto.
Qed.

Lemma spec_try_finally_fwd {A} (m : M A) f Pm Pf :
  spec m Pm →
  spec f Pf →
  spec (try_finally m f)
    (λ r t, ∃ t1 t2 rf, t = t1 ++ t2 ∧ Pm r t1 ∧ Pf rf t2).
Proof.
  intros Hm Hf w. unfold try_finally.
  destruct (Hm w) as (t1 & Ht1 & HP). destruct (m w) as [r w1]; simpl in *.
  destruct (Hf w1) as (t2 & Ht2 & HP2).
  exists (t1 ++ t2). rewrite Ht2, Ht1, app_assoc. split; [done|].
  exists t1, t2, (f w1).1. eauto.
Qed.

(** What a method call adds to the trace. *)
Definition call_post (ftp : option nat) (c : cmd) (r : res reply)
    (t : list event) : Prop :=
  (ftp = None ∧ r = Exc AttributeError ∧ t = []) ∨
  (∃ h rep, ftp = Some h ∧ t = [EvFtp h c rep] ∧
            r = match rep with RExc e => Exc e | _ => Val rep end).

Lemma spec_call_post ftp c : spec (call ftp c) (call_post ftp c).
Proof.
  apply spec_call.
  - intros ->. left. done.
  - intros h r ->. right. eauto.
Qed.

Definition call__post (ftp : option nat) (c : cmd) (r : res unit)
    (t : list event) : Prop :=
  (ftp = None ∧ r = Exc AttributeError ∧ t = []) ∨
  (∃ h rep, ftp = Some h ∧ t = [EvFtp h c rep] ∧
            r = match rep with RExc e => Exc e | _ => Val tt end).

Lemma spec_call__post ftp c : spec (call_ ftp c) (call__post ftp c).
Proof.
  intros w. unfold call_, call. rewrite run_bind. destruct ftp as [h|]; simpl.
  - destruct (ftp_step h c (srv w)) as [rep s]. exists [EvFtp h c rep].
    split; [by destruct rep|]. right. exists h, rep. by destruct rep.
  - exists []. rewrite app_nil_r. split; [done|]. by left.
Qed.

(** A computation that does not raise. *)
Definition total_emits {A} (φ : event → Prop) (m : M A) : Prop :=
  spec m (λ r t, (∃ a, r = Val a) ∧ Forall φ t).

Lemma total_emits_emits {A} φ (m : M A) : total_emits φ m → emits φ m.
Proof. intros Hm. eapply spec_conseq; [exact Hm|]. simpl. tauto. Qed.

Lemma total_emits_ret {A} φ (a : A) : total_emits φ (mret a).
Proof. apply spec_ret. split; [eauto|constructor]. Qed.

Lemma total_emits_bind {A B} φ (m : M A) (f : A → M B) :
  total_emits φ m → (∀ a, total_emits φ (f a)) → total_emits φ (m ≫= f).
Proof.
  intros Hm Hf.
  eapply spec_conseq;
    [exact (spec_bind_fwd m f _ (λ _ r t, (∃ b, r = Val b) ∧ Forall φ t) Hm Hf)|].
  simpl.
  intros r t [(e & -> & [[a [=]] _])|(a & t1 & t2 & -> & [_ H1] & [Hr H2])].
  split; [done|]. by apply Forall_app.
Qed.

Lemma total_emits_try_any {A} φ (m k : M A) :
  emits φ m → total_emits φ k → total_emits φ (try_except m (any_exc k)).
Proof.
  intros Hm Hk.
  eapply spec_conseq; [exact (spec_try_any_fwd m k _ _ Hm Hk)|]. simpl.
  intros r t [(a & -> & H1)|(e & t1 & t2 & -> & H1 & [Hr H2])].
  - split; [eauto|done].
  - split; [done|]. by apply Forall_app.
Qed.

End LogicLemmas.

(** ** Results, independently of traces *)

Section Returns.
Context `{Environment}.

(** [returns P m]: from any world, the result of [m] satisfies [P]. *)
Definition returns {A} (P : res A → Prop) (m : M A) : Prop := ∀ w, P (m w).1.

Definition total {A} (m : M A) : Prop := returns (λ r, ∃ a, r = Val a) m.

Lemma returns_mono {A} (P Q : res A → Prop) (m : M A) :
  returns P m → (∀ r, P r → Q r) → returns Q m.
Proof. intros Hm HPQ w. apply HPQ, Hm. Qed.

Lemma returns_ret {A} (P : res A → Prop) (a : A) : P (Val a) → returns P (mret a).
Proof. intros HP w. done. Qed.

Lemma returns_bind {A B} (P : res B → Prop) (m : M A) (f : A → M B) :
  (∀ e, P (Exc e)) → (∀ a, returns P (f a)) → returns P (m ≫= f).
Proof.
  intros He Hf w. rewrite run_bind. destruct (m w) as [[a|e] w1]; [apply Hf|apply He].
Qed.

Lemma returns_bind_total {A B} (P : res B → Prop) (m : M A) (f : A → M B) :
  total m → (∀ a, returns P (f a)) → returns P (m ≫= f).
Proof.
  intros Hm Hf w. rewrite run_bind. specialize (Hm w).
  destruct (m w) as [[a|e] w1]; [apply Hf|]. by destruct Hm.
Qed.

Lemma returns_try_any {A} (P : res A → Prop) (m k : M A) :
  (∀ a, P (Val a)) → returns P k → returns P (try_except m (any_exc k)).
Proof.
  intros Hv Hk w. unfold try_except, any_exc.
  destruct (m w) as [[a|e] w1]; [apply Hv|apply Hk].
Qed.

Lemma returns_try_any_body {A} (Pm P : res A → Prop) (m k : M A) :
  returns Pm m → (∀ a, Pm (Val a) → P (Val a)) → returns P k →
  returns P (try_except m (any_exc k)).
Proof.
  intros Hm Hv Hk w. unfold try_except, any_exc. specialize (Hm w).
  destruct (m w) as [[a|e] w1]; [by apply Hv|apply Hk].
Qed.

Lemma returns_try_except {A} (Pm P : res A → Prop) (m : M A) h :
  returns Pm m →
  (∀ a, Pm (Val a) → P (Val a)) →
  (∀ e, Pm (Exc e) → match h e with
                     | Some k => returns P k
                     | None => P (Exc e)
                     end) →
  returns P (try_except m h).
Proof.
  intros Hm Hv Hh w. unfold try_except. specialize (Hm w).
  destruct (m w) as [[a|e] w1]; [by apply Hv|].
  specialize (Hh e Hm). destruct (h e); [apply Hh|done].
Qed.

Lemma returns_any {A} (m : M A) : returns (λ _, True) m.
Proof. done. Qed.

Lemma total_ret {A} (a : A) : total (mret a).
Proof. apply returns_ret. eauto. Qed.

Lemma total_bind {A B} (m : M A) (f : A → M B) :
  total m → (∀ a, total (f a)) → total (m ≫= f).
Proof. intros. by apply returns_bind_total. Qed.

Lemma total_try_any {A} (m k : M A) : total k → total (try_except m (any_exc k)).
Proof. intros. apply returns_try_any; [eauto|done]. Qed.

Lemma total_sleep d : total (sleep d).
Proof. intros w. simpl. eauto. Qed.

Lemma total_log e : total (log e).
Proof. intros w. simpl. eauto. Qed.

(** The trace extension is determined, so specifications combine. *)
Lemma spec_and {A} (m : M A) (Q1 Q2 : res A → list event → Prop) :
  spec m Q1 → spec m Q2 → spec m (λ r t, Q1 r t ∧ Q2 r t).
Proof.
  intros H1 H2 w. destruct (H1 w) as (t1 & Ht1 & HQ1).
  destruct (H2 w) as (t2 & Ht2 & HQ2).
  assert (t1 = t2) as -> by (eapply app_inv_head; by rewrite <-Ht1, <-Ht2).
  eauto.
Qed.

Lemma spec_returns {A} (m : M A) (P : res A → Prop) (Q : res A → list event → Prop) :
  returns P m → spec m Q → spec m (λ r t, P r ∧ Q r t).
Proof.
  intros HP HQ w. destruct (HQ w) as (t & Ht & HQt). exists t. split; [done|].
  split; [apply HP|done].
Qed.

End Returns.

(** ** The local path of a download *)

Lemma string_length_app (s1 s2 : string) :
  String.length (s1 +:+ s2) = String.length s1 + String.length s2.
Proof. induction s1 as [|c s1 IH]; simpl; [done|]. by rewrite IH. Qed.

Lemma string_app_inv_tail (e s1 s2 : string) : s1 +:+ e = s2 +:+ e → s1 = s2.
Proof.
  revert s2. induction s1 as [|c s1 IH]; intros s2 Heq.
  - apply (f_equal String.length) in Heq. rewrite !string_length_app in Heq.
    simpl in Heq. destruct s2; [done|]. simpl in Heq. lia.
  - destruct s2 as [|c2 s2].
    + apply (f_equal String.length) in Heq. rewrite !string_length_app in Heq.
      simpl in Heq. lia.
    + simpl in Heq. injection Heq as -> Heq. f_equal. by apply IH.
Qed.

Lemma sufixado_inj base ext i j : sufixado base ext i = sufixado base ext j → i = j.
Proof.
  unfold sufixado. intros Heq.
  apply (inj (String.app base)), (inj (String.app "_")) in Heq.
  apply string_app_inv_tail in Heq. by apply (inj pretty) in Heq.
Qed.

(** The search among the suffixed candidates, with those found taken so
    far in [seen]. *)
Lemma caminho_livre_suffixed n (disco : gmap string string) base ext i
    (seen : gset string) :
  seen ⊆ dom disco →
  (∀ j, i ≤ j → sufixado base ext j ∉ seen) →
  size disco < n + size seen →
  Receive.caminho_livre n disco base ext (S i) (sufixado base ext i) ∉ dom disco.
Proof.
  revert i seen. induction n as [|n IH]; intros i seen Hsub Hnew Hsize.
  { apply subseteq_size in Hsub. rewrite size_dom in Hsub. lia. }
  cbn [Receive.caminho_livre]. case_bool_decide as Hin; [|by rewrite elem_of_dom].
  apply (IH (S i) ({[sufixado base ext i]} ∪ seen)).
  - apply union_subseteq. split; [|done].
    apply singleton_subseteq_l. by apply elem_of_dom.
  - intros j Hj [Heq%elem_of_singleton|Hs]%elem_of_union.
    + apply sufixado_inj in Heq. lia.
    + apply (Hnew j); [lia|done].
  - rewrite size_union by (specialize (Hnew i ltac:(lia)); set_solver).
    rewrite size_singleton. lia.
Qed.

(** The path chosen for a download is not in use: the model of the loop
    never runs out of iterations. *)
Lemma caminho_livre_fresh (disco : gmap string string) base ext c :
  Receive.caminho_livre (S (S (size disco))) disco base ext 1 c ∉ dom disco.
Proof.
  change (Receive.caminho_livre (S (S (size disco))) disco base ext 1 c)
    with (if bool_decide (is_Some (disco !! c))
          then Receive.caminho_livre (S (size disco)) disco base ext 2
                 (sufixado base ext 1)
          else c).
  case_bool_decide as Hin; [|by rewrite elem_of_dom].
  apply (caminho_livre_suffixed _ _ _ _ 1 ∅).
  - set_solver.
  - set_solver.
  - rewrite size_empty. lia.
Qed.

Lemma escolher_caminho_local_fresh `{Environment} nome (w : world) :
  ∃ p, Receive.escolher_caminho_local nome w = (Val p, w) ∧ disk w !! p = None.
Proof.
  unfold Receive.escolher_caminho_local. destruct (splitext _) as [base ext].
  eexists. split; [done|]. apply not_elem_of_dom, caminho_livre_fresh.
Qed.

(** ** Which events each function can emit *)

Ltac unfold_ftp :=
  unfold ftp_connect, ftp_auth, ftp_login, ftp_sendcmd, ftp_voidcmd, ftp_cwd,
    ftp_mkd, ftp_delete, ftp_rename, ftp_close, ftp_quit, ftp_prot_p, ftp_prot_c,
    ftp_set_pasv, ftp_size, ftp_pwd, ftp_retrlines, ftp_retrbinary,
    ftp_storbinary, getsize.

Ltac ev_side Hφ :=
  intros; first [ apply Hφ; done | done | hnf; simpl; tauto | solve [eauto] ].

Ltac emits_prim Hφ :=
  first
    [ apply emits_ret
    | apply emits_raise
    | apply emits_call_; ev_side Hφ
    | apply emits_call; ev_side Hφ
    | apply emits_sleep; ev_side Hφ
    | apply emits_log; ev_side Hφ
    | apply emits_FTPSClient; ev_side Hφ
    | apply emits_silent;
      first [ apply silent_get_modo | apply silent_set_modo | apply silent_path_exists
            | apply silent_write_file | apply silent_read_file | apply silent_os_remove
            | apply silent_time_now ] ].

Ltac emits_go Hφ :=
  repeat first
    [ emits_prim Hφ
    | apply emits_bind; [|intros]
    | apply emits_try_any
    | apply emits_try_perm
    | apply emits_try_finally
    | progress unfold_ftp
    | match goal with
      | |- emits _ (match ?x with _ => _ end) => destruct x
      | |- emits _ (if ?x then _ else _) => destruct x
      | |- emits _ (let '(_, _) := ?x in _) => destruct x
      end ].

Lemma ev_conn_infra e : ev_conn e → ev_infra e.
Proof. by destruct e. Qed.
Lemma ev_conn_call e : ev_conn e → ev_call e.
Proof. by destruct e. Qed.
Lemma ev_infra_real e : ev_infra e → ev_real e.
Proof. by destruct e. Qed.
Lemma ev_call_real e : ev_call e → ev_real e.
Proof. by destruct e. Qed.

Section ReceiveConn.
Context `{Environment}.
Import Receive.

Variable φ : event → Prop.
Hypothesis Hφ : ∀ e, ev_conn e → φ e.

Lemma emits_configurar_transferencia ftp p b :
  emits φ (configurar_transferencia ftp p b).
Proof using Hφ. unfold configurar_transferencia. emits_go Hφ. Qed.

Lemma emits_tentar_modos ftp ms : emits φ (tentar_modos ftp ms).
Proof using Hφ.
  induction ms as [|[nome [p b]] ms IH]; simpl; [apply emits_ret|].
  apply emits_bind.
  - pose proof (emits_configurar_transferencia ftp p b). emits_go Hφ; done.
  - intros [f|]; [apply emits_ret|done].
Qed.

Lemma emits_conectar_ftp : emits φ conectar_ftp.
Proof using Hφ.
  unfold conectar_ftp. emits_go Hφ; try apply emits_tentar_modos.
Qed.

Lemma emits_garantir_conexao ftp : emits φ (garantir_conexao ftp).
Proof using Hφ.
  unfold garantir_conexao. apply emits_try_except.
  - emits_go Hφ; apply emits_conectar_ftp.
  - intros e k Hk. destruct e; simplify_eq/=; emits_go Hφ; apply emits_conectar_ftp.
Qed.

Lemma emits_force_type_i_and_tls ftp : emits φ (_force_type_i_and_tls ftp).
Proof using Hφ. unfold _force_type_i_and_tls. emits_go Hφ. Qed.

Lemma emits_cwd_and_size ftp caminho : emits φ (_cwd_and_size ftp caminho).
Proof using Hφ.
  unfold _cwd_and_size.
  apply emits_bind; [apply emits_force_type_i_and_tls|]. intros.
  emits_go Hφ.
Qed.

Lemma emits_remoto_confere_tamanho ftp caminho tam :
  emits φ (remoto_confere_tamanho ftp caminho tam).
Proof using Hφ.
  unfold remoto_confere_tamanho.
  apply emits_bind; [apply emits_cwd_and_size|]. intros. apply emits_ret.
Qed.

Lemma emits_keepalive_defensivo ftp : emits φ (keepalive_defensivo ftp).
Proof using Hφ.
  unfold keepalive_defensivo.
  apply emits_try_any; [emits_go Hφ|].
  apply emits_bind; [emits_go Hφ|]. intros.
  apply emits_bind; [apply emits_conectar_ftp|]. intros. apply emits_ret.
Qed.

Lemma emits_reconexao_periodica ftp idx tent :
  emits φ (reconexao_periodica ftp idx tent).
Proof using Hφ.
  unfold reconexao_periodica.
  destruct (_ && _); [|apply emits_ret].
  apply emits_bind; [emits_go Hφ|]. intros.
  apply emits_bind; [apply emits_conectar_ftp|]. intros. apply emits_ret.
Qed.

End ReceiveConn.

Section ReceiveInfra.
Context `{Environment}.
Import Receive.

Variable φ : event → Prop.
Hypothesis Hφ : ∀ e, ev_infra e → φ e.

Local Lemma Hφ_conn e : ev_conn e → φ e.
Proof using Hφ. intros. by apply Hφ, ev_conn_infra. Qed.

Lemma emits_assegurar_segmento n pausa ftp atual :
  emits φ (assegurar_segmento n pausa ftp atual).
Proof using Hφ.
  revert ftp. induction n as [|n IH]; intros ftp; simpl; [apply emits_ret|].
  apply emits_bind.
  - apply emits_try_any; [emits_go Hφ|].
    apply emits_try_except; [emits_go Hφ|].
    intros e k Hk.
    destruct e; simplify_eq/=; emits_go Hφ;
      apply emits_garantir_conexao, Hφ_conn.
  - intros [ftp' [|]]; [apply emits_ret|].
    apply emits_bind; [emits_go Hφ|]. intros. apply IH.
Qed.

Lemma emits_assegurar_partes n pausa ftp atual partes :
  emits φ (assegurar_partes n pausa ftp atual partes).
Proof using Hφ.
  revert ftp atual. induction partes as [|p partes IH]; intros ftp atual; simpl.
  - apply emits_ret.
  - apply emits_bind; [apply emits_assegurar_segmento|].
    intros [ftp' [|]]; [apply IH|apply emits_raise].
Qed.

Lemma emits_assegurar_diretorio_remoto ftp caminho n pausa :
  emits φ (assegurar_diretorio_remoto ftp caminho n pausa).
Proof using Hφ.
  unfold assegurar_diretorio_remoto. case_bool_decide; [apply emits_ret|].
  apply emits_bind.
  - emits_go Hφ. apply emits_garantir_conexao, Hφ_conn.
  - intros [ftp1 cur]. apply emits_bind; [apply emits_assegurar_partes|].
    intros. emits_go Hφ.
Qed.

End ReceiveInfra.

Section ReceiveCall.
Context `{Environment}.
Import Receive.

Variable φ : event → Prop.
Hypothesis Hφ : ∀ e, ev_call e → φ e.

Lemma emits_etapa_rename ftp nome destino_abs tam :
  emits φ (etapa_rename ftp nome destino_abs tam).
Proof using Hφ.
  unfold etapa_rename. apply emits_try_any; [|apply emits_ret].
  apply emits_bind; [emits_go Hφ|]. intros.
  apply emits_bind; [emits_go Hφ|]. intros.
  apply emits_remoto_confere_tamanho. intros. by apply Hφ, ev_conn_call.
Qed.

End ReceiveCall.

Section ReceiveReal.
Context `{Environment}.
Import Receive.

Variable φ : event → Prop.
Hypothesis Hφ : ∀ e, ev_real e → φ e.

Local Lemma Hφ_conn' e : ev_conn e → φ e.
Proof using Hφ. intros. by apply Hφ, ev_infra_real, ev_conn_infra. Qed.
Local Lemma Hφ_infra e : ev_infra e → φ e.
Proof using Hφ. intros. by apply Hφ, ev_infra_real. Qed.
Local Lemma Hφ_call e : ev_call e → φ e.
Proof using Hφ. intros. by apply Hφ, ev_call_real. Qed.

Lemma emits_etapa_download ftp nome caminho_local backoff cache :
  emits φ (etapa_download ftp nome caminho_local backoff cache).
Proof using Hφ.
  pose proof (emits_force_type_i_and_tls φ Hφ_conn' ftp) as Hforce.
  unfold etapa_download. apply emits_try_except.
  - apply emits_bind; [done|]. intros. destruct cache; emits_go Hφ.
  - intros e k [= <-]. destruct e; emits_go Hφ; done.
Qed.

Lemma emits_apagar_original ftp nome : emits φ (apagar_original ftp nome).
Proof using Hφ. unfold apagar_original. emits_go Hφ. Qed.

Lemma emits_apos_falha ftp e : emits φ (apos_falha ftp e).
Proof using Hφ.
  unfold apos_falha.
  destruct e; try apply emits_ret. apply emits_force_type_i_and_tls, Hφ_conn'.
Qed.

Lemma emits_etapa_fallback ftp nome caminho_local destino_abs tam :
  emits φ (etapa_fallback ftp nome caminho_local destino_abs tam).
Proof using Hφ.
  unfold etapa_fallback. apply emits_bind.
  - apply emits_try_except.
    + apply emits_bind; [|intros; apply emits_ret].
      apply emits_try_any; [emits_go Hφ|].
      apply emits_assegurar_diretorio_remoto, Hφ_infra.
    + intros e k [= <-]. apply emits_bind; [apply emits_apos_falha|].
      intros. apply emits_ret.
  - intros [ftp1|]; [|apply emits_ret].
    apply emits_bind; [|intros; apply emits_ret].
    apply emits_try_except.
    + apply emits_bind; [apply emits_force_type_i_and_tls, Hφ_conn'|]. intros.
      apply emits_bind; [emits_go Hφ|]. intros.
      apply emits_bind; [apply emits_remoto_confere_tamanho, Hφ_conn'|].
      intros [|]; [|apply emits_ret].
      apply emits_bind; [apply emits_apagar_original|]. intros. apply emits_ret.
    + intros e k [= <-]. apply emits_bind; [apply emits_apos_falha|].
      intros. apply emits_ret.
Qed.

Lemma emits_seguir {A B} (m : M (saida A)) (k : A → M (saida B)) :
  emits φ m → (∀ a, emits φ (k a)) → emits φ (seguir m k).
Proof.
  intros Hm Hk. unfold seguir. apply emits_bind; [done|].
  intros [x|f c|a]; [apply emits_ret..|apply Hk].
Qed.

Lemma emits_tentativa ftp nome caminho_local idx tent backoff cache :
  emits φ (tentativa ftp nome caminho_local idx tent backoff cache).
Proof using Hφ.
  unfold tentativa.
  apply emits_seguir; [apply emits_keepalive_defensivo, Hφ_conn'|]. intros ftp1.
  apply emits_seguir; [apply emits_reconexao_periodica, Hφ_conn'|]. intros ftp2.
  apply emits_seguir; [apply emits_etapa_download|]. intros tam.
  apply emits_bind; [apply emits_etapa_rename, Hφ_call|]. intros move_ok.
  apply emits_bind.
  - destruct move_ok; [apply emits_ret|apply emits_etapa_fallback].
  - intros [ftp3 [|]]; emits_go Hφ.
Qed.

End ReceiveReal.

(** ** The fallback: the origin is deleted only after the destination was confirmed *)

(** A size query on [destino_abs], by its absolute path or by its file name
    after entering its directory, that reported the size [tam]. *)
Definition size_confirmed (destino_abs : string) (tam : Z) (e : event) : Prop :=
  ∃ h f, e = EvFtp h (Size f) (RSize (Some tam)) ∧
         (f = destino_abs ∨ ∃ d, rsplit1 "/" destino_abs = Some (d, f)).

(** At every point of the trace [t] where a delete is issued, a confirming
    size query has already been answered. *)
Definition delete_after_confirmation (destino_abs : string) (tam : Z)
    (t : list event) : Prop :=
  ∀ t1 e t2, t = t1 ++ e :: t2 → is_delete e →
    Exists (size_confirmed destino_abs tam) t1.

Section DeleteAfterConfirmation.
Variables (destino_abs : string) (tam : Z).
Let dac := delete_after_confirmation destino_abs tam.
Let no_delete (e : event) : Prop := ¬ is_delete e.

Lemma infra_no_delete e : ev_infra e → no_delete e.
Proof. destruct e as [h [] r| | | | | |]; simpl; unfold no_delete; simpl; tauto. Qed.


Lemma dac_split (ta tb a b : list event) e :
  ta ++ tb = a ++ e :: b →
  (ta = a ∧ tb = e :: b) ∨ (∃ l, ta = a ++ e :: l ∧ b = l ++ tb) ∨
  (∃ l, a = ta ++ l ∧ tb = l ++ e :: b).
Proof.
  intros Heq. apply app_eq_app in Heq as [l [[-> Heq]|[-> Heq]]].
  - destruct l as [|x l]; simplify_eq/=.
    + left. by rewrite app_nil_r.
    + right; left. eauto.
  - right; right. eauto.
Qed.

Lemma no_delete_middle a e b : Forall no_delete (a ++ e :: b) → is_delete e → False.
Proof.
  intros Hall Hdel. apply Forall_app in Hall as [_ Hall].
  apply Forall_cons in Hall as [Hn _]. done.
Qed.

Lemma dac_app_l t1 t2 : Forall no_delete t1 → dac t2 → dac (t1 ++ t2).
Proof.
  intros Hall Hdac a e b Heq Hdel.
  apply dac_split in Heq as [[-> ->]|[(l & -> & ->)|(l & -> & ->)]].
  - pose proof (Hdac [] e b eq_refl Hdel) as Hx. inversion Hx.
  - destruct (no_delete_middle _ _ _ Hall Hdel).
  - apply Exists_app. right. by apply (Hdac l e b).
Qed.

Lemma dac_app_r t1 t2 : dac t1 → Forall no_delete t2 → dac (t1 ++ t2).
Proof.
  intros Hdac Hall a e b Heq Hdel.
  apply dac_split in Heq as [[-> ->]|[(l & -> & ->)|(l & -> & ->)]].
  - destruct (no_delete_middle [] _ _ Hall Hdel).
  - by apply (Hdac a e l).
  - destruct (no_delete_middle _ _ _ Hall Hdel).
Qed.


End DeleteAfterConfirmation.

Section Fallback.
Context `{Environment}.
Import Receive.

Let no_delete (e : event) : Prop := ¬ is_delete e.

Lemma total_force_type_i_and_tls ftp :
  total_emits no_delete (_force_type_i_and_tls ftp).
Proof.
  pose proof infra_no_delete as Hφ.
  unfold _force_type_i_and_tls. apply total_emits_bind.
  - apply total_emits_try_any; [emits_go Hφ|apply total_emits_ret].
  - intros _. apply total_emits_try_any; [emits_go Hφ|apply total_emits_ret].
Qed.

Definition size_post (f : string) (r : res (option Z)) (t : list event) : Prop :=
  Forall no_delete t ∧
  ∀ n, r = Val (Some n) → ∃ h, t = [EvFtp h (Size f) (RSize (Some n))].

Lemma spec_ftp_size ftp f : spec (ftp_size ftp f) (size_post f).
Proof.
  intros w. unfold ftp_size, call. rewrite run_bind. destruct ftp as [h|]; simpl.
  - destruct (ftp_step h (Size f) (srv w)) as [rep s]. exists [EvFtp h (Size f) rep].
    split; [by destruct rep|]. split.
    + repeat constructor. unfold no_delete. simpl. tauto.
    + intros n Hn. destruct rep; simplify_eq/=. eauto.
  - exists []. rewrite app_nil_r. split; [done|]. split; [constructor|done].
Qed.

(** The size query of [_cwd_and_size]: it does not raise, deletes nothing,
    and a size it reports was the answer to a query on the destination. *)
Definition cwd_size_post (destino_abs : string) (r : res (option Z))
    (t : list event) : Prop :=
  Forall no_delete t ∧ (∃ o, r = Val o) ∧
  ∀ n, r = Val (Some n) → Exists (size_confirmed destino_abs n) t.

Lemma spec_size_by_name ftp destino_abs d f :
  rsplit1 "/" destino_abs = Some (d, f) →
  spec (try_except (ftp_size ftp f) (any_exc (mret None)))
    (cwd_size_post destino_abs).
Proof.
  intros Hsplit.
  eapply spec_conseq;
    [exact (spec_try_any_fwd _ _ _ (λ r t, r = Val None ∧ t = [])
              (spec_ftp_size ftp f) (spec_ret _ _ (conj eq_refl eq_refl)))|].
  simpl. intros r t [(a & -> & Hall & Hn)|(e & t1 & t2 & -> & [Hall _] & -> & ->)].
  - split; [done|]. split; [eauto|]. intros n [= ->].
    destruct (Hn n eq_refl) as [h ->]. constructor. exists h, f. eauto.
  - rewrite app_nil_r. split; [done|]. split; [eauto|]. intros n [=].
Qed.

Lemma spec_cwd_and_size ftp destino_abs :
  spec (_cwd_and_size ftp destino_abs) (cwd_size_post destino_abs).
Proof.
  pose proof infra_no_delete as Hφ.
  unfold _cwd_and_size.
  eapply (spec_bind _ _ (λ r t, (∃ a, r = Val a) ∧ Forall no_delete t)
            (λ _, cwd_size_post destino_abs)).
  { apply total_force_type_i_and_tls. }
  2:{ intros e t [[a [=]] _]. }
  2:{ intros a t1 r t2 [_ H1] (H2 & Hr & Hn). split; [by apply Forall_app|].
      split; [done|]. intros n Hrn. apply Exists_app. right. eauto. }
  intros _.
  eapply (spec_bind _ _
            (λ r t, Forall no_delete t ∧ (∃ a, r = Val a) ∧
                    ∀ n, r = Val (Some (Some n)) →
                         Exists (size_confirmed destino_abs n) t)
            (λ a r t, match a with
                      | Some sz => r = Val sz ∧ t = []
                      | None => cwd_size_post destino_abs r t
                      end)).
  - eapply spec_conseq;
      [eapply (spec_try_any_fwd _ _
                 (λ r t, Forall no_delete t ∧
                         ∀ n, r = Val (Some (Some n)) →
                              ∃ h, t = [EvFtp h (Size destino_abs) (RSize (Some n))])
                 (λ r t, r = Val None ∧ t = []))|].
    + eapply spec_conseq;
        [exact (spec_bind_fwd _ _ _ (λ a r t, r = Val (Some a) ∧ t = [])
                  (spec_ftp_size ftp destino_abs)
                  (λ a, spec_ret _ _ (conj eq_refl eq_refl)))|].
      simpl. intros r t [(e & -> & Hall & _)|(a & t1 & t2 & -> & [Hall Hn] & -> & ->)].
      * split; [done|]. intros n [=].
      * rewrite app_nil_r. split; [done|]. intros n [= ->]. eauto.
    + by apply spec_ret.
    + simpl. intros r t [(a & -> & Hall & Hn)|(e & t1 & t2 & -> & [Hall _] & -> & ->)].
      * split; [done|]. split; [eauto|]. intros n [= ->].
        destruct (Hn n eq_refl) as [h ->]. constructor. exists h, destino_abs. eauto.
      * rewrite app_nil_r. split; [done|]. split; [eauto|]. intros n [=].
  - intros [sz|]; [by apply spec_ret|].
    destruct (rsplit1 "/" destino_abs) as [[dirpath fname]|] eqn:Hsplit.
    + eapply spec_conseq;
        [eapply (spec_try_any_fwd _ _ (λ r t, Forall no_delete t ∧
                    ∀ n, r = Val (Some n) → Exists (size_confirmed destino_abs n) t)
                   (λ r t, r = Val None ∧ t = []))|].
      * destruct (negb (nonempty dirpath)).
        { apply spec_ret. split; [constructor|]. intros n [=]. }
        eapply (spec_bind _ _ (λ _ t, Forall no_delete t)
                  (λ _ r t, Forall no_delete t ∧
                     ∀ n, r = Val (Some n) → Exists (size_confirmed destino_abs n) t)).
        -- unfold ftp_pwd. emits_go Hφ.
        -- intros cur.
           eapply spec_conseq;
             [eapply (spec_try_finally_fwd _ _
                        (λ r t, Forall no_delete t ∧
                           ∀ n, r = Val (Some n) →
                                Exists (size_confirmed destino_abs n) t)
                        (λ _ t, Forall no_delete t))|].
           ++ eapply (spec_bind _ _ (λ _ t, Forall no_delete t)
                       (λ _, cwd_size_post destino_abs)).
              ** emits_go Hφ.
              ** intros _. by eapply spec_size_by_name.
              ** intros e t Hall. split; [done|]. intros n [=].
              ** intros a t1 r t2 Hall (Hall2 & _ & Hn).
                 split; [by apply Forall_app|]. intros n Hr.
                 apply Exists_app. right. eauto.
           ++ emits_go Hφ.
           ++ simpl. intros r t (t1 & t2 & rf & -> & [Hall Hn] & Hall2).
              split; [by apply Forall_app|]. intros n Hr.
              apply Exists_app. left. eauto.
        -- intros e t Hall. split; [done|]. intros n [=].
        -- intros a t1 r t2 Hall [Hall2 Hn]. split; [by apply Forall_app|].
           intros n Hr. apply Exists_app. right. eauto.
      * by apply spec_ret.
      * simpl. intros r t [(a & -> & Hall & Hn)|(e & t1 & t2 & -> & [Hall _] & -> & ->)].
        -- split; [done|]. split; [eauto|]. done.
        -- rewrite app_nil_r. split; [done|]. split; [eauto|]. intros n [=].
    + eapply spec_conseq;
        [exact (spec_try_any_fwd _ _ (λ r t, r = Exc ValueError ∧ t = [])
                  (λ r t, r = Val None ∧ t = [])
                  (spec_raise _ _ (conj eq_refl eq_refl))
                  (spec_ret _ _ (conj eq_refl eq_refl)))|].
      simpl. intros r t [(a & -> & [=] & _)|(e & t1 & t2 & -> & [_ ->] & -> & ->)].
      split; [constructor|]. split; [eauto|]. intros n [=].
  - intros e t (_ & [a [=]] & _).
  - intros [sz|] t1 r t2 (Hall & _ & Hn).
    + intros [-> ->]. rewrite app_nil_r. split; [done|]. split; [eauto|].
      intros n [= ->]. eauto.
    + intros (Hall2 & Hr & Hn2). split; [by apply Forall_app|]. split; [done|].
      intros n Hrn. apply Exists_app. right. eauto.
Qed.

Definition confere_post (destino_abs : string) (tam : Z) (r : res bool)
    (t : list event) : Prop :=
  Forall no_delete t ∧ (∃ b, r = Val b) ∧
  (r = Val true → Exists (size_confirmed destino_abs tam) t).

Lemma spec_remoto_confere_tamanho ftp destino_abs tam :
  spec (remoto_confere_tamanho ftp destino_abs tam) (confere_post destino_abs tam).
Proof.
  unfold remoto_confere_tamanho.
  eapply spec_conseq;
    [exact (spec_bind_fwd _ _ _
              (λ sz r t, r = Val (match sz with
                                  | Some n => (n =? tam)%Z
                                  | None => false
                                  end) ∧ t = [])
              (spec_cwd_and_size ftp destino_abs)
              (λ a, spec_ret _ _ (conj eq_refl eq_refl)))|].
  simpl. intros r t [(e & -> & _ & [o [=]] & _)
                    |(sz & t1 & t2 & -> & (Hall & _ & Hn) & -> & ->)].
  rewrite app_nil_r. split; [done|]. split; [eauto|].
  intros [= Heq]. destruct sz as [n|]; [|done].
  apply Z.eqb_eq in Heq as ->. eauto.
Qed.

(** The three ways the deletion of the origin can go. *)
Definition origem_abs (nome : string) : string :=
  rstrip "/" PASTA_REMOTA_ORIGEM +:+ "/" +:+ nome.

Definition not_exc (rep : reply) : Prop := ∀ e, rep ≠ RExc e.

(** The delete by absolute path was accepted, or it was refused with a
    permission error and the delete by name was issued. *)
Definition deleted_ok (nome : string) (t : list event) : Prop :=
  (∃ h rep, not_exc rep ∧ t = [EvFtp h (Delete (origem_abs nome)) rep]) ∨
  (∃ h rep2, t = [EvFtp h (Delete (origem_abs nome)) (RExc error_perm);
                  EvFtp h (Delete nome) rep2]).

Definition apagar_post (nome : string) (r : res unit) (t : list event) : Prop :=
  (r = Exc AttributeError ∧ t = []) ∨
  (r = Val tt ∧ deleted_ok nome t) ∨
  (∃ h e, e ≠ error_perm ∧ r = Exc e ∧
          t = [EvFtp h (Delete (origem_abs nome)) (RExc e)]).

Lemma spec_apagar_original ftp nome :
  spec (apagar_original ftp nome) (apagar_post nome).
Proof.
  intros w. unfold apagar_original, try_except, ftp_delete, call_, call.
  rewrite !run_bind. fold (origem_abs nome). destruct ftp as [h|]; simpl.
  2:{ exists []. rewrite app_nil_r. split; [done|]. by left. }
  destruct (ftp_step h (Delete (origem_abs nome)) (srv w)) as [rep s].
  destruct rep as [| | | | |e]; simpl;
    try (eexists [_]; split; [done|]; right; left; split; [done|];
         left; eexists _, _; split; [|done]; by intros e).
  destruct e; simpl;
    try (eexists [_]; split; [done|]; right; right;
         match goal with |- context [Exc ?e] => exists h, e end;
         split; [discriminate|split; reflexivity]).
  rewrite !run_bind. simpl.
  destruct (ftp_step h (Delete nome) s) as [rep2 s2].
  exists [EvFtp h (Delete (origem_abs nome)) (RExc error_perm);
          EvFtp h (Delete nome) rep2].
  split; [by destruct rep2; simpl; rewrite <-app_assoc|].
  right; left. split; [by destruct rep2|]. right. eauto.
Qed.

(** What the fallback adds to the trace: events [t1] that delete nothing,
    then, only when [t1] holds a confirming size query, the deletion [t2]. *)
Definition fallback_post (nome destino_abs : string) (tam : Z)
    (r : res (option nat * bool)) (t : list event) : Prop :=
  ∃ t1 t2, t = t1 ++ t2 ∧ Forall no_delete t1 ∧
    ((t2 = [] ∧ ∃ ftp', r = Val (ftp', false)) ∨
     (Exists (size_confirmed destino_abs tam) t1 ∧ deleted_ok nome t2 ∧
      ∃ ftp', r = Val (ftp', true)) ∨
     (Exists (size_confirmed destino_abs tam) t1 ∧
      ∃ h e th, e ≠ error_perm ∧
        t2 = EvFtp h (Delete (origem_abs nome)) (RExc e) :: th ∧
        Forall no_delete th ∧ ∃ ftp', r = Val (ftp', false))).

Lemma total_apos_falha ftp e : total_emits no_delete (apos_falha ftp e).
Proof.
  unfold apos_falha.
  destruct e; try apply total_emits_ret. apply total_force_type_i_and_tls.
Qed.

Lemma spec_fallback_body ftp1 nome caminho_local destino_abs tam :
  spec (_force_type_i_and_tls ftp1 ;;
        ftp_storbinary ftp1 destino_abs caminho_local ;;
        confere ← remoto_confere_tamanho ftp1 destino_abs tam;
        if confere : bool then apagar_original ftp1 nome ;; mret true
        else mret false)
    (λ r t, ∃ t1 t2, t = t1 ++ t2 ∧ Forall no_delete t1 ∧
       ((t2 = [] ∧ r ≠ Val true) ∨
        (Exists (size_confirmed destino_abs tam) t1 ∧ deleted_ok nome t2 ∧
         r = Val true) ∨
        (Exists (size_confirmed destino_abs tam) t1 ∧
         ∃ h e, e ≠ error_perm ∧ r = Exc e ∧
                t2 = [EvFtp h (Delete (origem_abs nome)) (RExc e)]))).
Proof.
  pose proof infra_no_delete as Hφ.
  set (Q := λ (r : res bool) (t : list event), _).
  assert (Hpre : ∀ ta r t, Forall no_delete ta → Q r t → Q r (ta ++ t)).
  { intros ta r t Hta (t1 & t2 & -> & Hall & Hcases).
    exists (ta ++ t1), t2. split; [by rewrite app_assoc|].
    split; [by apply Forall_app|].
    destruct Hcases as [?|[(Hex & ?)|(Hex & ?)]]; [by left|right; left|right; right];
      (split; [apply Exists_app; by right|done]). }
  assert (Hexc : ∀ e t, Forall no_delete t → Q (Exc e) t).
  { intros e t Hall. exists t, []. rewrite app_nil_r. split; [done|].
    split; [done|]. left. done. }
  eapply (spec_bind _ _ (λ r t, (∃ a, r = Val a) ∧ Forall no_delete t) (λ _, Q)).
  { apply total_force_type_i_and_tls. }
  2:{ intros e t [[a [=]] _]. }
  2:{ intros a t1 r t2 [_ H1] HQ. by apply Hpre. }
  intros _.
  eapply (spec_bind _ _ (λ _ t, Forall no_delete t) (λ _, Q)).
  { unfold ftp_storbinary. emits_go Hφ. }
  2:{ intros e t Hall. by apply Hexc. }
  2:{ intros a t1 r t2 H1 HQ. by apply Hpre. }
  intros _.
  eapply (spec_bind _ _ (confere_post destino_abs tam)
            (λ confere r t, if confere : bool
                            then (r = Val true ∧ deleted_ok nome t) ∨
                                 (r = Exc AttributeError ∧ t = []) ∨
                                 (∃ h e, e ≠ error_perm ∧ r = Exc e ∧
                                    t = [EvFtp h (Delete (origem_abs nome)) (RExc e)])
                            else r = Val false ∧ t = [])).
  { apply spec_remoto_confere_tamanho. }
  - intros [|]; [|by apply spec_ret].
    eapply spec_conseq;
      [exact (spec_bind_fwd _ _ _ (λ _ r t, r = Val true ∧ t = [])
                (spec_apagar_original ftp1 nome)
                (λ a, spec_ret _ _ (conj eq_refl eq_refl)))|].
    simpl. intros r t Hc.
    destruct Hc as [(e & -> & Hap)|(a & t1 & t2 & -> & Hap & -> & ->)].
    + destruct Hap as [[[= ->] ->]|[[[=] _]|(h & e' & Hne & [= ->] & ->)]].
      * right; left. done.
      * right; right. eauto.
    + rewrite app_nil_r.
      destruct Hap as [[[=] _]|[[_ Hok]|(h & e' & _ & [=] & _)]]. by left.
  - intros e t (Hall & _ & _). by apply Hexc.
  - intros [|] t1 r t2 (Hall & _ & Hconf).
    + intros [[-> Hok]|[[-> ->]|(h & e & Hne & -> & ->)]].
      * exists t1, t2. split; [done|]. split; [done|]. right; left. eauto.
      * rewrite app_nil_r. by apply Hexc.
      * exists t1, [EvFtp h (Delete (origem_abs nome)) (RExc e)].
        split; [done|]. split; [done|]. right; right. split; [eauto|]. eauto.
    + intros [-> ->]. exists t1, []. split; [done|]. split; [done|]. left. done.
Qed.

Lemma spec_apos_falha_ret {A} ftp e (v : A) :
  spec (apos_falha ftp e ;; mret v) (λ r t, r = Val v ∧ Forall no_delete t).
Proof.
  eapply spec_conseq;
    [exact (spec_bind_fwd _ _ _ (λ _ r t, r = Val v ∧ t = [])
              (total_apos_falha ftp e)
              (λ _, spec_ret _ _ (conj eq_refl eq_refl)))|].
  simpl. intros r t [(e' & -> & [[a [=]] _])|(a & t1 & t2 & -> & [_ Hall] & -> & ->)].
  by rewrite app_nil_r.
Qed.

(** The second [try] of the fallback with its [except] clauses: [move_ok]. *)
Definition move_ok_post (nome destino_abs : string) (tam : Z)
    (r : res bool) (t : list event) : Prop :=
  ∃ t1 t2, t = t1 ++ t2 ∧ Forall no_delete t1 ∧
    ((t2 = [] ∧ r = Val false) ∨
     (Exists (size_confirmed destino_abs tam) t1 ∧ deleted_ok nome t2 ∧
      r = Val true) ∨
     (Exists (size_confirmed destino_abs tam) t1 ∧
      ∃ h e th, e ≠ error_perm ∧
        t2 = EvFtp h (Delete (origem_abs nome)) (RExc e) :: th ∧
        Forall no_delete th ∧ r = Val false)).

Lemma spec_fallback_move_ok ftp1 nome caminho_local destino_abs tam :
  spec (try_except
          (_force_type_i_and_tls ftp1 ;;
           ftp_storbinary ftp1 destino_abs caminho_local ;;
           confere ← remoto_confere_tamanho ftp1 destino_abs tam;
           if confere : bool then apagar_original ftp1 nome ;; mret true
           else mret false)
          (λ e, Some (apos_falha ftp1 e ;; mret false)))
       (move_ok_post nome destino_abs tam).
Proof.
  eapply spec_try_except; [apply spec_fallback_body|..].
  - intros b t (t1 & t2 & -> & Hall & Hc). exists t1, t2.
    split; [done|]. split; [done|].
    destruct Hc as [[-> Hr]|[(Hex & Hok & Hr)|(_ & h & e & _ & [=] & _)]].
    + left. split; [done|]. by destruct b.
    + right; left. done.
  - intros e t _ [=].
  - intros e k [= <-].
    eapply spec_conseq; [apply spec_apos_falha_ret|]. simpl.
    intros r th [-> Hth] t (t1 & t2 & -> & Hall & Hc).
    destruct Hc as [[-> Hr]|[(Hex & Hok & [=])|(Hex & h & e' & Hne & [= <-] & ->)]].
    + rewrite app_nil_r. exists (t1 ++ th), []. rewrite app_nil_r.
      split; [done|]. split; [by apply Forall_app|]. by left.
    + exists t1, (EvFtp h (Delete (origem_abs nome)) (RExc e) :: th).
      split; [by rewrite <-app_assoc|]. split; [done|].
      right; right. split; [done|]. exists h, e, th. done.
Qed.

Lemma spec_etapa_fallback ftp nome caminho_local destino_abs tam :
  spec (etapa_fallback ftp nome caminho_local destino_abs tam)
       (fallback_post nome destino_abs tam).
Proof.
  pose proof infra_no_delete as Hφ.
  unfold etapa_fallback.
  eapply (spec_bind _ _ (λ r t, (∃ a, r = Val a) ∧ Forall no_delete t)
            (λ a r t, match a with
                      | None => r = Val (ftp, false) ∧ t = []
                      | Some _ => fallback_post nome destino_abs tam r t
                      end)).
  - eapply (spec_try_except _ _ (λ _ t, Forall no_delete t)).
    + apply emits_bind; [|intros; apply emits_ret].
      apply emits_try_any; [emits_go Hφ|].
      by apply emits_assegurar_diretorio_remoto.
    + intros a t Hall. eauto.
    + intros e t _ [=].
    + intros e k [= <-].
      eapply spec_conseq; [apply spec_apos_falha_ret|]. simpl.
      intros r t2 [-> Hall2] t1 Hall1. split; [eauto|]. by apply Forall_app.
  - intros [ftp1|]; [|by apply spec_ret].
    eapply (spec_bind _ _ (move_ok_post nome destino_abs tam)
              (λ move_ok r t, r = Val (ftp1, move_ok) ∧ t = [])).
    + apply spec_fallback_move_ok.
    + intros move_ok. by apply spec_ret.
    + intros e t (t1 & t2 & _ & _ & [[_ [=]]|[(_ & _ & [=])|(_ & h & e' & th & _ & _ & _ & [=])]]).
    + intros b t r t0 (t1 & t2 & -> & Hall & Hc) [-> ->]. rewrite app_nil_r.
      exists t1, t2. split; [done|]. split; [done|].
      destruct Hc as [[-> [= ->]]|[(Hex & Hok & [= ->])|(Hex & h & e & th & Hne & -> & Hth & [= ->])]].
      * left. eauto.
      * right; left. eauto.
      * right; right. split; [done|]. exists h, e, th. eauto.
  - intros e t [[a [=]] _].
  - intros [ftp1|] t1 r t2 [_ Hall1].
    + intros (ta & tb & -> & Hall & Hc). exists (t1 ++ ta), tb.
      split; [by rewrite app_assoc|]. split; [by apply Forall_app|].
      destruct Hc as [?|[(Hex & ?)|(Hex & ?)]]; [by left|right; left|right; right];
        (split; [apply Exists_app; by right|done]).
    + intros [-> ->]. exists t1, []. split; [done|]. split; [done|]. left. eauto.
Qed.

End Fallback.





Section FallbackTheorems.
Context `{Environment}.
Import Receive.




End FallbackTheorems.


(** ** receive.py: what is slept between attempts *)

Definition last_not_sleep (t : list event) : Prop :=
  ∀ d, last t ≠ Some (EvSleep d).

Definition n_attempts (t : list event) : nat :=
  length (List.filter is_attempt t).

Lemma last_not_sleep_nil : last_not_sleep [].
Proof. intros d [=]. Qed.

Lemma last_not_sleep_call t : Forall ev_call t → last_not_sleep t.
Proof.
  intros Hall d Hlast. apply last_Some in Hlast as [t' ->].
  apply Forall_app in Hall as [_ Hall]. by inversion Hall.
Qed.

Lemma last_not_sleep_app ta tb :
  last_not_sleep ta → last_not_sleep tb → last_not_sleep (ta ++ tb).
Proof.
  intros Ha Hb d. rewrite last_app. destruct (last tb) eqn:E.
  - intros [= ->]. by apply (Hb d).
  - apply Ha.
Qed.

Lemma n_attempts_app ta tb : n_attempts (ta ++ tb) = n_attempts ta + n_attempts tb.
Proof. unfold n_attempts. by rewrite List.filter_app, length_app. Qed.

Lemma n_attempts_real t : Forall ev_real t → n_attempts t = 0.
Proof.
  unfold n_attempts. induction 1 as [|e t He _ IH]; [done|].
  simpl. by destruct e.
Qed.

Section ReceiveBackoff.
Context `{Environment}.
Import Receive.

Lemma spec_then_sleep {A} (X : M unit) d (v : A) φ :
  total X → emits φ X →
  spec (X ;; sleep d ;; mret v) (λ r t, r = Val v ∧ ∃ t', t = t' ++ [EvSleep d]).
Proof.
  intros Htot Hem w. rewrite !run_bind.
  destruct (Hem w) as (t1 & Ht1 & _). specialize (Htot w).
  destruct (X w) as [[[]|e] w1]; simpl in *; [|by destruct Htot].
  exists (t1 ++ [EvSleep d]). rewrite Ht1, app_assoc. eauto.
Qed.

Definition never_continua {A} (r : res (saida A)) : Prop :=
  ∀ f c, r ≠ Val (Continua f c).

Lemma spec_reconectar (X : M unit) :
  emits ev_call X →
  spec (X ;;
        ftp' ← conectar_ftp;
        mret (match ftp' with
              | None => Retorna (ftp', false)
              | Some _ => Segue ftp'
              end))
       (λ r t, never_continua r ∧ Forall ev_call t).
Proof.
  intros HX. apply (spec_returns _ never_continua (λ _ t, Forall ev_call t)).
  - apply returns_bind; [done|]. intros _. apply returns_bind; [done|].
    intros [h|]; by apply returns_ret.
  - apply emits_bind; [done|]. intros _.
    apply emits_bind; [apply emits_conectar_ftp, ev_conn_call|].
    intros. apply emits_ret.
Qed.

Lemma spec_keepalive_defensivo ftp :
  spec (keepalive_defensivo ftp) (λ r t, never_continua r ∧ Forall ev_call t).
Proof.
  pose proof ev_conn_call as Hφ.
  unfold keepalive_defensivo.
  eapply spec_conseq;
    [eapply (spec_try_any_fwd _ _ (λ r t, never_continua r ∧ Forall ev_call t));
     [|apply spec_reconectar; emits_go Hφ]|].
  - apply (spec_returns _ never_continua (λ _ t, Forall ev_call t)).
    + apply returns_bind; [done|]. intros. by apply returns_ret.
    + emits_go Hφ.
  - simpl. intros r t [(a & -> & Hr & Hall)|(e & t1 & t2 & -> & [_ Hall1] & [Hr Hall2])].
    + done.
    + split; [done|by apply Forall_app].
Qed.

Lemma spec_reconexao_periodica ftp idx tent :
  spec (reconexao_periodica ftp idx tent)
       (λ r t, never_continua r ∧ Forall ev_call t).
Proof.
  pose proof ev_conn_call as Hφ.
  unfold reconexao_periodica. destruct (_ && _).
  - apply spec_reconectar. emits_go Hφ.
  - apply spec_ret. split; [done|constructor].
Qed.

Definition download_post (backoff : Z) (r : res (saida Z)) (t : list event) : Prop :=
  (∃ tam, r = Val (Segue tam) ∧ Forall ev_call t) ∨
  (∃ f c t', r = Val (Continua f c) ∧ t = t' ++ [EvSleep (inject_Z backoff)]).

Lemma spec_etapa_download ftp nome caminho_local backoff cache :
  spec (etapa_download ftp nome caminho_local backoff cache) (download_post backoff).
Proof.
  pose proof ev_conn_call as Hφ.
  unfold etapa_download.
  eapply (spec_try_except _ _
            (λ r t, (∀ v, r = Val v → ∃ tam, v = Segue tam) ∧ Forall ev_call t)).
  - apply (spec_returns _ (λ r, ∀ v, r = Val v → ∃ tam, v = Segue tam)
             (λ _ t, Forall ev_call t)).
    + apply returns_bind; [done|]. intros _. destruct cache as [tam|].
      * apply returns_ret. intros v [= <-]. eauto.
      * apply returns_bind; [done|]. intros _. apply returns_bind; [done|].
        intros tam. destruct (_ <=? _)%Z; [done|].
        apply returns_ret. intros v [= <-]. eauto.
    + apply emits_bind; [by apply emits_force_type_i_and_tls|]. intros _.
      destruct cache; emits_go ev_call_real; try (intros; done).
      all: try (apply emits_call; intros; done).
  - intros a t [Ha Hall]. destruct (Ha a eq_refl) as [tam ->]. left. eauto.
  - intros e t _ [=].
  - intros e k [= <-].
    assert (Hk : ∀ (X : M unit) c, total X → emits ev_real X →
              spec (X ;; sleep (inject_Z backoff) ;; mret (Continua ftp c))
                (λ r t2, ∀ t1 : list event,
                   (∀ v, Exc e = Val v → ∃ tam, v = @Segue Z tam) ∧ Forall ev_call t1 →
                   download_post backoff r (t1 ++ t2))).
    { intros X c Htot Hem. eapply spec_conseq; [by eapply spec_then_sleep|].
      simpl. intros r t2 [-> [t' ->]] t1 _. right.
      exists ftp, c, (t1 ++ t'). by rewrite app_assoc. }
    destruct e; apply Hk;
      try (apply total_try_any, total_ret);
      try (emits_go ev_call_real; intros; done).
    intros w. by destruct (total_force_type_i_and_tls ftp w) as (t & _ & Hr & _).
Qed.

(** What one iteration of the retry loop adds to the trace: it ends in the
    backoff sleep when it goes to the next iteration, and not in a sleep
    when it returns or raises. *)
Definition attempt_post {A} (backoff : Z) (r : res (saida A)) (t : list event)
    : Prop :=
  (∃ f c t', r = Val (Continua f c) ∧ t = t' ++ [EvSleep (inject_Z backoff)]) ∨
  (never_continua r ∧ last_not_sleep t).

Lemma attempt_post_prefix {A} backoff (r : res (saida A)) t1 t2 :
  Forall ev_call t1 → attempt_post backoff r t2 → attempt_post backoff r (t1 ++ t2).
Proof.
  intros H1 [(f & c & t' & -> & ->)|[Hr Hl]].
  - left. exists f, c, (t1 ++ t'). by rewrite app_assoc.
  - right. split; [done|]. by apply last_not_sleep_app; [apply last_not_sleep_call|].
Qed.

Lemma spec_seguir {A B} (m : M (saida A)) (k : A → M (saida B)) backoff :
  spec m (λ r t, (never_continua r ∧ Forall ev_call t) ∨
                 (∃ f c t', r = Val (Continua f c) ∧
                            t = t' ++ [EvSleep (inject_Z backoff)])) →
  (∀ a, spec (k a) (attempt_post backoff)) →
  spec (seguir m k) (attempt_post backoff).
Proof.
  intros Hm Hk. unfold seguir.
  eapply (spec_bind _ _ _
            (λ a r t, match a with
                      | Retorna x => r = Val (Retorna x) ∧ t = []
                      | Continua f c => r = Val (Continua f c) ∧ t = []
                      | Segue a => attempt_post backoff r t
                      end) _ Hm).
  - intros [x|f c|a]; [by apply spec_ret..|apply Hk].
  - intros e t [[_ Hall]|(f & c & t' & [=] & _)].
    right. split; [done|by apply last_not_sleep_call].
  - intros [x|f c|a] t1 r t2 [[Hr Hall]|(f' & c' & t' & Heq & ->)]; simplify_eq.
    + intros [-> ->]. rewrite app_nil_r. right.
      split; [done|by apply last_not_sleep_call].
    + intros _. by destruct (Hr f c).
    + intros [-> ->]. rewrite app_nil_r. left. eauto.
    + intros Hp. by apply attempt_post_prefix.
Qed.

Lemma spec_fallback_last ftp nome caminho_local destino_abs tam :
  spec (etapa_fallback ftp nome caminho_local destino_abs tam)
       (λ r t, (∃ ftp', r = Val (ftp', false)) ∨
               ((∃ ftp', r = Val (ftp', true)) ∧ last_not_sleep t)).
Proof.
  eapply spec_conseq; [apply spec_etapa_fallback|]. simpl.
  intros r t (t1 & t2 & -> & Hall & [[-> Hr]|[(_ & Hok & Hr)|(_ & h & e & th & _ & _ & _ & Hr)]]).
  - by left.
  - right. split; [done|]. intros d. rewrite last_app.
    destruct Hok as [(h & rep & _ & ->)|(h & rep & ->)]; simpl; done.
  - by left.
Qed.

Lemma spec_tentativa_sleep ftp nome caminho_local idx tent backoff cache :
  spec (tentativa ftp nome caminho_local idx tent backoff cache)
       (attempt_post backoff).
Proof.
  unfold tentativa.
  apply spec_seguir.
  { eapply spec_conseq; [apply spec_keepalive_defensivo|]. simpl. tauto. }
  intros ftp1. apply spec_seguir.
  { eapply spec_conseq; [apply spec_reconexao_periodica|]. simpl. tauto. }
  intros ftp2. apply spec_seguir.
  { eapply spec_conseq; [apply spec_etapa_download|]. simpl.
    intros r t [(tam & -> & Hall)|Hc]; [left|by right]. split; [done|done]. }
  intros tam.
  eapply (spec_bind _ _ (λ _ t, Forall ev_call t) (λ _, attempt_post backoff)).
  { apply emits_etapa_rename. done. }
  2:{ intros e t Hall. right. split; [done|by apply last_not_sleep_call]. }
  2:{ intros a t1 r t2 Hall Hp. by apply attempt_post_prefix. }
  intros move_ok.
  eapply (spec_bind _ _
            (λ r t, (∃ ftp', r = Val (ftp', false)) ∨
                    ((∃ ftp', r = Val (ftp', true)) ∧ last_not_sleep t))
            (λ a r t, if a.2 : bool then r = Val (Retorna (a.1, true)) ∧ t = []
                      else r = Val (Continua a.1 (Some tam)) ∧
                           t = [EvSleep (inject_Z backoff)])).
  - destruct move_ok; [|apply spec_fallback_last].
    apply spec_ret. right. split; [eauto|apply last_not_sleep_nil].
  - intros [ftp3 [|]]; simpl; [by apply spec_ret|].
    intros w. exists [EvSleep (inject_Z backoff)]. done.
  - intros e t [[ftp' [=]]|[[ftp' [=]] _]].
  - intros [ftp3 [|]] t1 r t2 Hc; simpl.
    + intros [-> ->]. rewrite app_nil_r. right. split; [done|].
      destruct Hc as [[ftp' [=]]|[_ Hl]]. done.
    + intros [-> ->]. left. eauto.
Qed.

Definition tentativa_post (backoff : Z) (r : res (saida Empty_set))
    (t : list event) : Prop :=
  Forall ev_real t ∧ attempt_post backoff r t.

Lemma spec_tentativa ftp nome caminho_local idx tent backoff cache :
  spec (tentativa ftp nome caminho_local idx tent backoff cache)
       (tentativa_post backoff).
Proof.
  apply (spec_and _ (λ _ t, Forall ev_real t) (attempt_post backoff)).
  - by apply emits_tentativa.
  - apply spec_tentativa_sleep.
Qed.

End ReceiveBackoff.

(** The claim of the design document about delays, as stated: the delay
    slept before attempt [t+1] is the initial delay times [2^(t-1)]; with
    [t = k+1], attempt [k+2] comes right after a sleep of [inicial * 2^k]. *)
Definition backoff_doubles (nome : string) (inicial : Q) (t : list event) : Prop :=
  ∀ t1 k t2, t = t1 ++ EvAttempt nome (S (S k)) :: t2 →
    ∃ t1' d, t1 = t1' ++ [EvSleep d] ∧ (d == inicial * inject_Z (2 ^ Z.of_nat k))%Q.

(** The delay is the same before every attempt after the first. *)
Definition constant_delay (nome : string) (d : Q) (t : list event) : Prop :=
  ∀ t1 k t2, t = t1 ++ EvAttempt nome (S (S k)) :: t2 →
    ∃ t1', t1 = t1' ++ [EvSleep d].

Lemma list_split_mid {A} (ta tb a b : list A) e :
  ta ++ tb = a ++ e :: b →
  (∃ l, ta = a ++ e :: l ∧ b = l ++ tb) ∨
  (∃ l, a = ta ++ l ∧ tb = l ++ e :: b).
Proof.
  intros Heq. apply app_eq_app in Heq as [l [[-> Heq]|[-> Heq]]].
  - destruct l as [|x l]; simplify_eq/=.
    + right. exists []. by rewrite !app_nil_r.
    + left. eauto.
  - right. eauto.
Qed.

Section ReceiveLoop.
Context `{Environment}.
Import Receive.

(** The retry loop with [n] iterations left, at attempt [tent] with delay
    [b]: each attempt is announced once, in order, a later attempt [k] comes
    right after a sleep of [b * 2^(k - tent - 1)]; there are at most [n]
    attempts; and the trace ends in a sleep only when all [n] were made,
    and then the result is [(ftp, False)]. *)
Definition loop_post (nome : string) (tent : nat) (b : Z) (n : nat)
    (r : res (option nat * bool)) (t : list event) : Prop :=
  (∀ t1 nm k t2, t = t1 ++ EvAttempt nm k :: t2 →
     nm = nome ∧
     ((k = tent ∧ t1 = []) ∨
      (tent < k ∧ ∃ t1', t1 = t1' ++
         [EvSleep (inject_Z (b * 2 ^ Z.of_nat (k - tent - 1)))]))) ∧
  n_attempts t ≤ n ∧
  (t = [] → n = 0 ∧ ∃ ftp', r = Val (ftp', false)) ∧
  (∀ d, last t = Some (EvSleep d) →
     n_attempts t = n ∧ ∃ ftp', r = Val (ftp', false)).

Lemma real_no_attempt (t a b : list event) nm k :
  Forall ev_real t → t ≠ a ++ EvAttempt nm k :: b.
Proof.
  intros Hall ->. apply Forall_app in Hall as [_ Hall]. by inversion Hall.
Qed.

Lemma spec_tentativas_loop n ftp nome caminho_local idx tent b cache :
  spec (tentativas_loop n ftp nome caminho_local idx tent b cache)
       (loop_post nome tent b n).
Proof.
  revert ftp tent b cache. induction n as [|n IH]; intros ftp tent b cache; simpl.
  { apply spec_ret. split_and!.
    - intros t1 nm k t2 Heq. by destruct t1.
    - done.
    - eauto.
    - intros d [=]. }
  eapply (spec_bind _ _ (λ r t, r = Val tt ∧ t = [EvAttempt nome tent])
            (λ _ r t, ∃ tb tr, t = tb ++ tr ∧ Forall ev_real tb ∧
               ((tr = [] ∧ last_not_sleep tb) ∨
                (∃ t', tb = t' ++ [EvSleep (inject_Z b)] ∧
                       loop_post nome (S tent) (b * 2) n r tr)))).
  - intros w. exists [EvAttempt nome tent]. done.
  - intros _.
    eapply (spec_bind _ _ (tentativa_post b)
              (λ a r t, match a with
                        | Retorna x => r = Val x ∧ t = []
                        | Continua f c => loop_post nome (S tent) (b * 2) n r t
                        | Segue a => False
                        end)).
    + apply spec_tentativa.
    + intros [x|f c|[]]; [by apply spec_ret|apply IH].
    + intros e t [Hall [(f & c & t' & [=] & _)|[_ Hl]]].
      exists t, []. rewrite app_nil_r. eauto.
    + intros [x|f c|[]] t1 r t2 [Hall Hp].
      * intros [-> ->]. exists t1, []. split; [done|]. split; [done|]. left.
        split; [done|]. destruct Hp as [(f & c & t' & [=] & _)|[_ Hl]]. done.
      * intros Hloop. exists t1, t2. split; [done|]. split; [done|]. right.
        destruct Hp as [(f' & c' & t' & _ & ->)|[Hr _]]; [eauto|].
        by destruct (Hr f c).
  - intros e t [[=] _].
  - intros [] t0 r t [_ ->] (tb & tr & -> & Hall & Hc). split_and!.
    + intros t1 nm k t2 Heq.
      destruct t1 as [|x t1]; [simplify_eq/=; eauto|]. simplify_eq/=.
      apply list_split_mid in H1 as [(l & -> & _)|(l & -> & Htr)].
      { by destruct (real_no_attempt _ _ _ _ _ Hall eq_refl). }
      destruct Hc as [[-> _]|(t' & -> & HA & _)]; [by destruct l|].
      destruct (HA _ _ _ _ Htr) as [-> [[-> ->]|(Hlt & t1' & ->)]].
      * split; [done|]. right. split; [lia|].
        exists (EvAttempt nome tent :: t'). rewrite app_nil_r.
        replace (S tent - tent - 1) with 0 by lia. simpl.
        by rewrite Z.mul_1_r.
      * split; [done|]. right. split; [lia|].
        exists (EvAttempt nome tent :: (t' ++ [EvSleep (inject_Z b)]) ++ t1').
        replace (b * 2 ^ Z.of_nat (k - tent - 1))%Z
          with (b * 2 * 2 ^ Z.of_nat (k - S tent - 1))%Z;
          [simpl; f_equal; by rewrite <-?app_assoc|].
        replace (k - tent - 1) with (S (k - S tent - 1)) by lia.
        rewrite Nat2Z.inj_succ, Z.pow_succ_r by lia. ring.
    + change (EvAttempt nome tent :: tb ++ tr)
        with ([EvAttempt nome tent] ++ tb ++ tr).
      rewrite !n_attempts_app, (n_attempts_real tb) by done.
      change (n_attempts [EvAttempt nome tent]) with 1.
      destruct Hc as [[-> _]|(t' & _ & _ & Hle & _)]; [unfold n_attempts; simpl; lia|]. lia.
    + intros [=].
    + intros d Hlast.
      change (EvAttempt nome tent :: tb ++ tr)
        with ([EvAttempt nome tent] ++ tb ++ tr) in *.
      rewrite !n_attempts_app, (n_attempts_real tb) by done.
      change (n_attempts [EvAttempt nome tent]) with 1.
      destruct Hc as [[-> Hl]|(t' & -> & _ & _ & Hnil & Hsl)].
      * rewrite app_nil_r in Hlast. exfalso.
        apply (last_not_sleep_app [EvAttempt nome tent] tb) in Hlast; [done| |done].
        intros d' [=].
      * destruct (decide (tr = [])) as [->|Hne].
        -- destruct (Hnil eq_refl) as [-> Hr]. done.
        -- rewrite !last_app in Hlast.
           destruct (last tr) as [x|] eqn:Hx;
             [|by apply last_is_Some in Hne; rewrite Hx in Hne; destruct Hne].
           destruct (Hsl d) as [Hn Hr]; [done|]. split; [lia|done].
Qed.

End ReceiveLoop.

(** ** send.py: events and results of the per-file upload *)

Section SendEmits.
Context `{Environment}.
Import Send.

Variable φ : event → Prop.
Hypothesis Hφ : ∀ e, ev_conn e → φ e.
Hypothesis Hlist : ∀ h c m r, φ (EvFtp h (Retrlines c m) r).

Lemma emits_verificar_arquivo_remoto ftp nome :
  emits φ (verificar_arquivo_remoto ftp nome).
Proof using Hφ Hlist. unfold verificar_arquivo_remoto. emits_go Hφ. Qed.

Lemma emits_criar_partes ftp atual partes : emits φ (criar_partes ftp atual partes).
Proof using Hφ.
  revert atual. induction partes as [|p partes IH]; intros atual; simpl.
  - apply emits_ret.
  - apply emits_bind; [emits_go Hφ|]. intros. apply IH.
Qed.

Lemma emits_send_conectar_ftp : emits φ conectar_ftp.
Proof using Hφ.
  unfold conectar_ftp. apply emits_try_any; [|apply emits_ret].
  apply emits_bind; [emits_go Hφ|]. intros ftp.
  do 7 (apply emits_bind; [emits_go Hφ|]; intros).
  apply emits_bind; [|intros; apply emits_ret].
  apply emits_try_perm; [emits_go Hφ|].
  apply emits_bind; [apply emits_criar_partes|]. intros. emits_go Hφ.
Qed.

Lemma emits_send_garantir_conexao ftp : emits φ (garantir_conexao ftp).
Proof using Hφ.
  unfold garantir_conexao. destruct ftp; [|apply emits_send_conectar_ftp].
  apply emits_try_any; [emits_go Hφ|].
  apply emits_bind; [emits_go Hφ|]. intros. apply emits_send_conectar_ftp.
Qed.

Lemma emits_send_configurar_transferencia ftp p b :
  emits φ (configurar_transferencia ftp p b).
Proof using Hφ. unfold configurar_transferencia. emits_go Hφ. Qed.

Lemma emits_falha_envio ftp i e : emits φ (falha_envio ftp i e).
Proof using Hφ. unfold falha_envio. emits_go Hφ. Qed.

Variable nome_remoto : string.
Hypothesis Hstor : ∀ h f d m r, φ (EvFtp h (Stor f d m) r).
Hypothesis Hdel : ∀ h r, φ (EvFtp h (Delete nome_remoto) r).
Hypothesis Hsleep : ∀ d, φ (EvSleep d).

Lemma emits_tentativa_envio ftp caminho tam tentativa p b i :
  emits φ (tentativa_envio ftp caminho nome_remoto tam tentativa p b i).
Proof using Hφ Hlist Hstor Hdel.
  unfold tentativa_envio. apply emits_try_except.
  - apply emits_bind; [apply emits_send_configurar_transferencia|]. intros.
    apply emits_bind; [emits_go Hφ|]. intros.
    apply emits_bind; [apply emits_verificar_arquivo_remoto|]. intros tr.
    case_bool_decide; [apply emits_ret|].
    apply emits_try_except; [emits_go Hφ|].
    intros e k Hk. destruct e; simplify_eq; first [apply emits_ret|apply emits_falha_envio].
  - intros e k [= <-]. apply emits_falha_envio.
Qed.

Hypothesis Hatt : ∀ k, φ (EvAttempt nome_remoto k).

Lemma emits_enviar_loop n tentativa ftp caminho tam i :
  emits φ (enviar_loop n tentativa ftp caminho nome_remoto tam i).
Proof using Hφ Hlist Hstor Hdel Hsleep Hatt.
  revert tentativa ftp i. induction n as [|n IH]; intros tentativa ftp i;
    cbn [enviar_loop].
  - apply emits_ret.
  - destruct (modo_da_tentativa tentativa) as [p b].
    apply emits_bind; [emits_go Hφ|]. intros _.
    apply emits_bind; [apply emits_send_garantir_conexao|]. intros [h|]; [|apply emits_ret].
    apply emits_bind; [apply emits_tentativa_envio|].
    intros [[x|] [ftp' i']]; [apply emits_ret|].
    apply emits_bind; [emits_go Hφ|]. intros. apply IH.
Qed.

Lemma emits_enviar_para_ftp ftp caminho max :
  emits φ (enviar_para_ftp ftp caminho nome_remoto max).
Proof using Hφ Hlist Hstor Hdel Hsleep Hatt.
  unfold enviar_para_ftp.
  apply emits_bind; [emits_go Hφ|]. intros [|]; simpl; [|apply emits_ret].
  apply emits_bind; [emits_go Hφ|]. intros. apply emits_enviar_loop.
Qed.

End SendEmits.

(** An error detail: one written by a failed attempt. *)
Definition erro_detalhe (d : Send.detalhe_t) : Prop :=
  match d with
  | Send.DetErro _ | Send.DetDivergente _ | Send.DetConexaoIndisponivel => True
  | _ => False
  end.

Section SendReturns.
Context `{Environment}.
Import Send.

Lemma total_send_conectar_ftp : total conectar_ftp.
Proof. apply total_try_any, total_ret. Qed.

Lemma total_send_garantir_conexao ftp : total (garantir_conexao ftp).
Proof.
  unfold garantir_conexao. destruct ftp; [|apply total_send_conectar_ftp].
  apply total_try_any, total_bind; [apply total_try_any, total_ret|].
  intros. apply total_send_conectar_ftp.
Qed.

(** What one upload attempt returns: from inside the loop with a success
    record, or to the loop with the record of a failure. *)
Definition tentativa_envio_ret (tam : Z) (tentativa : nat) (modo_passivo : bool)
    (i : info) (x : option (option nat * info) * (option nat * info)) : Prop :=
  match x with
  | (Some (_, i'), _) =>
      status i' = Sucesso ∧ detalhe i' = DetTransferido tentativa modo_passivo ∧
      tamanho_remoto i' = Some tam ∧ tentativas i' = tentativas i ∧
      arquivo i' = arquivo i
  | (None, (_, i')) =>
      status i' = status i ∧ erro_detalhe (detalhe i') ∧
      tentativas i' = tentativas i ∧ arquivo i' = arquivo i
  end.

Lemma returns_falha_envio tam tentativa b ftp i i0 e :
  status i = status i0 → tentativas i = tentativas i0 →
  arquivo i = arquivo i0 →
  returns (λ r, ∃ x, r = Val x ∧ tentativa_envio_ret tam tentativa b i0 x)
          (falha_envio ftp i e).
Proof.
  intros Hs Ht Ha. unfold falha_envio.
  apply returns_bind_total; [apply total_try_any, total_ret|]. intros _.
  apply returns_ret. eexists. split; [done|]. simpl. done.
Qed.

Lemma returns_tentativa_envio ftp caminho nome tam tentativa p b i :
  returns (λ r, ∃ x, r = Val x ∧ tentativa_envio_ret tam tentativa b i x)
          (tentativa_envio ftp caminho nome tam tentativa p b i).
Proof.
  unfold tentativa_envio.
  set (P := λ r : res (option (option nat * info) * (option nat * info)),
              ∃ x, r = Val x ∧ tentativa_envio_ret tam tentativa b i x).
  apply (returns_try_except (λ r, ∀ x, r = Val x → P r)).
  - apply returns_bind; [done|]. intros _.
    apply returns_bind; [done|]. intros _.
    apply returns_bind; [done|]. intros tr.
    case_bool_decide as Htr.
    + apply returns_ret. intros _ _. eexists. split; [done|]. simpl. by subst.
    + apply (returns_try_except (λ r, ∀ x, r = Val x → P r)).
      * apply returns_bind; [done|]. intros _. apply returns_ret.
        intros _ _. eexists. split; [done|]. simpl. done.
      * eauto.
      * intros e _. destruct e;
          first [ apply returns_ret; intros _ _; eexists; (split; [done|]); by simpl
                | eapply returns_mono; [by apply (returns_falha_envio tam tentativa b _ _ i)|];
                  by intros r Hr _ _ ].
  - eauto.
  - intros e _. by apply returns_falha_envio.
Qed.

(** What the loop of [enviar_para_ftp] returns. *)
Definition envio_ret (n : nat) (i : info) (r : res (option nat * info)) : Prop :=
  ∃ ftp' i', r = Val (ftp', i') ∧ arquivo i' = arquivo i ∧
    (status i' = Sucesso ∨
     (status i' = Falha ∧
      (erro_detalhe (detalhe i') ∨ (n = 0 ∧ detalhe i' = detalhe i)))).

Lemma returns_enviar_loop n tentativa ftp caminho nome tam i :
  status i ≠ Sucesso →
  returns (envio_ret n i) (enviar_loop n tentativa ftp caminho nome tam i).
Proof.
  revert tentativa ftp i. induction n as [|n IH]; intros tentativa ftp i Hi;
    cbn [enviar_loop].
  - apply returns_ret. eexists _, _. split; [done|].
    split; [by destruct (status i)|]. right.
    destruct (status i); simpl; eauto. done.
  - destruct (modo_da_tentativa tentativa) as [p b].
    apply returns_bind_total; [apply total_log|]. intros _.
    apply returns_bind_total; [apply total_send_garantir_conexao|].
    intros [h|];
      [|apply returns_ret; eexists _, _; split; [done|]; split; [done|];
        right; simpl; eauto].
    intros w. rewrite run_bind.
    pose proof (returns_tentativa_envio (Some h) caminho nome tam tentativa p b
                  (com_tentativas tentativa i) w) as (x & Hx & Hret).
    destruct (tentativa_envio _ _ _ _ _ _ _ _ w) as [r w1]. simpl in Hx. subst r.
    destruct x as [[[f i']|] [f2 i2]]; simpl in Hret.
    + simpl. eexists _, _. split; [done|]. split; [tauto|]. left. tauto.
    + destruct Hret as (Hs & He & _ & Ha). rewrite run_bind. simpl.
      assert (Hi2 : status i2 ≠ Sucesso) by (by rewrite Hs).
      destruct (IH (S tentativa) f2 i2 Hi2
                  (World (sleep_step (1 # 2) (srv w1)) (disk w1) (clients w1)
                     (trace w1 ++ [EvSleep (1 # 2)])))
        as (ftp' & i' & Hr & Ha' & Hc).
      exists ftp', i'. split; [done|]. split; [by rewrite Ha', Ha|].
      destruct Hc as [?|[? [?|[_ Hd]]]]; [by left|right..]; split; try done.
      * by left.
      * left. by rewrite Hd.
Qed.

Lemma enviar_para_ftp_run ftp caminho nome max (w : world) :
  enviar_para_ftp ftp caminho nome max w =
  match disk w !! caminho with
  | None => (Val (ftp, Info nome caminho 0 None 0 Ignorado DetNaoEncontrado), w)
  | Some d =>
      enviar_loop
        (Z.to_nat (if (max <=? 0)%Z then Z.of_nat (length MODOS_TRANSFERENCIA)
                   else max))
        1 ftp caminho nome (Z.of_nat (String.length d))
        (Info nome caminho (Z.of_nat (String.length d)) None 0 Pendente DetVazio) w
  end.
Proof.
  unfold enviar_para_ftp, path_exists, getsize, read_file. rewrite !run_bind.
  destruct (disk w !! caminho) as [d|] eqn:Hd; simpl.
  - rewrite !run_bind, Hd. done.
  - done.
Qed.

(** [enviar_para_ftp] returns a record whose status is "ignorado" (no local
    file), "sucesso", or "falha" with the detail of an error. *)
Definition enviar_ret (nome : string) (r : res (option nat * info)) : Prop :=
  ∃ ftp' i', r = Val (ftp', i') ∧ arquivo i' = nome ∧
    (status i' = Ignorado ∨ status i' = Sucesso ∨
     (status i' = Falha ∧ erro_detalhe (detalhe i'))).

Lemma returns_enviar_para_ftp ftp caminho nome max :
  returns (enviar_ret nome) (enviar_para_ftp ftp caminho nome max).
Proof.
  intros w. rewrite enviar_para_ftp_run. destruct (disk w !! caminho) as [d|].
  - set (n := Z.to_nat _).
    assert (n ≠ 0) by (subst n; destruct (Z.leb_spec max 0); simpl; lia).
    destruct (returns_enviar_loop n 1 ftp caminho nome (Z.of_nat (String.length d))
                (Info nome caminho (Z.of_nat (String.length d)) None 0 Pendente DetVazio)
                ltac:(done) w) as (ftp' & i' & Hr & Ha & Hc).
    exists ftp', i'. split; [done|]. split; [done|].
    destruct Hc as [?|[? [?|[? _]]]]; [tauto|tauto|done].
  - eexists _, _. split; [done|]. split; [done|]. by left.
Qed.

End SendReturns.

Section SendLoop.
Context `{Environment}.
Import Send.

(** The loop of [enviar_para_ftp] at attempt [tentativa]: each attempt is
    announced once, in order, and a later one comes right after a sleep of
    half a second. *)
Definition send_loop_post (nome : string) (tentativa : nat)
    (t : list event) : Prop :=
  ∀ t1 nm k t2, t = t1 ++ EvAttempt nm k :: t2 →
    nm = nome ∧
    ((k = tentativa ∧ t1 = []) ∨
     (tentativa < k ∧ ∃ t1', t1 = t1' ++ [EvSleep (1 # 2)])).

Lemma spec_enviar_loop n tentativa ftp caminho nome tam i :
  spec (enviar_loop n tentativa ftp caminho nome tam i)
       (λ _ t, send_loop_post nome tentativa t).
Proof.
  assert (Hreal : ∀ e, ev_conn e → ev_real e) by (by intros []).
  revert tentativa ftp i. induction n as [|n IH]; intros tentativa ftp i;
    cbn [enviar_loop].
  { apply spec_ret. intros t1 nm k t2 Heq. by destruct t1. }
  destruct (modo_da_tentativa tentativa) as [p b].
  eapply (spec_bind _ _ (λ r t, r = Val tt ∧ t = [EvAttempt nome tentativa])
            (λ _ r t, ∃ tb tr, t = tb ++ tr ∧ Forall ev_real tb ∧
               (tr = [] ∨
                (∃ t', tb = t' ++ [EvSleep (1 # 2)] ∧
                       send_loop_post nome (S tentativa) tr)))).
  - intros w. exists [EvAttempt nome tentativa]. done.
  - intros _.
    eapply (spec_bind _ _ (λ _ t, Forall ev_real t)
              (λ _ r t, ∃ tb tr, t = tb ++ tr ∧ Forall ev_real tb ∧
                 (tr = [] ∨
                  (∃ t', tb = t' ++ [EvSleep (1 # 2)] ∧
                         send_loop_post nome (S tentativa) tr)))).
    + apply emits_send_garantir_conexao. done.
    + intros [h|]; [|apply spec_ret; exists [], []; eauto].
      eapply (spec_bind _ _ (λ _ t, Forall ev_real t)
                (λ a r t, match a with
                          | (Some _, _) => t = []
                          | (None, _) => ∃ tr, t = [EvSleep (1 # 2)] ++ tr ∧
                                               send_loop_post nome (S tentativa) tr
                          end)).
      * apply emits_tentativa_envio; intros; first [by apply Hreal | done].
      * intros [[x|] [f2 i2]]; [by apply spec_ret|].
        eapply (spec_bind _ _ (λ r t, r = Val tt ∧ t = [EvSleep (1 # 2)])
                  (λ _ _ t, send_loop_post nome (S tentativa) t)).
        -- intros w. exists [EvSleep (1 # 2)]. done.
        -- intros _. apply IH.
        -- intros e t [[=] _].
        -- intros [] t1 r t2 [_ ->] Hp. eauto.
      * intros e t Hall. exists t, []. rewrite app_nil_r. eauto.
      * intros [[x|] [f2 i2]] t1 r t2 Hall.
        -- intros ->. exists t1, []. eauto.
        -- intros (tr & -> & Hp). exists (t1 ++ [EvSleep (1 # 2)]), tr.
           rewrite <-app_assoc. split; [done|].
           split; [apply Forall_app; split; [done|by repeat constructor]|]. eauto.
    + intros e t Hall. exists t, []. rewrite app_nil_r. eauto.
    + intros a t1 r t2 Hall (tb & tr & -> & Hall2 & Hc).
      exists (t1 ++ tb), tr. rewrite app_assoc. split; [done|].
      split; [by apply Forall_app|].
      destruct Hc as [->|(t' & -> & Hp)]; [by left|right].
      exists (t1 ++ t'). by rewrite app_assoc.
  - intros e t [[=] _].
  - intros [] t0 r t [_ ->] (tb & tr & -> & Hall & Hc).
    intros t1 nm k t2 Heq.
    destruct t1 as [|x t1]; [simplify_eq/=; eauto|]. simplify_eq/=.
    apply list_split_mid in H1 as [(l & -> & _)|(l & -> & Htr)].
    { by destruct (real_no_attempt _ _ _ _ _ Hall eq_refl). }
    destruct Hc as [->|(t' & -> & HA)]; [by destruct l|].
    destruct (HA _ _ _ _ Htr) as [-> [[-> ->]|(Hlt & t1' & ->)]].
    + split; [done|]. right. split; [lia|].
      exists (EvAttempt nome tentativa :: t'). by rewrite app_nil_r.
    + split; [done|]. right. split; [lia|].
      exists (EvAttempt nome tentativa :: (t' ++ [EvSleep (1 # 2)]) ++ t1').
      simpl. f_equal. by rewrite <-?app_assoc.
Qed.

End SendLoop.

(** ** The retry loops: delays and outcome on exhaustion *)

(** A server on which every STOR is refused with a transient error. *)
Definition env_stor_falha : Environment :=
  Server.with_faults
    (λ _ _ c, match c with
              | Stor _ _ _ => Some (RExc error_temp)
              | _ => None
              end)
    Server.env.

Definition run_stor_falha : res (option nat * Send.info) * @world env_stor_falha :=
  Send.enviar_para_ftp None "C:\wts\a.xml" "a.xml" 3
    (@World env_stor_falha (Server.empty_tree, 0)
       {[ "C:\wts\a.xml" := "hello" ]} ∅ []).

Lemma backoff_doubles_loop `{Environment} nome n r t :
  loop_post nome 1 Receive.BACKOFF_INICIAL_S n r t →
  backoff_doubles nome (inject_Z Receive.BACKOFF_INICIAL_S) t.
Proof.
  intros (Hpos & _) t1 k t2 Heq.
  destruct (Hpos _ _ _ _ Heq) as [_ [[[=] _]|(_ & t1' & ->)]].
  eexists _, _. split; [done|].
  replace (S (S k) - 1 - 1) with k by lia.
  by rewrite inject_Z_mult.
Qed.

Lemma constant_delay_loop nome t :
  send_loop_post nome 1 t → constant_delay nome (1 # 2) t.
Proof.
  intros Hpos t1 k t2 Heq.
  destruct (Hpos _ _ _ _ Heq) as [_ [[[=] _]|(_ & t1' & ->)]]. eauto.
Qed.

(** C8, as the code has it. receive.py: in [tentar_processar_arquivo] the
    sleep right before attempt [t+1] lasts [BACKOFF_INICIAL_S * 2^(t-1)]
    seconds, at most [MAX_TENTATIVAS_POR_ARQUIVO] attempts are made, and when
    the run ends in a backoff sleep all of them were made and the result is
    [(ftp, False)], a bare boolean with no error detail. send.py: in
    [enviar_para_ftp] the sleep right before every attempt after the first
    lasts half a second whatever the attempt number, and a result with status
    [falha] carries an error detail (the exception, the diverging size or
    the unavailable connection). *)
Theorem retry_delays_and_exhaustion `{Environment} :
  (∀ (ftp : option nat) (nome : string) (idx total : nat) (w : world),
     ∃ t, trace (Receive.tentar_processar_arquivo ftp nome idx total w).2
            = trace w ++ t ∧
          backoff_doubles nome (inject_Z Receive.BACKOFF_INICIAL_S) t ∧
          n_attempts t ≤ Receive.MAX_TENTATIVAS_POR_ARQUIVO ∧
          (∀ d, last t = Some (EvSleep d) →
             n_attempts t = Receive.MAX_TENTATIVAS_POR_ARQUIVO ∧
             ∃ ftp', (Receive.tentar_processar_arquivo ftp nome idx total w).1
                       = Val (ftp', false))) ∧
  (∀ (ftp : option nat) (caminho nome : string) (max : Z) (w : world),
     ∃ t, trace (Send.enviar_para_ftp ftp caminho nome max w).2 = trace w ++ t ∧
          constant_delay nome (1 # 2) t ∧
          ∃ ftp' i', (Send.enviar_para_ftp ftp caminho nome max w).1
                       = Val (ftp', i') ∧
                     (Send.status i' = Falha → erro_detalhe (Send.detalhe i'))).
Proof.
  split.
  - intros ftp nome idx total w. unfold Receive.tentar_processar_arquivo.
    rewrite run_bind.
    unfold Receive.escolher_caminho_local.
    destruct (splitext _) as [base ext]. cbn [fst snd].
    match goal with |- context [Receive.tentativas_loop ?n ftp nome ?c idx 1 ?b0 None w] =>
      destruct (spec_tentativas_loop n ftp nome c idx 1 b0 None w) as (t & Ht & Hpost)
    end.
    exists t. split; [done|].
    split; [by eapply backoff_doubles_loop|].
    destruct Hpost as (_ & Hn & _ & Hlast). eauto.
  - intros ftp caminho nome max w.
    pose proof (returns_enviar_para_ftp ftp caminho nome max w) as Hret.
    rewrite enviar_para_ftp_run in *.
    destruct (disk w !! caminho) as [d|].
    + match goal with |- context [Send.enviar_loop ?n ?k ?f ?c ?nm ?tm ?i w] =>
        destruct (spec_enviar_loop n k f c nm tm i w) as (t & Ht & Hpost)
      end.
      exists t. split; [done|]. split; [by apply constant_delay_loop|].
      destruct Hret as (ftp' & i' & Hr & _ & Hst). exists ftp', i'. split; [done|].
      intros Hf. destruct Hst as [Hs|[Hs|[_ Hd]]]; [congruence..|done].
    + exists []. simpl. rewrite app_nil_r. split; [done|].
      split; [intros t1 k t2 Heq; by destruct t1|].
      eexists _, _. split; [done|]. simpl. discriminate.
Qed.

(** C8 as stated fails on send.py: with every STOR refused, the three
    attempts of [enviar_para_ftp] are each followed by a sleep of half a
    second, so no initial delay makes the delays double. *)
Lemma send_backoff_does_not_double :
  ¬ ∃ inicial : Q, backoff_doubles "a.xml" inicial (trace run_stor_falha.2).
Proof.
  intros [d Hd].
  set (t := trace run_stor_falha.2) in *.
  assert (H2 : t = take 16 t ++ [EvSleep (1 # 2)] ++ EvAttempt "a.xml" 2 :: drop 18 t)
    by (vm_compute; reflexivity).
  assert (H3 : t = take 30 t ++ [EvSleep (1 # 2)] ++ EvAttempt "a.xml" 3 :: drop 32 t)
    by (vm_compute; reflexivity).
  rewrite app_assoc in H2, H3.
  destruct (Hd _ 0 _ H2) as (a & d2 & Ha & Hd2).
  destruct (Hd _ 1 _ H3) as (b & d3 & Hb & Hd3).
  apply app_inj_tail in Ha as [_ [= <-]]. apply app_inj_tail in Hb as [_ [= <-]].
  revert Hd2 Hd3. unfold Qeq, Qmult, inject_Z. simpl. lia.
Qed.

(** ** Session establishment *)


Definition refused (r : reply) : bool :=
  match r with RExc _ => true | _ => false end.





(** A server that refuses PROT P, and the same with the origin directory
    in place. *)
Definition env_sem_prot_p : Environment :=
  Server.with_faults
    (λ _ _ c, match c with ProtP => Some (RExc error_perm) | _ => None end)
    Server.env.

Definition mundo_sem_prot_p : @world env_sem_prot_p :=
  @World env_sem_prot_p (Server.make_tree ["/XML"; "/XML/CTE"] [], 0) ∅ ∅ [].

Section Session.
Context `{Environment}.

Lemma call__run h c (w : world) :
  ∃ r w', trace w' = trace w ++ [EvFtp h c r] ∧ clients w' = clients w ∧
          ((refused r ∧ ∃ e, call_ (Some h) c w = (Exc e, w')) ∨
           (¬ refused r ∧ call_ (Some h) c w = (Val tt, w'))).
Proof.
  unfold call_. rewrite run_bind. unfold call.
  destruct (ftp_step h c (srv w)) as [r s].
  exists r. eexists (World s (disk w) (clients w) (trace w ++ [EvFtp h c r])).
  split; [done|]. split; [done|].
  destruct r; simpl; eauto.
Qed.


End Session.


Definition is_close (h : nat) (e : event) : bool :=
  match e with
  | EvFtp h' (Close | QuitCmd) _ => bool_decide (h' = h)
  | _ => false
  end.

(** The model server with no directory at all: [/XML/CTE] cannot be
    entered, in any mode. *)
Definition run_sem_origem : res (option nat) * @world Server.env :=
  @Receive.conectar_ftp Server.env (@World Server.env Server.empty_tree ∅ ∅ []).

Section SessionTheorems.
Context `{Environment}.




End SessionTheorems.


(** The same server lets receive.py in, through clear+passive. *)
Lemma receive_session_on_clear_channel :
  (@Receive.conectar_ftp env_sem_prot_p mundo_sem_prot_p).1 = Val (Some 0) ∧
  clients (@Receive.conectar_ftp env_sem_prot_p mundo_sem_prot_p).2 !! 0
    = Some (Modo PROT_C true).
Proof. split; vm_compute; reflexivity. Qed.

(** What [garantir_conexao] of receive.py does with the client it is given:
    the probe is answered and the client is kept, or the probe fails and the
    client is closed before anything else is done. *)
Definition probe_then_close (h : nat) (t : list event) : Prop :=
  (∃ r, refused r = false ∧ t = [EvFtp h (Voidcmd "NOOP") r]) ∨
  (∃ e r' t', t = EvFtp h (Voidcmd "NOOP") (RExc e) :: EvFtp h Close r' :: t').

Section StaleHandle.
Context `{Environment}.

Lemma trace_conectar_ftp (w : world) :
  ∃ t, trace (Receive.conectar_ftp w).2 = trace w ++ t.
Proof.
  destruct (emits_conectar_ftp (λ _, True) ltac:(done) w) as (t & Ht & _). eauto.
Qed.

Lemma garantir_conexao_closes_stale h (w : world) :
  ∃ t, trace (Receive.garantir_conexao (Some h) w).2 = trace w ++ t ∧
       probe_then_close h t.
Proof.
  unfold Receive.garantir_conexao. unfold try_except at 1 2.
  rewrite run_bind. unfold ftp_voidcmd.
  destruct (call__run h (Voidcmd "NOOP") w)
    as (r1 & w1 & Ht1 & _ & [[Hr1 [e1 He1]]|[Hr1 He1]]); rewrite He1.
  - (* the probe fails *)
    cbn [any_exc]. rewrite run_bind. unfold try_except at 1. unfold ftp_close.
    assert (Hrest : ∀ w2 : world, ∃ t,
              trace (match Receive.conectar_ftp w2 with
                     | (Exc e, w') =>
                         match
                           match e with
                           | ConnectionResetError | EOFError =>
                               Some (try_except (call_ (Some h) Close) (any_exc (mret tt)) ;;
                                     Receive.conectar_ftp)
                           | _ => None
                           end
                         with
                         | Some k => k w'
                         | None => (Exc e, w')
                         end
                     | r => r
                     end).2 = trace w2 ++ t).
    { intros w2. destruct (trace_conectar_ftp w2) as [t Ht].
      destruct (Receive.conectar_ftp w2) as [[a|e] w3]; [by eauto|].
      simpl in Ht.
      assert (Hk : ∃ t', trace ((try_except (call_ (Some h) Close) (any_exc (mret tt)) ;;
                                 Receive.conectar_ftp) w3).2 = trace w3 ++ t').
      { rewrite run_bind. unfold try_except.
        destruct (call__run h Close w3)
          as (r & w4 & Ht4 & _ & [[_ [e' He']]|[_ He']]); rewrite He'; cbn [any_exc];
          rewrite ?run_ret; destruct (trace_conectar_ftp w4) as [t' Ht'];
          exists ([EvFtp h Close r] ++ t'); by rewrite Ht', Ht4, app_assoc. }
      destruct Hk as [t' Ht'].
      destruct e; try (by eauto); exists (t ++ t'); by rewrite Ht', Ht, app_assoc. }
    destruct r1 as [| | | | |e]; try done.
    destruct (call__run h Close w1)
      as (r2 & w2 & Ht2 & _ & [[_ [e2 He2]]|[_ He2]]); rewrite He2; cbn [any_exc];
      rewrite ?run_ret; destruct (Hrest w2) as [t Ht];
      exists (EvFtp h (Voidcmd "NOOP") (RExc e) :: EvFtp h Close r2 :: t);
      (split; [by rewrite Ht, Ht2, Ht1, <-!app_assoc|]); right; eauto.
  - (* the probe is answered *)
    rewrite run_ret. exists [EvFtp h (Voidcmd "NOOP") r1]. split; [done|].
    left. exists r1. split; [by destruct r1|done].
Qed.

End StaleHandle.

(** C7 at the failing input: on a server where the origin directory cannot
    be entered, [conectar_ftp] of receive.py opens a connection, fails in
    all four modes and returns [None]; the client it created is never
    closed.  The sibling path does close: in [garantir_conexao], on any
    server, a client whose probe fails is closed before it is replaced. *)
Theorem conectar_ftp_leaks_handle :
  (run_sem_origem.1 = Val None ∧
   EvNew 0 ∈ trace run_sem_origem.2 ∧
   EvFtp 0 (Connect Receive.FTP_HOST 21) ROk ∈ trace run_sem_origem.2 ∧
   Forall (λ e, is_close 0 e = false) (trace run_sem_origem.2)) ∧
  (∀ (E : Environment) (h : nat) (w : @world E),
     ∃ t, trace (@Receive.garantir_conexao E (Some h) w).2 = trace w ++ t ∧
          probe_then_close h t).
Proof.
  split; [|intros E h w; apply garantir_conexao_closes_stale].
  split; [vm_compute; reflexivity|].
  split; [compute_done|]. split; [compute_done|].
  vm_compute. repeat constructor.
Qed.

(** ** receive.py: the strict batch *)

(** The item markers of a trace, in order. *)
Definition itens (t : list event) : list event := List.filter is_item_event t.


(** The log of a batch whose items were all delivered, numbered from [idx]. *)
Fixpoint delivered (idx : nat) (nomes : list string) : list event :=
  match nomes with
  | [] => []
  | nome :: resto =>
      EvItemStart idx nome :: EvItemEnd idx nome true :: delivered (S idx) resto
  end.




Lemma delivered_app idx a b :
  delivered idx (a ++ b) = delivered idx a ++ delivered (idx + length a) b.
Proof.
  revert idx. induction a as [|x a IH]; intros idx; simpl.
  - by rewrite Nat.add_0_r.
  - by rewrite IH, Nat.add_succ_r.
Qed.


Section Strict.
Context `{Environment}.
Import Receive.







End Strict.

(** A server on which the download of [b.xml] is always cut. *)
Definition env_retr_falha : Environment :=
  Server.with_faults
    (λ _ _ c, match c with
              | Retr "b.xml" _ => Some (RExc error_temp)
              | _ => None
              end)
    Server.env.

Definition run_lote_estrito : res Z * @world env_retr_falha :=
  (ftp ← @Receive.conectar_ftp env_retr_falha;
   Receive.main_lote ["a.xml"; "b.xml"; "c.xml"] ftp)
    (@World env_retr_falha
       (Server.make_tree ["/XML"; "/XML/CTE"; "/XML/CTES_ENVIADOS"]
          [("/XML/CTE/a.xml", "<a/>"); ("/XML/CTE/b.xml", "<b/>");
           ("/XML/CTE/c.xml", "<c/>")], 0) ∅ ∅ []).


(** On the model server, with the download of the second of three files
    always cut: the first is delivered, the second is tried five times and
    fails, the third is never started, and the exit status is 2. *)
Example strict_batch_run :
  run_lote_estrito.1 = Val 2%Z ∧
  itens (trace run_lote_estrito.2) =
    [EvItemStart 1 "a.xml"; EvItemEnd 1 "a.xml" true;
     EvItemStart 2 "b.xml"; EvItemEnd 2 "b.xml" false] ∧
  List.filter is_attempt (trace run_lote_estrito.2) =
    EvAttempt "a.xml" 1 :: (EvAttempt "b.xml" <$> [1; 2; 3; 4; 5]).
Proof. split; [|split]; vm_compute; reflexivity. Qed.

(** ** send.py: the queue with bounded requeue *)

Definition is_send (e : event) : bool :=
  match e with EvSend _ _ _ => true | _ => false end.

(** The sends of a trace, in order. *)
Definition envios (t : list event) : list event := List.filter is_send t.

(** The sends of the file [c]. *)
Definition is_send_of (c : string) (e : event) : bool :=
  match e with EvSend c' _ _ => bool_decide (c' = c) | _ => false end.

Definition passes (c : string) (l : list event) : nat :=
  length (List.filter (is_send_of c) l).

(** The work queue, the attempt counters and the report. *)
Definition config : Type := list Send.item * gmap string nat * list Send.info.

Definition config_of (st : Send.estado) : config :=
  (Send.fila st, Send.tentativas_por_arquivo st, Send.relatorio_envios st).

(** The attempt number of the next send of [it]. *)
Definition proxima (tpa : gmap string nat) (it : Send.item) : nat :=
  S (default 0 (tpa !! Send.caminho it)).

(** One pass over the item at the head of the queue: a failed send below
    the cap puts the item back at the tail and records nothing; any other
    outcome records the item, with the number of the attempt. *)
Inductive passo : config → event → config → Prop :=
  | passo_requeue it q tpa rel :
      proxima tpa it < Send.MAX_REPROCESSOS →
      passo (it :: q, tpa, rel)
            (EvSend (Send.caminho it) (proxima tpa it) Falha)
            (q ++ [it], <[Send.caminho it := proxima tpa it]> tpa, rel)
  | passo_record it q tpa rel i :
      Send.status i ≠ Falha ∨ Send.MAX_REPROCESSOS ≤ proxima tpa it →
      Send.status i ≠ Pendente →
      Send.tentativas i = proxima tpa it →
      Send.arquivo i = Send.nome_remoto it →
      passo (it :: q, tpa, rel)
            (EvSend (Send.caminho it) (proxima tpa it) (Send.status i))
            (q, <[Send.caminho it := proxima tpa it]> tpa, rel ++ [i]).

Inductive passos : config → list event → config → Prop :=
  | passos_nil c : passos c [] c
  | passos_cons c e c' l c'' :
      passo c e c' → passos c' l c'' → passos c (e :: l) c''.

(** The measure of the queue: an item with [n] attempts behind it can be
    taken from the queue [MAX_REPROCESSOS - n] more times, and at least once. *)
Definition peso (tpa : gmap string nat) (it : Send.item) : nat :=
  S (Send.MAX_REPROCESSOS - 1 - default 0 (tpa !! Send.caminho it)).

Fixpoint potencial (tpa : gmap string nat) (q : list Send.item) : nat :=
  match q with
  | [] => 0
  | it :: q => peso tpa it + potencial tpa q
  end.

Lemma passos_app c l c' l' c'' :
  passos c l c' → passos c' l' c'' → passos c (l ++ l') c''.
Proof. induction 1; simpl; [done|]. intros. econstructor; eauto. Qed.

Lemma potencial_app tpa q1 q2 :
  potencial tpa (q1 ++ q2) = potencial tpa q1 + potencial tpa q2.
Proof. induction q1 as [|it q1 IH]; simpl; [done|]. rewrite IH. lia. Qed.

Lemma peso_insert_le tpa it0 it :
  peso (<[Send.caminho it0 := proxima tpa it0]> tpa) it ≤ peso tpa it.
Proof.
  unfold peso, proxima.
  destruct (decide (Send.caminho it0 = Send.caminho it)) as [Heq|Hne].
  - rewrite Heq, lookup_insert_eq. simpl. lia.
  - by rewrite lookup_insert_ne.
Qed.

Lemma potencial_insert_le tpa it0 q :
  potencial (<[Send.caminho it0 := proxima tpa it0]> tpa) q ≤ potencial tpa q.
Proof.
  induction q as [|it q IH]; cbn [potencial]; [done|].
  pose proof (peso_insert_le tpa it0 it). lia.
Qed.

Lemma potencial_inicial q :
  potencial ∅ q = Send.MAX_REPROCESSOS * length q.
Proof.
  induction q as [|it q IH]; simpl; [done|].
  rewrite IH. unfold peso. rewrite lookup_empty. simpl. lia.
Qed.

(** Every pass takes at least one unit of the measure. *)
Lemma passo_potencial q tpa rel e q' tpa' rel' :
  passo (q, tpa, rel) e (q', tpa', rel') →
  S (potencial tpa' q') ≤ potencial tpa q.
Proof.
  inversion 1; subst.
  - rewrite potencial_app. cbn [potencial].
    pose proof (potencial_insert_le tpa it q0) as Hle.
    unfold peso, proxima in *. rewrite lookup_insert_eq.
    destruct (tpa !! Send.caminho it); cbn [default from_option id] in *; lia.
  - cbn [potencial].
    pose proof (potencial_insert_le tpa it q') as Hle. unfold peso. lia.
Qed.

Lemma passos_potencial q tpa rel l q' tpa' rel' :
  passos (q, tpa, rel) l (q', tpa', rel') →
  potencial tpa' q' + length l ≤ potencial tpa q.
Proof.
  intros Hp. remember (q, tpa, rel) as c eqn:Hc. remember (q', tpa', rel') as c' eqn:Hc'.
  revert q tpa rel Hc. induction Hp as [c|c e [[q1 tpa1] rel1] l c'' Hstep _ IH];
    intros q tpa rel ->.
  - simplify_eq. simpl. lia.
  - specialize (IH Hc' _ _ _ eq_refl). apply passo_potencial in Hstep. simpl. lia.
Qed.

(** The sends of a file are numbered from its counter on. *)
Lemma passos_numbered q tpa rel l c' l1 ca k s l2 :
  passos (q, tpa, rel) l c' →
  l = l1 ++ EvSend ca k s :: l2 →
  k = S (default 0 (tpa !! ca) + passes ca l1).
Proof.
  intros Hp. remember (q, tpa, rel) as c eqn:Hc.
  revert q tpa rel l1 Hc. induction Hp as [c|c e [[q1 tpa1] rel1] l c'' Hstep _ IH];
    intros q tpa rel l1 -> Heq.
  - by destruct l1.
  - destruct l1 as [|e1 l1]; simplify_eq/=.
    + unfold passes. simpl. rewrite Nat.add_0_r.
      inversion Hstep; subst; done.
    + rewrite (IH _ _ _ l1 eq_refl eq_refl). unfold passes. simpl.
      inversion Hstep; subst; simpl; case_bool_decide as Hc; simplify_eq/=.
      all: try (rewrite lookup_insert_eq; unfold proxima; simpl; lia).
      all: by rewrite lookup_insert_ne.
Qed.



(** With one item per file, no file is sent more than [MAX_REPROCESSOS]
    times. *)
Definition fila_ok (q : list Send.item) (tpa : gmap string nat) : Prop :=
  NoDup (Send.caminho <$> q) ∧
  ∀ it, it ∈ q → default 0 (tpa !! Send.caminho it) < Send.MAX_REPROCESSOS.

Lemma passo_fila_ok q tpa rel e q' tpa' rel' :
  passo (q, tpa, rel) e (q', tpa', rel') →
  fila_ok q tpa →
  fila_ok q' tpa' ∧
  match e with EvSend _ k _ => k ≤ Send.MAX_REPROCESSOS | _ => True end.
Proof.
  intros Hstep [Hnd Hlt].
  assert (Hhead : ∀ it q0, q = it :: q0 →
            proxima tpa it ≤ Send.MAX_REPROCESSOS ∧
            NoDup (Send.caminho <$> q0) ∧
            ∀ x, x ∈ q0 → Send.caminho x ≠ Send.caminho it).
  { intros it q0 ->. rewrite fmap_cons in Hnd. apply NoDup_cons in Hnd as [Hnin Hnd].
    split; [|split; [done|]].
    - specialize (Hlt it ltac:(left)). unfold proxima. lia.
    - intros x Hx Heq. apply Hnin. rewrite <-Heq. by apply list_elem_of_fmap_2. }
  inversion Hstep; subst.
  - destruct (Hhead _ _ eq_refl) as (Hk & Hnd' & Hne). split; [|done]. split.
    + rewrite fmap_app. simpl. apply NoDup_app. split; [done|].
      split; [|apply NoDup_singleton].
      intros c Hc ->%list_elem_of_singleton.
      apply list_elem_of_fmap in Hc as (x & Hx1 & Hx2). by eapply Hne.
    + intros x [Hx| ->%list_elem_of_singleton]%elem_of_app.
      * rewrite lookup_insert_ne by (by apply not_eq_sym, Hne).
        apply Hlt. by right.
      * rewrite lookup_insert_eq. simpl. lia.
  - destruct (Hhead _ _ eq_refl) as (Hk & Hnd' & Hne). split; [|done]. split; [done|].
    intros x Hx. rewrite lookup_insert_ne by (by apply not_eq_sym, Hne).
    apply Hlt. by right.
Qed.

Lemma passos_bounded q tpa rel l c' :
  passos (q, tpa, rel) l c' →
  fila_ok q tpa →
  Forall (λ e, match e with
               | EvSend _ k _ => k ≤ Send.MAX_REPROCESSOS
               | _ => True
               end) l.
Proof.
  intros Hp. remember (q, tpa, rel) as c eqn:Hc.
  revert q tpa rel Hc. induction Hp as [c|c e [[q1 tpa1] rel1] l c'' Hstep _ IH];
    intros q tpa rel -> Hok; [constructor|].
  destruct (passo_fila_ok _ _ _ _ _ _ _ Hstep Hok) as [Hok' Hk].
  constructor; [done|]. by eapply IH.
Qed.

Lemma passes_app c l1 l2 : passes c (l1 ++ l2) = passes c l1 + passes c l2.
Proof. unfold passes. by rewrite List.filter_app, length_app. Qed.

Lemma passes_le c n l :
  (∀ l1 k s l2, l = l1 ++ EvSend c k s :: l2 → passes c l1 < n) →
  passes c l ≤ n.
Proof.
  induction l as [|e l IH] using rev_ind; intros Hl; [unfold passes; simpl; lia|].
  rewrite passes_app.
  assert (passes c l ≤ n) as Hle.
  { apply IH. intros l1 k s l2 ->. apply (Hl l1 k s (l2 ++ [e])).
    by rewrite <-app_assoc. }
  destruct e as [| | | | | |c' k s]; try (unfold passes at 2; simpl; lia).
  unfold passes at 2. simpl. case_bool_decide as Hc; simpl; [|lia].
  subst c'. specialize (Hl l k s [] eq_refl). lia.
Qed.

Section SendQueue.
Context `{Environment}.
Import Send.

Lemma spec_bind_dep {A B} (m : M A) (f : A → M B) Pm
    (Q : res B → list event → Prop) :
  spec m Pm →
  (∀ e t, Pm (Exc e) t → Q (Exc e) t) →
  (∀ a t1, Pm (Val a) t1 → spec (f a) (λ r t2, Q r (t1 ++ t2))) →
  spec (m ≫= f) Q.
Proof.
  intros Hm Hexc Hf w. rewrite run_bind.
  destruct (Hm w) as (t1 & Ht1 & HP). destruct (m w) as [[a|e] w1]; simpl in *.
  - destruct (Hf a t1 HP w1) as (t2 & Ht2 & HQ).
    exists (t1 ++ t2). rewrite Ht2, Ht1, app_assoc. eauto.
  - exists t1. eauto.
Qed.

Lemma envios_app t1 t2 : envios (t1 ++ t2) = envios t1 ++ envios t2.
Proof. apply List.filter_app. Qed.

Lemma envios_quiet t : Forall (λ e, is_send e = false) t → envios t = [].
Proof.
  induction 1 as [|e t He _ IH]; [done|].
  unfold envios in *. simpl. by rewrite He.
Qed.

Lemma spec_mute_bind {A B} (P : res A → Prop) (m : M A) (f : A → M B)
    (Q : res B → list event → Prop) :
  returns P m → emits (λ e, is_send e = false) m →
  (∀ e, P (Exc e) → Q (Exc e) []) →
  (∀ a, P (Val a) → spec (f a) (λ r t, Q r (envios t))) →
  spec (m ≫= f) (λ r t, Q r (envios t)).
Proof.
  intros HP Hm Hexc Hf.
  apply (spec_bind_dep m f (λ r t, P r ∧ Forall (λ e, is_send e = false) t)).
  - by apply spec_returns.
  - intros e t [HPe Hall]. rewrite envios_quiet by done. by apply Hexc.
  - intros a t1 [HPa Hall]. eapply spec_conseq; [by apply Hf|].
    intros r t2 HQ. simpl. by rewrite envios_app, envios_quiet.
Qed.

Lemma spec_send_log {B} e (f : unit → M B) (Q : res B → list event → Prop) :
  spec (f tt) (λ r t, Q r (envios [e] ++ envios t)) →
  spec (log e ≫= f) (λ r t, Q r (envios t)).
Proof.
  intros Hf.
  apply (spec_bind_dep (log e) f (λ r t, r = Val tt ∧ t = [e])).
  - intros w. exists [e]. done.
  - intros e' t [[=] _].
  - intros [] t1 [_ ->]. eapply spec_conseq; [exact Hf|].
    intros r t2 HQ. cbn beta. by rewrite envios_app.
Qed.

Definition item_post (it : item) (st : estado) (r : res (estado * option nat))
    (l : list event) : Prop :=
  ∃ st' ftp' e, r = Val (st', ftp') ∧ l = [e] ∧
    lote_atual st' = lote_atual st ∧
    ∀ q, passo (it :: q ++ fila st, tentativas_por_arquivo st, relatorio_envios st) e
               (q ++ fila st', tentativas_por_arquivo st', relatorio_envios st').

Lemma spec_processar_item it st ftp :
  spec (processar_item it st ftp) (λ r t, item_post it st r (envios t)).
Proof.
  unfold processar_item. cbv zeta.
  fold (proxima (tentativas_por_arquivo st) it).
  set (k := proxima (tentativas_por_arquivo st) it).
  assert (Hmute : ∀ e, ev_real e → is_send e = false) by (by intros []).
  apply (spec_mute_bind (λ r, ∃ a, r = Val a)).
  { destruct ftp; [apply total_try_any, total_ret|apply total_ret]. }
  { destruct ftp; [|apply emits_ret]. apply emits_try_any; [|apply emits_ret].
    unfold ftp_quit. emits_go Hmute. }
  { by intros e [a [=]]. }
  intros _ _.
  apply (spec_mute_bind (λ r, ∃ a, r = Val a)).
  { apply total_send_conectar_ftp. }
  { apply emits_send_conectar_ftp. intros e He. by destruct e. }
  { by intros e [a [=]]. }
  intros ftp1 _.
  apply (spec_mute_bind (enviar_ret (nome_remoto it))).
  { apply returns_enviar_para_ftp. }
  { apply emits_enviar_para_ftp; intros; first [done|by destruct e]. }
  { by intros e (? & ? & [=] & _). }
  intros [ftp2 i] (? & ? & [= <- <-] & Harq & Hst).
  apply spec_send_log. cbn beta. cbn [status com_tentativas].
  destruct (status i) eqn:Hs.
  - (* pendente: not a status [enviar_para_ftp] returns *)
    by destruct Hst as [?|[?|[? _]]].
  - (* sucesso *)
    apply (spec_mute_bind
             (λ r, ∃ i', r = Val i' ∧ status i' = Sucesso ∧ tentativas i' = k ∧
                         arquivo i' = nome_remoto it) _ _
             (λ r l, item_post it st r
                       (envios [EvSend (caminho it) k Sucesso] ++ l))).
    { apply (returns_try_except
               (λ r, ∀ a, r = Val a → ∃ i', r = Val i' ∧ status i' = Sucesso ∧
                                            tentativas i' = k ∧
                                            arquivo i' = nome_remoto it)).
      - apply returns_bind; [done|]. intros d. apply returns_ret.
        intros _ _. eexists. split; [done|]. simpl. done.
      - eauto.
      - intros e _. apply returns_ret. eexists. split; [done|]. simpl. done. }
    { apply emits_try_except.
      - unfold mover_para_enviados, shutil_move. emits_go Hmute.
      - intros e k' [= <-]. apply emits_ret. }
    { by intros e (? & [=] & _). }
    intros i' (? & [= <-] & Hs' & Ht' & Ha').
    apply spec_ret. eexists _, _, _. split; [done|]. split; [done|].
    split; [done|]. intros q. cbn [fila tentativas_por_arquivo relatorio_envios].
    rewrite <-Hs'. apply passo_record; [left|..]; by rewrite ?Hs'.
  - (* falha *)
    fold MAX_REPROCESSOS. destruct (Nat.ltb_spec k MAX_REPROCESSOS) as [Hlt|Hge].
    + apply spec_ret. eexists _, _, _. split; [done|]. split; [done|].
      split; [done|]. intros q. cbn [fila tentativas_por_arquivo relatorio_envios].
      rewrite app_assoc. by apply passo_requeue.
    + apply spec_ret. eexists _, _, _. split; [done|]. split; [done|].
      split; [done|]. intros q. cbn [fila tentativas_por_arquivo relatorio_envios].
      pose proof (passo_record it (q ++ fila st) (tentativas_por_arquivo st)
                    (relatorio_envios st) (com_tentativas k i)) as Hp.
      cbn [status com_tentativas tentativas arquivo] in Hp. rewrite Hs in Hp.
      apply Hp; [by right|done|done|done].
  - (* ignorado *)
    apply spec_ret. eexists _, _, _. split; [done|]. split; [done|].
    split; [done|]. intros q. cbn [fila tentativas_por_arquivo relatorio_envios].
    pose proof (passo_record it (q ++ fila st) (tentativas_por_arquivo st)
                  (relatorio_envios st) (com_tentativas k i)) as Hp.
    cbn [status com_tentativas tentativas arquivo] in Hp. rewrite Hs in Hp.
    apply Hp; [by left|done|done|done].
Qed.

End SendQueue.

Section SendRun.
Context `{Environment}.
Import Send.

Lemma spec_processar_lote lote st ftp :
  spec (processar_lote lote st ftp)
       (λ r t, ∃ st' ftp', r = Val (st', ftp') ∧
                 length (envios t) = length lote ∧
                 passos (lote ++ fila st, tentativas_por_arquivo st, relatorio_envios st)
                        (envios t) (config_of st')).
Proof.
  revert st ftp. induction lote as [|it lote IH]; intros st ftp; cbn [processar_lote].
  { apply spec_ret. eexists _, _. split; [done|]. split; [done|]. constructor. }
  apply (spec_bind_dep _ _ (λ r t, item_post it st r (envios t)));
    [apply spec_processar_item|..].
  - by intros e t (? & ? & ? & [=] & _).
  - intros [st1 ftp1] t1 (? & ? & e & [= <- <-] & Ht1 & _ & Hstep).
    eapply spec_conseq; [apply IH|].
    intros r t2 (st' & ftp' & -> & Hlen & Hp). cbn beta.
    exists st', ftp'. rewrite envios_app, Ht1. split; [done|].
    split; [simpl; by rewrite Hlen|].
    econstructor; [apply Hstep|done].
Qed.

Lemma spec_main_while n st ftp :
  potencial (tentativas_por_arquivo st) (fila st) < n →
  spec (main_while n st ftp)
       (λ r t, ∃ st' ftp', r = Val (Some (st', ftp')) ∧ fila st' = [] ∧
                 passos (config_of st) (envios t) (config_of st')).
Proof.
  revert st ftp. induction n as [|n IH]; intros st ftp Hpot; [lia|].
  cbn [main_while]. destruct (fila st) as [|it q] eqn:Hfila.
  { apply spec_ret. exists st, ftp. split; [done|]. split; [done|]. constructor. }
  cbv zeta.
  set (st1 := Estado (drop 100 (it :: q)) (tentativas_por_arquivo st)
                (relatorio_envios st) (lote_atual st)).
  eapply spec_bind_dep; [apply (spec_processar_lote (take 100 (it :: q)) st1 ftp)|..].
  - by intros e t (? & ? & [=] & _).
  - intros [st2 ftp2] t1 (? & ? & [= <- <-] & Hlen & Hp).
    subst st1. cbn [fila tentativas_por_arquivo relatorio_envios] in Hp.
    rewrite take_drop in Hp.
    assert (Hpot2 : potencial (tentativas_por_arquivo st2) (fila st2) < n).
    { apply passos_potencial in Hp. rewrite Hlen, length_take in Hp.
      cbn [length] in Hp. lia. }
    eapply spec_conseq; [apply IH; exact Hpot2|].
    intros r t2 (st' & ftp' & -> & Hempty & Hp2). cbn beta.
    exists st', ftp'. split; [done|]. split; [done|].
    rewrite envios_app. eapply passos_app; [|exact Hp2].
    unfold config_of. by rewrite Hfila.
Qed.

Lemma spec_main_envio itens_envio ftp :
  spec (main_envio itens_envio ftp)
       (λ r t, ∃ st' ftp', r = Val (Some (st', ftp')) ∧ fila st' = [] ∧
                 passos (itens_envio, ∅, []) (envios t) (config_of st')).
Proof.
  unfold main_envio. apply spec_main_while.
  unfold estado_inicial. cbn [fila tentativas_por_arquivo].
  rewrite potencial_inicial. lia.
Qed.

End SendRun.

(** A server that refuses the uploads of [b.xml] during its first hundred
    calls, and two files to send. *)
Definition env_duas_falhas : Environment :=
  Server.with_faults
    (λ n _ c, match c with
              | Stor "b.xml" _ _ =>
                  if (n <? 100)%nat then Some (RExc error_temp) else None
              | _ => None
              end)
    Server.env.

Definition itens_exemplo : list Send.item :=
  [Send.Item "C:\send\a.xml" "a.xml"; Send.Item "C:\send\b.xml" "b.xml"].

Definition run_envio : res (option (Send.estado * option nat)) * @world env_duas_falhas :=
  @Send.main_envio env_duas_falhas itens_exemplo None
    (@World env_duas_falhas (Server.empty_tree, 0)
       {[ "C:\send\a.xml" := "<a/>"; "C:\send\b.xml" := "<b/>" ]} ∅ []).


(** C10. The queue loop of send.py always returns: the bound on the
    iterations of [while fila] in [main_envio] is never reached and nothing
    is raised.  Each send of a file carries the number of passes of that
    file so far plus one, the run makes at most
    [MAX_REPROCESSOS * length itens_envio] sends, and, with one item per
    file, at most [MAX_REPROCESSOS] sends of each file. *)
Theorem main_envio_terminates `{Environment}
    (itens_envio : list Send.item) (ftp : option nat) (w : world) :
  ∃ st ftp' t,
    (Send.main_envio itens_envio ftp w).1 = Val (Some (st, ftp')) ∧
    trace (Send.main_envio itens_envio ftp w).2 = trace w ++ t ∧
    length (envios t) ≤ Send.MAX_REPROCESSOS * length itens_envio ∧
    (∀ l1 c k s l2, envios t = l1 ++ EvSend c k s :: l2 → k = S (passes c l1)) ∧
    (NoDup (Send.caminho <$> itens_envio) →
     ∀ c, passes c (envios t) ≤ Send.MAX_REPROCESSOS).
Proof.
  destruct (spec_main_envio itens_envio ftp w) as (t & Ht & st & ftp' & Hr & Hq & Hp).
  exists st, ftp', t. do 2 (split; [done|]).
  assert (Hnum : ∀ l1 c k s l2,
            envios t = l1 ++ EvSend c k s :: l2 → k = S (passes c l1)).
  { intros l1 c k s l2 Heq.
    rewrite (passos_numbered _ _ _ _ _ _ _ _ _ _ Hp Heq). by rewrite lookup_empty. }
  split; [|split; [done|]].
  - apply passos_potencial in Hp. rewrite potencial_inicial in Hp. lia.
  - intros Hnd c. apply passes_le. intros l1 k s l2 Heq.
    assert (Hok : fila_ok itens_envio ∅).
    { split; [done|]. intros it _. rewrite lookup_empty. simpl.
      unfold Send.MAX_REPROCESSOS. lia. }
    assert (Hb := passos_bounded _ _ _ _ _ Hp Hok). rewrite Forall_forall in Hb.
    assert (Hin : EvSend c k s ∈ envios t).
    { rewrite Heq. apply elem_of_app. right. by left. }
    specialize (Hb _ Hin). simpl in Hb. rewrite (Hnum _ _ _ _ _ Heq) in Hb. lia.
Qed.

(** On that server every attempt of the first two passes of [b.xml] is
    refused: [a.xml] is delivered on its first pass, [b.xml] goes back to
    the tail of the queue twice and is delivered on its third pass, with 3
    as recorded count. *)
Example requeue_run :
  envios (trace run_envio.2) =
    [EvSend "C:\send\a.xml" 1 Sucesso; EvSend "C:\send\b.xml" 1 Falha;
     EvSend "C:\send\b.xml" 2 Falha; EvSend "C:\send\b.xml" 3 Sucesso] ∧
  (∃ st ftp, run_envio.1 = Val (Some (st, ftp)) ∧ Send.fila st = [] ∧
     (λ i, (Send.arquivo i, Send.status i, Send.tentativas i))
       <$> Send.relatorio_envios st
     = [("a.xml", Sucesso, 1); ("b.xml", Sucesso, 3)]).
Proof.
  split; [vm_compute; reflexivity|].
  destruct run_envio.1 as [[[st ftp]|]|] eqn:Hr; try (vm_compute in Hr; discriminate).
  exists st, ftp. split; [done|].
  assert (Hst : Some st = match run_envio.1 with
                          | Val (Some (s, _)) => Some s
                          | _ => None
                          end) by (by rewrite Hr).
  vm_compute in Hst. injection Hst as ->. split; reflexivity.
Qed.

(** ** What a fetch or a store may remove *)

(** Remote commands that remove a name. *)
Definition no_remote_removal (e : event) : Prop :=
  match e with
  | EvFtp _ (Delete _ | Rename _ _) _ => False
  | _ => True
  end.

Definition removes_only (nome : string) (e : event) : Prop :=
  match e with
  | EvFtp _ (Delete f) _ => f = nome
  | EvFtp _ (Rename _ _) _ => False
  | _ => True
  end.

(** The claim of the design document, on the model server: every remote
    file and every local file there was before is still there after. *)
Definition additive (antes depois : Server.tree) (d d' : gmap string string) : Prop :=
  (∀ f, is_Some (Server.files antes !! f) → is_Some (Server.files depois !! f)) ∧
  (∀ p, is_Some (d !! p) → is_Some (d' !! p)).

(** A server that answers neither SIZE nor LIST usefully, with an older
    [a.xml] already at the destination. *)
Definition env_sem_tamanho : Environment :=
  Server.with_faults
    (λ _ _ c, match c with
              | Size _ => Some (RExc error_perm)
              | Retrlines _ _ => Some (RLines [])
              | _ => None
              end)
    Server.env.

Definition mundo_envio_repetido : @world env_sem_tamanho :=
  @World env_sem_tamanho
    (Server.make_tree ["/XML"; "/XML/CTE"] [("/XML/CTE/a.xml", "<old/>")], 0)
    {[ "C:\send\a.xml" := "<new/>" ]} ∅ [].

Definition run_envio_repetido : res (option nat * Send.info) * @world env_sem_tamanho :=
  @Send.enviar_para_ftp env_sem_tamanho None "C:\send\a.xml" "a.xml" 3
    mundo_envio_repetido.

(** *** The local disk *)

Section DiskFrame.
Context `{Environment}.

Variable Rd : gmap string string → gmap string string → Prop.
Hypothesis Rd_refl : ∀ d, Rd d d.
Hypothesis Rd_trans : ∀ d1 d2 d3, Rd d1 d2 → Rd d2 d3 → Rd d1 d3.

(** [keeps m]: the disk after [m] is related to the disk before. *)
Definition keeps {A} (m : M A) : Prop := ∀ w, Rd (disk w) (disk (m w).2).

Lemma keeps_ret {A} (a : A) : keeps (mret a).
Proof using Rd_refl. intros w. apply Rd_refl. Qed.

Lemma keeps_raise {A} e : keeps (raise e : M A).
Proof using Rd_refl. intros w. apply Rd_refl. Qed.

Lemma keeps_bind {A B} (m : M A) (f : A → M B) :
  keeps m → (∀ a, keeps (f a)) → keeps (m ≫= f).
Proof using Rd_trans.
  intros Hm Hf w. rewrite run_bind. specialize (Hm w).
  destruct (m w) as [[a|e] w1]; [|done].
  eapply Rd_trans; [exact Hm|apply Hf].
Qed.

Lemma keeps_try_except {A} (m : M A) h :
  keeps m → (∀ e k, h e = Some k → keeps k) → keeps (try_except m h).
Proof using Rd_trans.
  intros Hm Hh w. unfold try_except. specialize (Hm w).
  destruct (m w) as [[a|e] w1]; [done|].
  destruct (h e) as [k|] eqn:Hk; [|done].
  eapply Rd_trans; [exact Hm|by eapply Hh].
Qed.

Lemma keeps_try_any {A} (m k : M A) :
  keeps m → keeps k → keeps (try_except m (any_exc k)).
Proof using Rd_trans. intros Hm Hk. apply keeps_try_except; [done|]. by intros e k' [= <-]. Qed.

Lemma keeps_try_perm {A} (m k : M A) :
  keeps m → keeps k → keeps (try_except m (only_perm k)).
Proof using Rd_trans.
  intros Hm Hk. apply keeps_try_except; [done|].
  intros e k' Hk'. destruct e; simplify_eq/=. done.
Qed.

Lemma keeps_same {A} (m : M A) : (∀ w, disk (m w).2 = disk w) → keeps m.
Proof using Rd_refl. intros Hm w. rewrite Hm. apply Rd_refl. Qed.

Lemma keeps_call ftp c : keeps (call ftp c).
Proof using Rd_refl.
  apply keeps_same. intros w. unfold call. destruct ftp; [|done].
  destruct (ftp_step _ _ _) as [[] ?]; done.
Qed.

Lemma keeps_call_ ftp c : keeps (call_ ftp c).
Proof using Rd_refl Rd_trans.
  unfold call_. apply keeps_bind; [apply keeps_call|]. intros. apply keeps_ret.
Qed.

Lemma keeps_sleep d : keeps (sleep d).
Proof using Rd_refl. by apply keeps_same. Qed.
Lemma keeps_log e : keeps (log e).
Proof using Rd_refl. by apply keeps_same. Qed.
Lemma keeps_FTPSClient : keeps FTPSClient.
Proof using Rd_refl. by apply keeps_same. Qed.
Lemma keeps_get_modo ftp : keeps (get_modo ftp).
Proof using Rd_refl. apply keeps_same. intros w. by destruct ftp. Qed.
Lemma keeps_set_modo ftp f : keeps (set_modo ftp f).
Proof using Rd_refl. apply keeps_same. intros w. by destruct ftp. Qed.
Lemma keeps_path_exists p : keeps (path_exists p).
Proof using Rd_refl. by apply keeps_same. Qed.
Lemma keeps_read_file p : keeps (read_file p).
Proof using Rd_refl.
  apply keeps_same. intros w. unfold read_file. by destruct (disk w !! p).
Qed.
Lemma keeps_time_now : keeps time_now.
Proof using Rd_refl.
  apply keeps_same. intros w. unfold time_now. by destruct (time_step (srv w)).
Qed.

(** The one path that may be written and removed. *)
Variable alvo : string.
Hypothesis Rd_write : ∀ d x, Rd d (<[alvo := x]> d).
Hypothesis Rd_delete : ∀ d, Rd d (delete alvo d).

Lemma keeps_write_file x : keeps (write_file alvo x).
Proof using Rd_write. intros w. apply Rd_write. Qed.

Lemma keeps_os_remove : keeps (os_remove alvo).
Proof using Rd_refl Rd_delete.
  intros w. unfold os_remove. destruct (disk w !! alvo); [apply Rd_delete|apply Rd_refl].
Qed.

Ltac keeps_go :=
  repeat first
    [ apply keeps_ret | apply keeps_raise | apply keeps_call_ | apply keeps_call
    | apply keeps_sleep | apply keeps_log | apply keeps_FTPSClient
    | apply keeps_get_modo | apply keeps_set_modo | apply keeps_path_exists
    | apply keeps_read_file | apply keeps_time_now
    | apply keeps_write_file | apply keeps_os_remove
    | apply keeps_bind; [|intros]
    | apply keeps_try_any
    | apply keeps_try_perm
    | progress unfold_ftp
    | match goal with
      | |- keeps (match ?x with _ => _ end) => destruct x
      | |- keeps (if ?x then _ else _) => destruct x
      | |- keeps (let '(_, _) := ?x in _) => destruct x
      end ].

Lemma keeps_etapa_download ftp nome backoff cache :
  keeps (Receive.etapa_download ftp nome alvo backoff cache).
Proof using Rd_refl Rd_trans Rd_write Rd_delete.
  unfold Receive.etapa_download, Receive._force_type_i_and_tls.
  apply keeps_try_except; [keeps_go|].
  intros e k [= <-]. destruct e; keeps_go.
Qed.

Lemma keeps_criar_partes ftp atual partes :
  keeps (Send.criar_partes ftp atual partes).
Proof using Rd_refl Rd_trans.
  revert atual. induction partes as [|p partes IH]; intros atual; simpl; [keeps_go|].
  apply keeps_bind; [keeps_go|]. intros. apply IH.
Qed.

Lemma keeps_send_conectar_ftp : keeps Send.conectar_ftp.
Proof using Rd_refl Rd_trans.
  unfold Send.conectar_ftp, Send.criar_diretorios_remotos.
  apply keeps_try_any; [|keeps_go].
  do 8 (apply keeps_bind; [keeps_go|]; intros).
  apply keeps_bind; [|keeps_go].
  apply keeps_try_perm; [keeps_go|].
  apply keeps_bind; [apply keeps_criar_partes|]. intros. keeps_go.
Qed.

Lemma keeps_send_garantir_conexao ftp : keeps (Send.garantir_conexao ftp).
Proof using Rd_refl Rd_trans.
  unfold Send.garantir_conexao. destruct ftp; [|apply keeps_send_conectar_ftp].
  apply keeps_try_any; [keeps_go|].
  apply keeps_bind; [keeps_go|]. intros. apply keeps_send_conectar_ftp.
Qed.

Lemma keeps_tentativa_envio ftp caminho nome tam tentativa p b i :
  keeps (Send.tentativa_envio ftp caminho nome tam tentativa p b i).
Proof using Rd_refl Rd_trans.
  unfold Send.tentativa_envio, Send.configurar_transferencia,
    Send.verificar_arquivo_remoto, Send.falha_envio.
  apply keeps_try_except.
  - do 3 (apply keeps_bind; [keeps_go|]; intros).
    case_bool_decide; [keeps_go|].
    apply keeps_try_except; [keeps_go|].
    intros e k Hk. destruct e; simplify_eq/=; keeps_go.
  - intros e k [= <-]. keeps_go.
Qed.

Lemma keeps_enviar_loop n tentativa ftp caminho nome tam i :
  keeps (Send.enviar_loop n tentativa ftp caminho nome tam i).
Proof using Rd_refl Rd_trans.
  revert tentativa ftp i. induction n as [|n IH]; intros tentativa ftp i;
    cbn [Send.enviar_loop]; [keeps_go|].
  destruct (Send.modo_da_tentativa tentativa) as [p b].
  apply keeps_bind; [keeps_go|]. intros _.
  apply keeps_bind; [apply keeps_send_garantir_conexao|]. intros [h|]; [|keeps_go].
  apply keeps_bind; [apply keeps_tentativa_envio|].
  intros [[x|] [ftp' i']]; [keeps_go|].
  apply keeps_bind; [keeps_go|]. intros. apply IH.
Qed.

Lemma keeps_enviar_para_ftp ftp caminho nome max :
  keeps (Send.enviar_para_ftp ftp caminho nome max).
Proof using Rd_refl Rd_trans.
  unfold Send.enviar_para_ftp.
  apply keeps_bind; [keeps_go|]. intros [|]; simpl; [|keeps_go].
  apply keeps_bind; [keeps_go|]. intros. apply keeps_enviar_loop.
Qed.

End DiskFrame.

Section TransferFrame.
Context `{Environment}.

Lemma conn_no_removal e : ev_conn e → no_remote_removal e.
Proof. by destruct e as [? [] ?| | | | | |]. Qed.

Lemma conn_removes_only nome e : ev_conn e → removes_only nome e.
Proof. by destruct e as [? [] ?| | | | | |]. Qed.

Lemma emits_etapa_download_no_removal ftp nome caminho_local backoff cache :
  emits no_remote_removal
    (Receive.etapa_download ftp nome caminho_local backoff cache).
Proof.
  pose proof (emits_force_type_i_and_tls no_remote_removal conn_no_removal ftp)
    as Hforce.
  unfold Receive.etapa_download. apply emits_try_except.
  - apply emits_bind; [done|]. intros. destruct cache; emits_go conn_no_removal.
  - intros e k [= <-]. destruct e; emits_go conn_no_removal; done.
Qed.

(** C4, as the code has it. The download step of receive.py sends no
    command that removes a remote name, and leaves every local path other
    than its own target [caminho_local] as it was (the target is removed
    when the download fails). [enviar_para_ftp] of send.py leaves the local
    disk as it was, and the only remote name it asks to remove is the
    destination [nome_remoto] it has just written (when the size check
    fails). *)
Theorem transfer_removes_only_its_target :
  (∀ (ftp : option nat) (nome caminho_local : string) (backoff : Z)
     (cache : option Z) (w : world),
     ∃ t, trace (Receive.etapa_download ftp nome caminho_local backoff cache w).2
            = trace w ++ t ∧
          Forall no_remote_removal t ∧
          ∀ p, p ≠ caminho_local →
               disk (Receive.etapa_download ftp nome caminho_local backoff cache w).2 !! p
                 = disk w !! p) ∧
  (∀ (ftp : option nat) (caminho nome_remoto : string) (max : Z) (w : world),
     ∃ t, trace (Send.enviar_para_ftp ftp caminho nome_remoto max w).2
            = trace w ++ t ∧
          Forall (removes_only nome_remoto) t ∧
          disk (Send.enviar_para_ftp ftp caminho nome_remoto max w).2 = disk w).
Proof.
  split.
  - intros ftp nome caminho_local backoff cache w.
    destruct (emits_etapa_download_no_removal ftp nome caminho_local backoff cache w)
      as (t & Ht & Hall).
    exists t. split; [done|]. split; [done|].
    pose proof (keeps_etapa_download
                  (λ d d', ∀ p, p ≠ caminho_local → d' !! p = d !! p)) as Hk.
    intros p Hp. apply (Hk ltac:(done)); [..|done].
    + intros d1 d2 d3 H12 H23 q Hq. by rewrite H23, H12.
    + intros d x q Hq. by rewrite lookup_insert_ne.
    + intros d q Hq. by rewrite lookup_delete_ne.
  - intros ftp caminho nome_remoto max w.
    destruct (emits_enviar_para_ftp (removes_only nome_remoto)
                (conn_removes_only nome_remoto) ltac:(done) nome_remoto
                ltac:(done) ltac:(done) ltac:(done) ltac:(done) ftp caminho max w)
      as (t & Ht & Hall).
    exists t. split; [done|]. split; [done|].
    symmetry. apply (keeps_enviar_para_ftp eq); [done|]. by intros ??? -> ->.
Qed.

End TransferFrame.

(** C4 as stated fails on send.py: with no usable answer to SIZE and LIST
    the size check of [enviar_para_ftp] fails, and the destination is
    removed after each of the three uploads; the [a.xml] that was on the
    server before the call is gone after it. *)
Lemma store_removes_existing_remote_file :
  ¬ additive (srv mundo_envio_repetido).1 (srv run_envio_repetido.2).1
             (disk mundo_envio_repetido) (disk run_envio_repetido.2).
Proof.
  intros [Hf _]. destruct (Hf ["XML"; "CTE"; "a.xml"]) as [x Hx].
  - vm_compute. eauto.
  - vm_compute in Hx. discriminate.
Qed.

(** ** Directory provisioning on the model server *)

(** The path prefixes [atual/p1], [atual/p1/p2], ... the loops go through. *)
Fixpoint prefixos (atual : string) (partes : list string) : list string :=
  match partes with
  | [] => []
  | p :: resto =>
      let atual := atual +:+ "/" +:+ p in
      atual :: prefixos atual resto
  end.

Definition is_mkd (e : event) : bool :=
  match e with EvFtp _ (Mkd _) _ => true | _ => false end.

Module ServerFacts.
Import Server.

Definition alive (h : nat) (t : tree) : Prop := is_Some (sessions t !! h).

(** Same directories and files. *)
Definition same_tree (t t' : tree) : Prop :=
  dirs t' = dirs t ∧ files t' = files t.

(** When MKD is refused. *)
Definition blocked (t : tree) (d : list string) : bool :=
  is_dir t d || is_file t d || negb (is_dir t (removelast d)).

Definition mkd_tree (t : tree) (d : list string) : tree :=
  if blocked t d then t
  else Tree ({[d]} ∪ dirs t) (files t) (sessions t) (clock t).

Definition mkd_reply (t : tree) (d : list string) : reply :=
  if blocked t d then RExc error_perm else ROk.

(** The tree after a sequence of MKD, and the events of the sequence. *)
Fixpoint mkd_run (t : tree) (ds : list (list string)) : tree :=
  match ds with
  | [] => t
  | d :: ds => mkd_run (mkd_tree t d) ds
  end.

Fixpoint mkd_events (h : nat) (t : tree) (ps : list string) : list event :=
  match ps with
  | [] => []
  | a :: ps =>
      EvFtp h (Mkd a) (mkd_reply t (segments a))
      :: mkd_events h (mkd_tree t (segments a)) ps
  end.

(** Each path of the list extends the one before. *)
Fixpoint chain (d : list string) (ds : list (list string)) : Prop :=
  match ds with
  | [] => True
  | d' :: ds => (∃ x, d' = d ++ x) ∧ chain d' ds
  end.

Lemma split_nonempty sep s : split sep s ≠ [].
Proof.
  induction s as [|c r IH]; simpl; [done|].
  destruct (decide (c = sep)); [done|]. by destruct (split sep r).
Qed.

Lemma split_app_sep sep a b :
  split sep (a +:+ String sep b) = split sep a ++ split sep b.
Proof.
  induction a as [|c r IH]; simpl.
  - by rewrite decide_True.
  - destruct (decide (c = sep)); [by rewrite IH|].
    rewrite IH. pose proof (split_nonempty sep r). by destruct (split sep r).
Qed.

Lemma segments_app a p : segments (a +:+ "/" +:+ p) = segments a ++ segments p.
Proof.
  unfold segments. change ("/" +:+ p) with (String "/"%char p).
  by rewrite split_app_sep, List.filter_app.
Qed.

Lemma is_abs_app a p : a = "" ∨ is_abs a = true → is_abs (a +:+ "/" +:+ p) = true.
Proof. intros [->|Ha]; [done|]. by destruct a. Qed.

Lemma chain_prefixos atual partes :
  chain (segments atual) (segments <$> prefixos atual partes).
Proof.
  revert atual. induction partes as [|p partes IH]; intros atual; simpl; [done|].
  split; [|apply IH]. rewrite segments_app. eauto.
Qed.

Lemma mkd_tree_grows t d : dirs t ⊆ dirs (mkd_tree t d).
Proof. unfold mkd_tree. destruct (blocked t d); simpl; set_solver. Qed.

Lemma mkd_tree_files t d : files (mkd_tree t d) = files t.
Proof. unfold mkd_tree. by destruct (blocked t d). Qed.

Lemma mkd_tree_sessions t d : sessions (mkd_tree t d) = sessions t.
Proof. unfold mkd_tree. by destruct (blocked t d). Qed.

Lemma mkd_run_grows t ds : dirs t ⊆ dirs (mkd_run t ds).
Proof.
  revert t. induction ds as [|d ds IH]; intros t; simpl; [done|].
  etrans; [apply (mkd_tree_grows t d)|apply IH].
Qed.

Lemma mkd_run_files t ds : files (mkd_run t ds) = files t.
Proof.
  revert t. induction ds as [|d ds IH]; intros t; simpl; [done|].
  by rewrite IH, mkd_tree_files.
Qed.

Lemma mkd_run_sessions t ds : sessions (mkd_run t ds) = sessions t.
Proof.
  revert t. induction ds as [|d ds IH]; intros t; simpl; [done|].
  by rewrite IH, mkd_tree_sessions.
Qed.

Lemma mkd_run_dirs t ds x :
  x ∈ dirs (mkd_run t ds) → x ∈ dirs t ∨ x ∈ ds.
Proof.
  revert t. induction ds as [|d ds IH]; intros t; simpl; [by left|].
  intros [Hx|Hx]%IH; [|right; by right].
  unfold mkd_tree in Hx. destruct (blocked t d); [by left|].
  simpl in Hx. apply elem_of_union in Hx as [->%elem_of_singleton|Hx];
    [right; by left|by left].
Qed.

Lemma chain_length d ds x : chain d ds → x ∈ ds → length d ≤ length x.
Proof.
  revert d. induction ds as [|d' ds IH]; intros d; simpl; [by intros _ ?%elem_of_nil|].
  intros [[y ->] Hc] [->|Hx]%elem_of_cons.
  - rewrite length_app. lia.
  - specialize (IH _ Hc Hx). rewrite length_app in IH. lia.
Qed.

Lemma is_dir_grows t t' d : dirs t ⊆ dirs t' → is_dir t d → is_dir t' d.
Proof.
  unfold is_dir. intros Hsub. rewrite !orb_True, !bool_decide_spec.
  intros [?|?]; [by left|right]. by apply Hsub.
Qed.

(** After the sequence, every path of the sequence is refused. *)
Lemma mkd_run_blocked t d0 ds d :
  chain d0 ds → d ∈ ds → blocked (mkd_run t ds) d.
Proof.
  revert t d0. induction ds as [|d1 ds IH]; intros t d0; simpl;
    [by intros _ ?%elem_of_nil|].
  intros [_ Hc] [->|Hd]%elem_of_cons; [|by eapply IH].
  unfold blocked. rewrite !orb_True.
  destruct (blocked t d1) eqn:Hb.
  - unfold mkd_tree. rewrite Hb. apply Is_true_true_2 in Hb. unfold blocked in Hb.
    rewrite !orb_True in Hb. destruct Hb as [[Hb|Hb]|Hb].
    + left. left. eapply is_dir_grows; [apply mkd_run_grows|done].
    + left. right. unfold is_file in *. by rewrite mkd_run_files.
    + right. rewrite negb_True in Hb |- *. intros Hdir.
      apply Hb. unfold is_dir in *. rewrite orb_True, !bool_decide_spec in Hdir.
      rewrite orb_True, !bool_decide_spec.
      destruct Hdir as [?|Hin]; [by left|].
      apply mkd_run_dirs in Hin as [?|Hin]; [by right|].
      apply (chain_length _ _ _ Hc) in Hin.
      destruct d1 as [|s d1 _] using rev_ind; [by left|].
      rewrite removelast_last, length_app in Hin. simpl in Hin. lia.
  - left. left. eapply is_dir_grows; [apply mkd_run_grows|].
    unfold mkd_tree. rewrite Hb. unfold is_dir. simpl.
    rewrite orb_True, !bool_decide_spec. right. set_solver.
Qed.

Lemma mkd_run_all_blocked t ds :
  Forall (λ d, blocked t d) ds → mkd_run t ds = t.
Proof.
  induction 1 as [|d ds Hd _ IH]; simpl; [done|].
  unfold mkd_tree. destruct (blocked t d); [done|by destruct Hd].
Qed.

Lemma mkd_run_idempotent t d0 ds :
  chain d0 ds → mkd_run (mkd_run t ds) ds = mkd_run t ds.
Proof.
  intros Hc. apply mkd_run_all_blocked, Forall_forall.
  intros d Hd. by eapply mkd_run_blocked.
Qed.

Lemma mkd_events_all_blocked h t ps :
  Forall (λ a, blocked t (segments a)) ps →
  mkd_events h t ps = (λ a, EvFtp h (Mkd a) (RExc error_perm)) <$> ps.
Proof.
  induction 1 as [|a ps Ha _ IH]; simpl; [done|].
  unfold mkd_reply, mkd_tree. destruct (blocked t (segments a)); [|by destruct Ha].
  by rewrite IH.
Qed.

Lemma step_mkd h a t :
  alive h t → is_abs a = true →
  step h (Mkd a) t = (mkd_reply t (segments a), mkd_tree t (segments a)).
Proof.
  intros [wd Hwd] Habs. unfold step, resolve. rewrite Hwd, Habs.
  unfold mkd_reply, mkd_tree, blocked.
  by destruct (is_dir t (segments a) || is_file t (segments a)
               || negb (is_dir t (removelast (segments a)))).
Qed.

End ServerFacts.

Section ProvisioningSend.
Import Server ServerFacts.
Local Existing Instance Server.env.

Lemma call__env h c (w : world) :
  call_ (Some h) c w =
    (match (step h c (srv w)).1 with RExc e => Exc e | _ => Val tt end,
     @World env (step h c (srv w)).2 (disk w) (clients w)
           (trace w ++ [EvFtp h c (step h c (srv w)).1])).
Proof.
  unfold call_. rewrite run_bind. unfold call. simpl.
  destruct (step h c (srv w)) as [[] s]; done.
Qed.

(** On a live connection [criar_partes] sends one MKD per prefix, goes on
    when it is refused, and returns. *)
Lemma criar_partes_run h atual partes (w : world) :
  alive h (srv w) → atual = "" ∨ is_abs atual = true →
  Send.criar_partes (Some h) atual partes w =
    (Val tt,
     @World env
           (mkd_run (srv w) (segments <$> prefixos atual partes)) (disk w) (clients w)
           (trace w ++ mkd_events h (srv w) (prefixos atual partes))).
Proof.
  revert atual w. induction partes as [|p partes IH]; intros atual w Halive Habs.
  { simpl. rewrite app_nil_r. by destruct w. }
  cbn [Send.criar_partes prefixos fmap list_fmap mkd_run mkd_events].
  rewrite run_bind. unfold try_except, ftp_mkd. rewrite call__env.
  rewrite step_mkd by (by try apply is_abs_app). cbn [fst snd].
  set (a := atual +:+ "/" +:+ p).
  set (w1 := @World env (mkd_tree (srv w) (segments a)) (disk w) (clients w)
               (trace w ++ [EvFtp h (Mkd a) (mkd_reply (srv w) (segments a))])).
  assert (Hnext : Send.criar_partes (Some h) a partes w1 =
            (Val tt,
             @World env
                   (mkd_run (mkd_tree (srv w) (segments a)) (segments <$> prefixos a partes))
                   (disk w) (clients w)
                   (trace w ++ EvFtp h (Mkd a) (mkd_reply (srv w) (segments a))
                             :: mkd_events h (mkd_tree (srv w) (segments a))
                                  (prefixos a partes)))).
  { rewrite IH.
    - subst w1. cbn [srv disk clients trace]. by rewrite <-app_assoc.
    - subst w1. cbn [srv]. unfold alive. by rewrite mkd_tree_sessions.
    - right. by apply is_abs_app. }
  unfold mkd_reply at 1. destruct (blocked (srv w) (segments a)); simpl; exact Hnext.
Qed.

End ProvisioningSend.

(** *** Invariants of the server state *)

Section Stable.
Context `{Environment}.

(** [I] holds of the server state after [m] when it held before. *)
Definition stable {A} (I : env_state → Prop) (m : M A) : Prop :=
  ∀ w, I (srv w) → I (srv (m w).2).

Variable I : env_state → Prop.
Variable allowed : cmd → Prop.
Hypothesis I_step : ∀ h c s, allowed c → I s → I (ftp_step h c s).2.
Hypothesis I_sleep : ∀ d s, I s → I (sleep_step d s).
Hypothesis I_time : ∀ s, I s → I (time_step s).2.

Lemma stable_ret {A} (a : A) : stable I (mret a).
Proof. by intros w. Qed.

Lemma stable_raise {A} e : stable I (raise e : M A).
Proof. by intros w. Qed.

Lemma stable_bind {A B} (m : M A) (f : A → M B) :
  stable I m → (∀ a, stable I (f a)) → stable I (m ≫= f).
Proof.
  intros Hm Hf w Hw. rewrite run_bind. specialize (Hm w Hw).
  destruct (m w) as [[a|e] w1]; [by apply Hf|done].
Qed.

Lemma stable_try_except {A} (m : M A) h :
  stable I m → (∀ e k, h e = Some k → stable I k) → stable I (try_except m h).
Proof.
  intros Hm Hh w Hw. unfold try_except. specialize (Hm w Hw).
  destruct (m w) as [[a|e] w1]; [done|].
  destruct (h e) as [k|] eqn:Hk; [|done]. by eapply Hh.
Qed.

Lemma stable_try_any {A} (m k : M A) :
  stable I m → stable I k → stable I (try_except m (any_exc k)).
Proof. intros Hm Hk. apply stable_try_except; [done|]. by intros e k' [= <-]. Qed.

Lemma stable_same {A} (m : M A) : (∀ w, srv (m w).2 = srv w) → stable I m.
Proof. intros Hm w Hw. by rewrite Hm. Qed.

Lemma stable_call ftp c : allowed c → stable I (call ftp c).
Proof using I_step.
  intros Hc w Hw. unfold call. destruct ftp as [h|]; [|done].
  pose proof (I_step h c (srv w) Hc Hw) as Hs.
  destruct (ftp_step h c (srv w)) as [[] s]; done.
Qed.

Lemma stable_call_ ftp c : allowed c → stable I (call_ ftp c).
Proof using I_step.
  intros Hc. unfold call_. apply stable_bind; [by apply stable_call|].
  intros. apply stable_ret.
Qed.

Lemma stable_sleep d : stable I (sleep d).
Proof using I_sleep. intros w Hw. by apply I_sleep. Qed.

Lemma stable_time_now : stable I time_now.
Proof using I_time.
  intros w Hw. unfold time_now. pose proof (I_time _ Hw) as Ht.
  by destruct (time_step (srv w)).
Qed.

Lemma stable_FTPSClient : stable I FTPSClient.
Proof. by apply stable_same. Qed.
Lemma stable_get_modo ftp : stable I (get_modo ftp).
Proof. apply stable_same. intros w. by destruct ftp. Qed.
Lemma stable_set_modo ftp f : stable I (set_modo ftp f).
Proof. apply stable_same. intros w. by destruct ftp. Qed.

Ltac stable_go :=
  repeat first
    [ apply stable_ret | apply stable_raise
    | apply stable_call_; first [done | assumption | auto]
    | apply stable_call; first [done | assumption | auto]
    | apply stable_sleep | apply stable_time_now | apply stable_FTPSClient
    | apply stable_get_modo | apply stable_set_modo
    | apply stable_bind; [|intros]
    | apply stable_try_any
    | progress unfold_ftp
    | match goal with
      | |- stable _ (match ?x with _ => _ end) => destruct x
      | |- stable _ (if ?x then _ else _) => destruct x
      | |- stable _ (let '(_, _) := ?x in _) => destruct x
      end ].

(** Connection management. *)
Hypothesis allowed_conn :
  ∀ c, match c with
       | Connect _ _ | Auth | Login _ _ | Sendcmd _ | ProtP | ProtC | Voidcmd _
       | Cwd _ | Pwd | QuitCmd | Close => allowed c
       | _ => True
       end.

Local Hint Extern 1 (allowed ?c) =>
  exact (allowed_conn c) : core.

Lemma stable_tentar_modos ftp ms : stable I (Receive.tentar_modos ftp ms).
Proof using I_step allowed_conn.
  induction ms as [|[nm [p b]] ms IH]; simpl; [apply stable_ret|].
  apply stable_bind.
  - unfold Receive.configurar_transferencia. apply stable_try_any; stable_go.
  - intros [f|]; [apply stable_ret|apply IH].
Qed.

Lemma stable_conectar_ftp : stable I Receive.conectar_ftp.
Proof using I_step allowed_conn.
  unfold Receive.conectar_ftp.
  do 5 (apply stable_bind; [stable_go|]; intros).
  apply stable_tentar_modos.
Qed.

Lemma stable_garantir_conexao ftp : stable I (Receive.garantir_conexao ftp).
Proof using I_step allowed_conn.
  unfold Receive.garantir_conexao. apply stable_try_except.
  - destruct ftp; [|apply stable_conectar_ftp].
    apply stable_try_any; [stable_go|].
    apply stable_bind; [stable_go|]. intros. apply stable_conectar_ftp.
  - intros e k Hk.
    destruct e; simplify_eq/=;
      (apply stable_bind; [destruct ftp; stable_go|intros; apply stable_conectar_ftp]).
Qed.

(** Directory provisioning, which also creates. *)
Hypothesis allowed_mkd : ∀ d, allowed (Mkd d).

Lemma stable_assegurar_segmento n pausa ftp atual :
  stable I (Receive.assegurar_segmento n pausa ftp atual).
Proof using I_step I_sleep allowed_conn allowed_mkd.
  revert ftp. induction n as [|n IH]; intros ftp; simpl; [apply stable_ret|].
  apply stable_bind.
  - apply stable_try_any; [stable_go|].
    apply stable_try_except; [stable_go|].
    intros e k Hk. destruct e; simplify_eq/=;
      first [ apply stable_try_any; stable_go
            | apply stable_bind; [apply stable_garantir_conexao|intros; apply stable_ret] ].
  - intros [ftp' [|]]; [apply stable_ret|].
    apply stable_bind; [apply stable_sleep|]. intros. apply IH.
Qed.

Lemma stable_assegurar_partes n pausa ftp atual partes :
  stable I (Receive.assegurar_partes n pausa ftp atual partes).
Proof using I_step I_sleep allowed_conn allowed_mkd.
  revert ftp atual. induction partes as [|p partes IH]; intros ftp atual; simpl;
    [apply stable_ret|].
  apply stable_bind; [apply stable_assegurar_segmento|].
  intros [ftp' [|]]; [apply IH|apply stable_raise].
Qed.

End Stable.

(** *** Pre- and postconditions on worlds *)

Section Hoare.
Context `{Environment}.

Definition hoare {A} (P : world → Prop) (m : M A) (Q : res A → world → Prop) : Prop :=
  ∀ w, P w → Q (m w).1 (m w).2.

Lemma hoare_conseq {A} (P P' : world → Prop) (m : M A) (Q Q' : res A → world → Prop) :
  hoare P m Q → (∀ w, P' w → P w) → (∀ r w, Q r w → Q' r w) → hoare P' m Q'.
Proof. intros Hm HP HQ w Hw. apply HQ, Hm, HP, Hw. Qed.

Lemma hoare_ret {A} (P : world → Prop) (a : A) (Q : res A → world → Prop) :
  (∀ w, P w → Q (Val a) w) → hoare P (mret a) Q.
Proof. intros HQ w Hw. by apply HQ. Qed.

Lemma hoare_bind {A B} (P : world → Prop) (m : M A) (f : A → M B) Qm
    (Q : res B → world → Prop) :
  hoare P m Qm →
  (∀ a, hoare (Qm (Val a)) (f a) Q) →
  (∀ e w, Qm (Exc e) w → Q (Exc e) w) →
  hoare P (m ≫= f) Q.
Proof.
  intros Hm Hf He w Hw. rewrite run_bind. specialize (Hm w Hw).
  destruct (m w) as [[a|e] w1]; simpl in *; [by apply Hf|by apply He].
Qed.

Lemma hoare_try_except {A} (P : world → Prop) (m : M A) h Qm
    (Q : res A → world → Prop) :
  hoare P m Qm →
  (∀ a w, Qm (Val a) w → Q (Val a) w) →
  (∀ e, match h e with
        | Some k => hoare (Qm (Exc e)) k Q
        | None => ∀ w, Qm (Exc e) w → Q (Exc e) w
        end) →
  hoare P (try_except m h) Q.
Proof.
  intros Hm Hv Hh w Hw. unfold try_except. specialize (Hm w Hw).
  destruct (m w) as [[a|e] w1]; simpl in *; [by apply Hv|].
  specialize (Hh e). destruct (h e) as [k|]; [by apply Hh|by apply Hh].
Qed.

Lemma hoare_any {A} (P : world → Prop) (m : M A) : hoare P m (λ _ _, True).
Proof. done. Qed.

End Hoare.

Section ProvisioningReceive.
Import Server ServerFacts.
Local Existing Instance Server.env.

(** The tree only gains directories. *)
Definition grows (t0 t : tree) : Prop :=
  dirs t0 ⊆ dirs t ∧ files t = files t0.

(** The variable [ftp] holds a client whose connection is open. *)
Definition live (ftp : option nat) (t : tree) : Prop :=
  ∃ h, ftp = Some h ∧ alive h t.

Lemma grows_refl t : grows t t.
Proof. done. Qed.

Lemma step_grows t0 h c t : cmd_infra c → grows t0 t → grows t0 (step h c t).2.
Proof.
  intros Hc [Hd Hf]. destruct c; try done; unfold step; simpl;
    try (destruct (sessions t !! h); simpl; try done).
  - by destruct (is_dir t _).
  - destruct (_ || _); simpl; [done|]. split; [set_solver|done].
  - by destruct (files t !! _).
Qed.

Lemma step_same t0 h c t :
  cmd_infra c → (∀ d, c ≠ Mkd d) → same_tree t0 t → same_tree t0 (step h c t).2.
Proof.
  intros Hc Hm [Hd Hf]. destruct c; try done; try (exfalso; by eapply Hm);
    unfold step; simpl; try (destruct (sessions t !! h); simpl; try done).
  - by destruct (is_dir t _).
  - by destruct (files t !! _).
Qed.

Lemma is_dir_with_session h wd t d :
  is_dir (with_session h wd t) d = is_dir t d.
Proof. done. Qed.

Lemma hoare_cwd_ok ftp a :
  is_abs a = true →
  hoare (λ _, True) (ftp_cwd ftp a)
        (λ r w', r = Val tt → is_dir (srv w') (segments a) ∧ live ftp (srv w')).
Proof.
  intros Habs w _. destruct ftp as [h|]; [|by intros [=]].
  unfold ftp_cwd. rewrite call__env. cbn [fst snd srv].
  unfold step, resolve. rewrite Habs.
  destruct (sessions (srv w) !! h) as [wd|] eqn:Hs; [|by intros [=]].
  destruct (is_dir (srv w) (segments a)) eqn:Hd; simpl; [|by intros [=]].
  intros _. split; [exact (Is_true_true_2 _ Hd)|].
  exists h. split; [done|]. unfold alive. simpl. by rewrite lookup_insert_eq.
Qed.

Lemma hoare_mkd_ok ftp a :
  is_abs a = true →
  hoare (λ _, True) (ftp_mkd ftp a)
        (λ r w', r = Val tt → is_dir (srv w') (segments a) ∧ live ftp (srv w')).
Proof.
  intros Habs w _. destruct ftp as [h|]; [|by intros [=]].
  unfold ftp_mkd. rewrite call__env. cbn [fst snd srv].
  destruct (sessions (srv w) !! h) as [wd|] eqn:Hs.
  - rewrite step_mkd by (by try (eexists; eauto)). cbn [fst snd].
    unfold mkd_reply, mkd_tree. destruct (blocked (srv w) (segments a)); [by intros [=]|].
    intros _. split.
    + unfold is_dir. simpl. rewrite orb_True, !bool_decide_spec. right. set_solver.
    + exists h. split; [done|]. unfold alive. simpl. by rewrite Hs.
  - unfold step. rewrite Hs. by intros [=].
Qed.

Definition segmento_post (a : string) (r : res (option nat * bool)) (w : world) : Prop :=
  ∀ ftp', r = Val (ftp', true) → is_dir (srv w) (segments a) ∧ live ftp' (srv w).

Lemma hoare_entrar ftp a (P : world → Prop) :
  is_abs a = true →
  hoare P (ftp_cwd ftp a ;; mret (ftp, true)) (segmento_post a).
Proof.
  intros Habs.
  eapply hoare_bind.
  - eapply hoare_conseq; [by apply hoare_cwd_ok|done|]. intros r w' Hr. exact Hr.
  - intros []. apply hoare_ret. intros w Hw ftp' [= <-]. by apply Hw.
  - by intros e w _ ftp' [=].
Qed.

Lemma hoare_criar ftp a (P : world → Prop) :
  is_abs a = true →
  hoare P (ftp_mkd ftp a ;; mret (ftp, true)) (segmento_post a).
Proof.
  intros Habs.
  eapply hoare_bind.
  - eapply hoare_conseq; [by apply hoare_mkd_ok|done|]. intros r w' Hr. exact Hr.
  - intros []. apply hoare_ret. intros w Hw ftp' [= <-]. by apply Hw.
  - by intros e w _ ftp' [=].
Qed.

Lemma hoare_assegurar_segmento n pausa ftp a (P : world → Prop) :
  is_abs a = true →
  hoare P (Receive.assegurar_segmento n pausa ftp a) (segmento_post a).
Proof.
  intros Habs. revert ftp P. induction n as [|n IH]; intros ftp P;
    cbn [Receive.assegurar_segmento].
  { apply hoare_ret. by intros w _ ftp' [=]. }
  apply (hoare_bind _ _ _ (segmento_post a)).
  - apply (hoare_try_except _ _ _ (segmento_post a)); [by apply hoare_entrar|done|].
    intros e. cbn [any_exc].
    apply (hoare_try_except _ _ _ (segmento_post a)); [by apply hoare_criar|done|].
    intros e'.
    destruct e'; try (by intros w _ ftp' [=]).
    + apply (hoare_try_except _ _ _ (segmento_post a));
        [by apply hoare_entrar|done|].
      intros e''. cbn [any_exc]. apply hoare_ret. by intros w _ ftp' [=].
    + eapply hoare_bind; [apply hoare_any| |by intros e'' w _ ftp' [=]].
      intros f. apply hoare_ret. by intros w _ ftp' [=].
    + eapply hoare_bind; [apply hoare_any| |by intros e'' w _ ftp' [=]].
      intros f. apply hoare_ret. by intros w _ ftp' [=].
    + eapply hoare_bind; [apply hoare_any| |by intros e'' w _ ftp' [=]].
      intros f. apply hoare_ret. by intros w _ ftp' [=].
  - intros [ftp1 [|]].
    + apply hoare_ret. intros w Hw ftp' [= <-]. by apply Hw.
    + eapply hoare_bind; [apply hoare_any|intros; apply IH|].
      by intros e w _ ftp' [=].
  - by intros e w _ ftp' [=].
Qed.

Lemma stable_grows_partes t0 n pausa ftp atual partes :
  @stable env _ (grows t0) (Receive.assegurar_partes n pausa ftp atual partes).
Proof.
  apply (@stable_assegurar_partes env (grows t0) (λ c, cmd_infra c)).
  - intros h c s. apply step_grows.
  - by intros d s.
  - by intros [] .
  - done.
Qed.

Lemma stable_alive_cwd h ftp p : @stable env _ (alive h) (ftp_cwd ftp p).
Proof.
  apply (@stable_call_ env (alive h) (λ c, c ≠ Close)); [|done].
  intros h' c s Hc [wd Hwd]. unfold alive.
  destruct c; try done; cbn [ftp_step env]; unfold step;
    try (destruct (sessions s !! h') eqn:Hs'; cbn [snd]; eauto);
    repeat match goal with
           | |- context [if ?b then _ else _] => destruct b
           | |- context [match files s !! ?f with _ => _ end] => destruct (files s !! f)
           end; cbn [snd sessions with_session]; eauto;
    destruct (decide (h' = h)) as [->|];
      rewrite ?lookup_insert_eq, ?lookup_insert_ne by done; eauto.
Qed.

(** When [assegurar_partes] returns, every prefix is a directory, and the
    client it returns is connected. *)
Lemma assegurar_partes_ok n pausa partes ftp atual (w : world) ftp' :
  atual = "" ∨ is_abs atual = true →
  (Receive.assegurar_partes n pausa ftp atual partes w).1 = Val ftp' →
  Forall (λ a, is_dir (srv (Receive.assegurar_partes n pausa ftp atual partes w).2)
                      (segments a))
         (prefixos atual partes) ∧
  (partes ≠ [] →
   live ftp' (srv (Receive.assegurar_partes n pausa ftp atual partes w).2)).
Proof.
  revert ftp atual w. induction partes as [|p partes IH]; intros ftp atual w Habs Hval.
  { split; [constructor|done]. }
  cbn [Receive.assegurar_partes prefixos] in *. set (a := atual +:+ "/" +:+ p) in *.
  assert (Ha : is_abs a = true) by (by apply is_abs_app).
  rewrite run_bind in Hval |- *.
  pose proof (hoare_assegurar_segmento n pausa ftp a (λ _, True) Ha w I) as Hseg.
  destruct (Receive.assegurar_segmento n pausa ftp a w) as [[[ftp1 ok]|e] w1];
    [|done].
  destruct ok; [|done].
  destruct (Hseg ftp1 eq_refl) as [Hdir Hlive]. clear Hseg.
  destruct (IH ftp1 a w1 (or_intror Ha) Hval) as [Hall Hl].
  pose proof (stable_grows_partes (srv w1) n pausa ftp1 a partes w1 (grows_refl _))
    as [Hsub _].
  split.
  - constructor; [|done]. by eapply is_dir_grows.
  - intros _. destruct partes as [|p' partes]; [|by apply Hl].
    simpl in Hval |- *. by simplify_eq.
Qed.

Lemma step_cwd_ok h a t :
  alive h t → is_abs a = true → is_dir t (segments a) →
  step h (Cwd a) t = (ROk, with_session h (segments a) t).
Proof.
  intros [wd Hwd] Habs Hdir. unfold step, resolve. rewrite Hwd, Habs.
  by destruct (is_dir t (segments a)).
Qed.

(** When every prefix is a directory, [assegurar_partes] enters each of
    them at the first try, and creates nothing. *)
Lemma assegurar_partes_existing n pausa h partes atual (w : world) :
  alive h (srv w) → atual = "" ∨ is_abs atual = true →
  Forall (λ a, is_dir (srv w) (segments a)) (prefixos atual partes) →
  ∃ w' t, Receive.assegurar_partes (S n) pausa (Some h) atual partes w
            = (Val (Some h), w') ∧
          same_tree (srv w) (srv w') ∧ alive h (srv w') ∧
          trace w' = trace w ++ t ∧ Forall (λ e, is_mkd e = false) t.
Proof.
  revert atual w. induction partes as [|p partes IH]; intros atual w Halive Habs Hall.
  { exists w, []. rewrite app_nil_r. repeat split; [done|constructor]. }
  cbn [Receive.assegurar_partes prefixos] in *. set (a := atual +:+ "/" +:+ p) in *.
  assert (Ha : is_abs a = true) by (by apply is_abs_app).
  apply Forall_cons in Hall as [Hdir Hall].
  cbn [Receive.assegurar_segmento].
  rewrite !run_bind. unfold try_except at 1. rewrite run_bind.
  unfold ftp_cwd. rewrite call__env, step_cwd_ok by done. cbn [fst snd].
  rewrite !run_ret.
  set (w1 := @World env (with_session h (segments a) (srv w)) (disk w) (clients w)
               (trace w ++ [EvFtp h (Cwd a) ROk])).
  destruct (IH a w1) as (w' & t & Hrun & Hsame & Hal & Ht & Hno).
  - unfold alive. subst w1. simpl. by rewrite lookup_insert_eq.
  - by right.
  - done.
  - exists w', (EvFtp h (Cwd a) ROk :: t). split; [done|].
    split; [done|]. split; [done|]. split.
    + rewrite Ht. subst w1. cbn [trace]. by rewrite <-app_assoc.
    + by constructor.
Qed.

End ProvisioningReceive.

Section ConnectionNoMkd.
Context `{Environment}.

Lemma emits_tentar_modos_no_mkd ftp ms :
  emits (λ e, is_mkd e = false) (Receive.tentar_modos ftp ms).
Proof.
  induction ms as [|[nm [p b]] ms IH]; simpl; [apply emits_ret|].
  apply emits_bind.
  - unfold Receive.configurar_transferencia. emits_go I.
  - intros [f|]; [apply emits_ret|apply IH].
Qed.

Lemma emits_conectar_ftp_no_mkd :
  emits (λ e, is_mkd e = false) Receive.conectar_ftp.
Proof.
  unfold Receive.conectar_ftp.
  do 5 (apply emits_bind; [emits_go I|]; intros).
  apply emits_tentar_modos_no_mkd.
Qed.

Lemma emits_garantir_conexao_no_mkd ftp :
  emits (λ e, is_mkd e = false) (Receive.garantir_conexao ftp).
Proof.
  unfold Receive.garantir_conexao. apply emits_try_except.
  - destruct ftp; [|apply emits_conectar_ftp_no_mkd].
    apply emits_try_any; [emits_go I|].
    apply emits_bind; [emits_go I|]. intros. apply emits_conectar_ftp_no_mkd.
  - intros e k Hk.
    destruct e; simplify_eq/=;
      (apply emits_bind;
       [destruct ftp; emits_go I|intros; apply emits_conectar_ftp_no_mkd]).
Qed.

Lemma total_tentar_modos ftp ms : total (Receive.tentar_modos ftp ms).
Proof.
  induction ms as [|[nm [p b]] ms IH]; simpl; [apply total_ret|].
  apply total_bind; [apply total_try_any, total_ret|].
  intros [f|]; [apply total_ret|apply IH].
Qed.

End ConnectionNoMkd.

Section ProvisioningTwice.
Import Server ServerFacts.
Local Existing Instance Server.env.

Lemma step_alive_ok h c t :
  alive h t →
  match c with
  | Auth | Login _ _ | Sendcmd _ | ProtP | ProtC | Voidcmd _ | QuitCmd => True
  | _ => False
  end →
  step h c t = (ROk, t).
Proof.
  intros [wd Hwd] Hc. destruct c; try done; unfold step; by rewrite Hwd.
Qed.

(** On the model server a connection is always accepted. *)
Lemma total_conectar_ftp_env : @total env _ Receive.conectar_ftp.
Proof.
  intros w. unfold Receive.conectar_ftp. rewrite run_bind. unfold FTPSClient at 1.
  set (h := fresh (dom (clients w))).
  unfold ftp_connect, ftp_auth, ftp_login, ftp_sendcmd.
  rewrite run_bind, call__env. cbn [step fst snd srv disk clients trace].
  set (t1 := with_session h [] (srv w)).
  assert (Hal : alive h t1).
  { unfold alive, t1. simpl. by rewrite lookup_insert_eq. }
  rewrite run_bind, call__env. cbn [srv disk clients trace].
  rewrite (step_alive_ok h Auth t1) by done. cbn [fst snd].
  rewrite run_bind, call__env. cbn [srv disk clients trace].
  rewrite (step_alive_ok h (Login _ _) t1) by done. cbn [fst snd].
  rewrite run_bind, call__env. cbn [srv disk clients trace].
  rewrite (step_alive_ok h (Sendcmd _) t1) by done. cbn [fst snd].
  apply total_tentar_modos.
Qed.

Lemma total_garantir_conexao_env ftp : @total env _ (Receive.garantir_conexao ftp).
Proof.
  unfold Receive.garantir_conexao.
  apply (returns_try_except (λ r, ∃ a, r = Val a)).
  - destruct ftp; [|apply total_conectar_ftp_env].
    apply total_try_any, total_bind; [apply total_try_any, total_ret|].
    intros. apply total_conectar_ftp_env.
  - eauto.
  - by intros e [a [=]].
Qed.

Definition no_mkd (e : event) : Prop := is_mkd e = false.

(** A computation that returns, sends no MKD and leaves directories and
    files as they are. *)
Definition quiet {A} (m : M A) : Prop :=
  @total env _ m ∧ emits no_mkd m ∧ ∀ t0, @stable env _ (same_tree t0) m.

Lemma quiet_run {A} (m : M A) (w : world) :
  quiet m →
  ∃ a w' t, m w = (Val a, w') ∧ same_tree (srv w) (srv w') ∧
            trace w' = trace w ++ t ∧ Forall no_mkd t.
Proof.
  intros (Htot & Hem & Hst). destruct (Htot w) as [a Ha].
  destruct (Hem w) as (t & Ht & Hall). specialize (Hst (srv w) w (conj eq_refl eq_refl)).
  destruct (m w) as [r w']. simpl in *. subst r. eauto 10.
Qed.

Definition allowed_quiet (c : cmd) : Prop := cmd_infra c ∧ ∀ d, c ≠ Mkd d.

Lemma step_allowed_quiet t0 h c s :
  allowed_quiet c → same_tree t0 s → same_tree t0 (step h c s).2.
Proof. intros [Hc Hm]. by apply step_same. Qed.

Lemma allowed_quiet_conn c :
  match c with
  | Connect _ _ | Auth | Login _ _ | Sendcmd _ | ProtP | ProtC | Voidcmd _
  | Cwd _ | Pwd | QuitCmd | Close => allowed_quiet c
  | _ => True
  end.
Proof. by destruct c. Qed.

(** Lines 173-178 of [assegurar_diretorio_remoto]: the current directory,
    or a new connection. *)
Definition diretorio_corrente (ftp : option nat) : M (option nat * string) :=
  try_except (cur ← ftp_pwd ftp; mret (ftp, cur))
    (any_exc (ftp' ← Receive.garantir_conexao ftp; mret (ftp', "/"))).

(** Lines 209-214: the working directory is restored, when possible. *)
Definition restaurar (ftp : option nat) (cur : string) : M (option nat) :=
  try_except (ftp_cwd ftp cur) (any_exc (mret tt)) ;; mret ftp.

Lemma assegurar_diretorio_remoto_unfold ftp caminho n pausa :
  Receive.assegurar_diretorio_remoto ftp caminho n pausa =
  if bool_decide (caminho = "" ∨ caminho = "/") then mret ftp
  else
    '(ftp1, cur) ← diretorio_corrente ftp;
    ftp2 ← Receive.assegurar_partes n pausa ftp1 "" (Receive.partes_de caminho);
    restaurar ftp2 cur.
Proof. reflexivity. Qed.

Lemma quiet_diretorio_corrente ftp : quiet (diretorio_corrente ftp).
Proof.
  unfold diretorio_corrente. split; [|split].
  - apply total_try_any, total_bind; [apply total_garantir_conexao_env|].
    intros. apply total_ret.
  - apply emits_try_any; [unfold no_mkd; emits_go I|].
    apply emits_bind; [apply emits_garantir_conexao_no_mkd|]. intros. apply emits_ret.
  - intros t0. apply stable_try_any.
    + apply stable_bind; [|intros; apply stable_ret]. unfold ftp_pwd.
      apply stable_bind.
      * apply (@stable_call env (same_tree t0) allowed_quiet);
          [apply step_allowed_quiet|done].
      * intros []; first [apply stable_ret|apply stable_raise].
    + apply stable_bind; [|intros; apply stable_ret].
      apply (@stable_garantir_conexao env (same_tree t0) allowed_quiet);
        [apply step_allowed_quiet|apply allowed_quiet_conn].
Qed.

Lemma quiet_restaurar ftp cur : quiet (restaurar ftp cur).
Proof.
  unfold restaurar. split; [|split].
  - apply total_bind; [apply total_try_any, total_ret|]. intros. apply total_ret.
  - unfold no_mkd. emits_go I.
  - intros t0. apply stable_bind; [|intros; apply stable_ret].
    apply stable_try_any; [|apply stable_ret].
    apply (@stable_call_ env (same_tree t0) allowed_quiet);
      [apply step_allowed_quiet|done].
Qed.

Lemma restaurar_run ftp cur (w : world) :
  ∃ w' t, restaurar ftp cur w = (Val ftp, w') ∧ same_tree (srv w) (srv w') ∧
          (∀ h, alive h (srv w) → alive h (srv w')) ∧
          trace w' = trace w ++ t ∧ Forall no_mkd t.
Proof.
  destruct (quiet_run (restaurar ftp cur) w (quiet_restaurar ftp cur))
    as (a & w' & t & Hrun & Hsame & Ht & Hall).
  assert (Hal : ∀ h, @stable env _ (alive h) (restaurar ftp cur)).
  { intros h. unfold restaurar. apply stable_bind; [|intros; apply stable_ret].
    apply stable_try_any; [apply stable_alive_cwd|apply stable_ret]. }
  assert (a = ftp) as ->.
  { revert Hrun. unfold restaurar. rewrite run_bind.
    destruct (try_except _ _ w) as [[[]|e] w1]; by intros [=]. }
  exists w', t. split; [done|]. split; [done|]. split; [|done].
  intros h Hh. specialize (Hal h w Hh). by rewrite Hrun in Hal.
Qed.

Lemma diretorio_corrente_alive h (w : world) :
  alive h (srv w) →
  ∃ cur, diretorio_corrente (Some h) w =
           (Val (Some h, cur),
            @World env (srv w) (disk w) (clients w)
                   (trace w ++ [EvFtp h Pwd (RPath cur)])).
Proof.
  intros [wd Hwd]. exists (render wd).
  unfold diretorio_corrente, try_except, ftp_pwd. rewrite !run_bind.
  unfold call. cbn [ftp_step env]. unfold step. rewrite Hwd. done.
Qed.

End ProvisioningTwice.

Section ProvisioningTheorems.
Import Server ServerFacts.
Local Existing Instance Server.env.

Lemma assegurar_partes_sem_tentativas pausa ftp atual p partes (w : world) :
  ∃ e, (Receive.assegurar_partes 0 pausa ftp atual (p :: partes) w).1 = Exc e.
Proof. simpl. eauto. Qed.

(** The second of two calls of [assegurar_diretorio_remoto] in a row. *)
Lemma assegurar_twice ftp caminho n pausa (w : world) ftp1 :
  (Receive.assegurar_diretorio_remoto ftp caminho n pausa w).1 = Val ftp1 →
  ∃ ftp2 w2 t,
    Receive.assegurar_diretorio_remoto ftp1 caminho n pausa
      (Receive.assegurar_diretorio_remoto ftp caminho n pausa w).2 = (Val ftp2, w2) ∧
    trace w2 = trace (Receive.assegurar_diretorio_remoto ftp caminho n pausa w).2 ++ t ∧
    Forall no_mkd t ∧
    same_tree (srv (Receive.assegurar_diretorio_remoto ftp caminho n pausa w).2) (srv w2).
Proof.
  rewrite !assegurar_diretorio_remoto_unfold.
  destruct (bool_decide (caminho = "" ∨ caminho = "/")); cbv iota.
  { intros [= <-]. eexists _, _, []. split; [reflexivity|].
    split; [by rewrite app_nil_r|]. split; [constructor|done]. }
  set (partes := Receive.partes_de caminho).
  (* the first call *)
  rewrite run_bind.
  destruct (diretorio_corrente ftp w) as [[[fa cur]|e] wa]; [|done].
  rewrite run_bind.
  pose proof (assegurar_partes_ok n pausa partes fa "" wa) as Hok.
  destruct (Receive.assegurar_partes n pausa fa "" partes wa) as [[fb|e] wb] eqn:Hpartes;
    [|done].
  destruct (restaurar_run fb cur wb) as (wc & tc & Hc1 & Hsame1 & Halive1 & _ & _).
  rewrite Hc1. cbn [fst snd]. intros [= <-].
  destruct (Hok fb (or_introl eq_refl) eq_refl) as [Hdirs Hlive]. clear Hok.
  cbn [snd] in Hdirs, Hlive.
  (* the second call *)
  rewrite run_bind.
  destruct (decide (partes = [])) as [Hnil|Hnonnil].
  - (* nothing to ensure *)
    destruct (quiet_run (diretorio_corrente fb) wc (quiet_diretorio_corrente fb))
      as ([f1 cur1] & w1 & t1 & Hrun1 & Hs1 & Ht1 & Hall1).
    rewrite Hrun1, run_bind, Hnil. cbn [Receive.assegurar_partes].
    rewrite run_ret.
    destruct (restaurar_run f1 cur1 w1) as (w2 & t2 & Hrun2 & Hs2 & _ & Ht2 & Hall2).
    exists f1, w2, (t1 ++ t2). split; [done|].
    split; [by rewrite Ht2, Ht1, app_assoc|].
    split; [by apply Forall_app|].
    destruct Hs1 as [? ?], Hs2 as [? ?]. split; congruence.
  - (* every prefix is there, and the connection is open *)
    destruct (Hlive Hnonnil) as (h & -> & Hal).
    apply Halive1 in Hal.
    assert (Hdirs' : Forall (λ a, is_dir (srv wc) (segments a)) (prefixos "" partes)).
    { eapply Forall_impl; [exact Hdirs|]. intros a Ha.
      destruct Hsame1 as [Hd _]. unfold is_dir in *. by rewrite Hd. }
    destruct (diretorio_corrente_alive h wc Hal) as [cur1 Hrun1].
    rewrite Hrun1, run_bind.
    set (w1 := @World env (srv wc) (disk wc) (clients wc)
                 (trace wc ++ [EvFtp h Pwd (RPath cur1)])).
    destruct n as [|n].
    { destruct partes as [|p partes'] eqn:Hp; [done|].
      destruct (assegurar_partes_sem_tentativas pausa fa "" p partes' wa) as [e He].
      by rewrite Hpartes in He. }
    destruct (assegurar_partes_existing n pausa h partes "" w1 Hal (or_introl eq_refl) Hdirs')
      as (w2 & t2 & Hrun2 & Hs2 & Hal2 & Ht2 & Hall2).
    rewrite Hrun2.
    destruct (restaurar_run (Some h) cur1 w2) as (w3 & t3 & Hrun3 & Hs3 & _ & Ht3 & Hall3).
    exists (Some h), w3, (EvFtp h Pwd (RPath cur1) :: t2 ++ t3). split; [done|].
    split; [|split].
    + rewrite Ht3, Ht2. subst w1. cbn [trace]. by rewrite <-!app_assoc.
    + constructor; [done|]. by apply Forall_app.
    + destruct Hs2 as [? ?], Hs3 as [? ?]. subst w1. cbn [srv] in *. split; congruence.
Qed.

(** The second of two calls of [criar_diretorios_remotos] in a row. *)
Lemma criar_twice ftp caminho (w : world) :
  (Send.criar_diretorios_remotos ftp caminho w).1 = Val tt →
  ∃ h w2,
    ftp = Some h ∧
    Send.criar_diretorios_remotos ftp caminho
      (Send.criar_diretorios_remotos ftp caminho w).2 = (Val tt, w2) ∧
    trace w2 = trace (Send.criar_diretorios_remotos ftp caminho w).2 ++
               ((λ a, EvFtp h (Mkd a) (RExc error_perm)) <$>
                  prefixos "" (split "/" (strip "/" caminho))) ∧
    srv w2 = srv (Send.criar_diretorios_remotos ftp caminho w).2.
Proof.
  unfold Send.criar_diretorios_remotos. set (partes := split "/" (strip "/" caminho)).
  intros Hval.
  assert (Hlive : ∃ h, ftp = Some h ∧ alive h (srv w)).
  { pose proof (split_nonempty "/" (strip "/" caminho)) as Hne. fold partes in Hne.
    destruct partes as [|p partes']; [done|].
    revert Hval. cbn [Send.criar_partes]. rewrite run_bind. unfold try_except, ftp_mkd.
    destruct ftp as [h|]; [|done]. rewrite call__env.
    destruct (sessions (srv w) !! h) as [wd|] eqn:Hs.
    - intros _. exists h. split; [done|]. by exists wd.
    - unfold step. rewrite Hs. done. }
  destruct Hlive as (h & -> & Hal). exists h.
  rewrite (criar_partes_run h "" partes w Hal (or_introl eq_refl)) in *.
  cbn [snd].
  set (t1 := mkd_run (srv w) (segments <$> prefixos "" partes)).
  eexists. split; [done|].
  rewrite criar_partes_run; cbn [srv disk clients trace];
    [|unfold alive; subst t1; by rewrite mkd_run_sessions|by left].
  assert (Hblocked : Forall (λ a, blocked t1 (segments a)) (prefixos "" partes)).
  { apply Forall_forall. intros a Ha. subst t1.
    eapply mkd_run_blocked; [apply chain_prefixos|]. by apply list_elem_of_fmap_2. }
  split; [reflexivity|]. cbn [trace srv]. split.
  - by rewrite (mkd_events_all_blocked h t1 _ Hblocked).
  - apply mkd_run_all_blocked. by apply Forall_fmap.
Qed.

End ProvisioningTheorems.

(** The claim of the design document about a provisioning function, on the
    model server: when a call succeeds, the same call made again right
    after it, on the client the first one left ([next]), succeeds too, sends
    no MKD, and leaves directories and files as they are. *)
Definition idempotent_at {A} (ensure : option nat → @M Server.env A)
    (next : option nat → A → option nat) (ftp : option nat)
    (w : @world Server.env) : Prop :=
  ∀ a, (ensure ftp w).1 = Val a →
    ∃ a2 w2 t,
      ensure (next ftp a) (ensure ftp w).2 = (Val a2, w2) ∧
      trace w2 = trace (ensure ftp w).2 ++ t ∧
      Forall no_mkd t ∧
      ServerFacts.same_tree (srv (ensure ftp w).2) (srv w2).

(** An empty server with client 0 connected. *)
Definition mundo_conectado : @world Server.env :=
  @World Server.env (Server.Tree ∅ ∅ {[ 0 := [] ]} 0) ∅ ∅ [].

(** C9, as the code has it, on the model server. receive.py: when a call of
    [assegurar_diretorio_remoto] returns, the same call made again right
    after it, on the client the first one returned, returns too, sends no
    MKD, and leaves directories and files as they are. send.py: when a call
    of [criar_diretorios_remotos] returns, the same call made again returns
    too and leaves the server as it is, but it does send MKD again, once
    for every prefix of the path, each refused as a permission error that
    the function ignores. *)
Theorem provisioning_twice :
  (∀ (w : @world Server.env) (ftp : option nat) (caminho : string) (n : nat)
     (pausa : Q),
     idempotent_at (λ f, Receive.assegurar_diretorio_remoto f caminho n pausa)
                   (λ _ ftp1, ftp1) ftp w) ∧
  (∀ (w : @world Server.env) (ftp : option nat) (caminho : string),
     (Send.criar_diretorios_remotos ftp caminho w).1 = Val tt →
     ∃ h w2,
       ftp = Some h ∧
       Send.criar_diretorios_remotos ftp caminho
         (Send.criar_diretorios_remotos ftp caminho w).2 = (Val tt, w2) ∧
       trace w2 = trace (Send.criar_diretorios_remotos ftp caminho w).2 ++
                  ((λ a, EvFtp h (Mkd a) (RExc error_perm)) <$>
                     prefixos "" (split "/" (strip "/" caminho))) ∧
       srv w2 = srv (Send.criar_diretorios_remotos ftp caminho w).2).
Proof.
  split.
  - intros w ftp caminho n pausa ftp1 Hval. by apply assegurar_twice.
  - intros w ftp caminho Hval. by apply criar_twice.
Qed.

(** Both parts at work: on an empty server, [/XML/CTES_ENVIADOS] is
    ensured twice by receive.py and [/XML/CTE] is created twice by
    send.py. *)
Lemma provisioning_twice_witness :
  (∃ ftp2 w2 t,
     Receive.assegurar_diretorio_remoto (Some 0) "/XML/CTES_ENVIADOS" 3 1%Q
       (Receive.assegurar_diretorio_remoto (Some 0) "/XML/CTES_ENVIADOS" 3 1%Q
          mundo_conectado).2 = (Val ftp2, w2) ∧
     trace w2 = trace (Receive.assegurar_diretorio_remoto (Some 0) "/XML/CTES_ENVIADOS"
                         3 1%Q mundo_conectado).2 ++ t ∧
     Forall no_mkd t ∧
     ServerFacts.same_tree
       (srv (Receive.assegurar_diretorio_remoto (Some 0) "/XML/CTES_ENVIADOS" 3 1%Q
               mundo_conectado).2) (srv w2)) ∧
  (∃ h w2,
     Some 0 = Some h ∧
     Send.criar_diretorios_remotos (Some 0) "/XML/CTE"
       (Send.criar_diretorios_remotos (Some 0) "/XML/CTE" mundo_conectado).2
       = (Val tt, w2) ∧
     trace w2 = trace (Send.criar_diretorios_remotos (Some 0) "/XML/CTE"
                         mundo_conectado).2 ++
                ((λ a, EvFtp h (Mkd a) (RExc error_perm)) <$>
                   prefixos "" (split "/" (strip "/" "/XML/CTE"))) ∧
     srv w2 = srv (Send.criar_diretorios_remotos (Some 0) "/XML/CTE"
                     mundo_conectado).2).
Proof.
  split.
  - apply (proj1 provisioning_twice mundo_conectado (Some 0) "/XML/CTES_ENVIADOS" 3 1%Q
             (Some 0)).
    vm_compute. reflexivity.
  - apply (proj2 provisioning_twice mundo_conectado (Some 0) "/XML/CTE").
    vm_compute. reflexivity.
Defined.

(** C9 as stated fails on send.py: the second call of
    [criar_diretorios_remotos] sends MKD for [/XML] and [/XML/CTE] again. *)
Lemma criar_diretorios_remotos_creates_again :
  ¬ idempotent_at (λ f, Send.criar_diretorios_remotos f "/XML/CTE") (λ f _, f)
      (Some 0) mundo_conectado.
Proof.
  intros Hid. destruct (Hid tt) as (a2 & w2 & t & Hrun & Ht & Hall & _).
  { vm_compute. reflexivity. }
  assert (Htrace : trace w2 =
            [EvFtp 0 (Mkd "/XML") ROk; EvFtp 0 (Mkd "/XML/CTE") ROk;
             EvFtp 0 (Mkd "/XML") (RExc error_perm);
             EvFtp 0 (Mkd "/XML/CTE") (RExc error_perm)]).
  { apply (f_equal (λ x, trace x.2)) in Hrun. simpl in Hrun. rewrite <-Hrun.
    vm_compute. reflexivity. }
  assert (Hprimeira :
            trace (Send.criar_diretorios_remotos (Some 0) "/XML/CTE" mundo_conectado).2 =
            [EvFtp 0 (Mkd "/XML") ROk; EvFtp 0 (Mkd "/XML/CTE") ROk])
    by (vm_compute; reflexivity).
  cbv beta in Ht. rewrite Htrace, Hprimeira in Ht. simplify_eq/=.
  by apply Forall_cons in Hall as [? _].
Qed.

(** * Further properties of the two scripts *)

(** ** receive.py: what processing a file does to the download folder *)

Section ReceiveDiskFrame.
Context `{Environment}.
Import Receive.

Variable Rd : gmap string string → gmap string string → Prop.
Hypothesis Rd_refl : ∀ d, Rd d d.
Hypothesis Rd_trans : ∀ d1 d2 d3, Rd d1 d2 → Rd d2 d3 → Rd d1 d3.
Variable alvo : string.
Hypothesis Rd_write : ∀ d x, Rd d (<[alvo := x]> d).
Hypothesis Rd_delete : ∀ d, Rd d (delete alvo d).

Ltac frame_side :=
  first [ exact Rd_refl | exact Rd_trans | exact Rd_write | exact Rd_delete ].

Ltac frame_go :=
  repeat first
    [ apply keeps_ret; frame_side | apply keeps_raise; frame_side
    | apply keeps_call_; frame_side | apply keeps_call; frame_side
    | apply keeps_sleep; frame_side | apply keeps_log; frame_side
    | apply keeps_FTPSClient; frame_side
    | apply keeps_get_modo; frame_side | apply keeps_set_modo; frame_side
    | apply keeps_path_exists; frame_side | apply keeps_read_file; frame_side
    | apply keeps_time_now; frame_side
    | apply keeps_write_file; frame_side | apply keeps_os_remove; frame_side
    | apply keeps_bind; [frame_side| |intros]
    | apply keeps_try_any; [frame_side| |]
    | apply keeps_try_perm; [frame_side| |]
    | progress unfold_ftp
    | match goal with
      | |- keeps _ (match ?x with _ => _ end) => destruct x
      | |- keeps _ (if ?x then _ else _) => destruct x
      | |- keeps _ (let '(_, _) := ?x in _) => destruct x
      end ].

Lemma keeps_try_finally {A} (m : M A) (f : M unit) :
  keeps Rd m → keeps Rd f → keeps Rd (try_finally m f).
Proof using Rd_trans.
  intros Hm Hf w. unfold try_finally. specialize (Hm w).
  destruct (m w) as [r w1]. simpl in *.
  eapply Rd_trans; [exact Hm|apply Hf].
Qed.

Lemma keeps_tentar_modos ftp ms : keeps Rd (tentar_modos ftp ms).
Proof using Rd_refl Rd_trans.
  induction ms as [|[nome [p b]] ms IH]; simpl; [frame_go|].
  apply keeps_bind; [frame_side| |].
  - unfold configurar_transferencia. frame_go.
  - intros [f|]; [frame_go|apply IH].
Qed.

Lemma keeps_conectar_ftp : keeps Rd conectar_ftp.
Proof using Rd_refl Rd_trans.
  unfold conectar_ftp. do 5 (apply keeps_bind; [frame_side|frame_go|intros]).
  apply keeps_tentar_modos.
Qed.

Lemma keeps_garantir_conexao ftp : keeps Rd (garantir_conexao ftp).
Proof using Rd_refl Rd_trans.
  pose proof keeps_conectar_ftp as Hc.
  unfold garantir_conexao. apply keeps_try_except; [frame_side| |].
  - destruct ftp; [|done]. apply keeps_try_any; [frame_side|frame_go|].
    apply keeps_bind; [frame_side|frame_go|done].
  - intros e k Hk.
    destruct e; simplify_eq/=;
      (apply keeps_bind; [frame_side|frame_go|done]).
Qed.

Lemma keeps_force_type_i_and_tls ftp : keeps Rd (_force_type_i_and_tls ftp).
Proof using Rd_refl Rd_trans. unfold _force_type_i_and_tls. frame_go. Qed.

Lemma keeps_assegurar_segmento n pausa ftp atual :
  keeps Rd (assegurar_segmento n pausa ftp atual).
Proof using Rd_refl Rd_trans.
  revert ftp. induction n as [|n IH]; intros ftp; simpl; [frame_go|].
  apply keeps_bind; [frame_side| |].
  - apply keeps_try_any; [frame_side|frame_go|].
    apply keeps_try_except; [frame_side|frame_go|].
    intros e k Hk. destruct e; simplify_eq/=;
      first [ apply keeps_bind; [frame_side|apply keeps_garantir_conexao|intros; frame_go]
            | frame_go ].
  - intros [ftp' [|]]; [frame_go|].
    apply keeps_bind; [frame_side|frame_go|]. intros. apply IH.
Qed.

Lemma keeps_assegurar_partes n pausa ftp atual partes :
  keeps Rd (assegurar_partes n pausa ftp atual partes).
Proof using Rd_refl Rd_trans.
  revert ftp atual. induction partes as [|p partes IH]; intros ftp atual; simpl;
    [frame_go|].
  apply keeps_bind; [frame_side|apply keeps_assegurar_segmento|].
  intros [ftp' [|]]; [apply IH|frame_go].
Qed.

Lemma keeps_assegurar_diretorio_remoto ftp caminho n pausa :
  keeps Rd (assegurar_diretorio_remoto ftp caminho n pausa).
Proof using Rd_refl Rd_trans.
  unfold assegurar_diretorio_remoto. case_bool_decide; [frame_go|].
  apply keeps_bind; [frame_side| |].
  - apply keeps_try_any; [frame_side|frame_go|].
    apply keeps_bind; [frame_side|apply keeps_garantir_conexao|intros; frame_go].
  - intros [ftp1 cur].
    apply keeps_bind; [frame_side|apply keeps_assegurar_partes|intros; frame_go].
Qed.

Lemma keeps_cwd_and_size ftp caminho : keeps Rd (_cwd_and_size ftp caminho).
Proof using Rd_refl Rd_trans.
  unfold _cwd_and_size.
  apply keeps_bind; [frame_side|apply keeps_force_type_i_and_tls|intros _].
  apply keeps_bind; [frame_side|frame_go|].
  intros [sz|]; [frame_go|].
  apply keeps_try_any; [frame_side| |frame_go].
  destruct (rsplit1 _ _) as [[dirpath fname]|]; [|frame_go].
  destruct (negb _); [frame_go|].
  apply keeps_bind; [frame_side|frame_go|intros cur].
  apply keeps_try_finally; frame_go.
Qed.

Lemma keeps_remoto_confere_tamanho ftp caminho tam :
  keeps Rd (remoto_confere_tamanho ftp caminho tam).
Proof using Rd_refl Rd_trans.
  unfold remoto_confere_tamanho.
  apply keeps_bind; [frame_side|apply keeps_cwd_and_size|intros; frame_go].
Qed.

Lemma keeps_reconectar ftp :
  keeps Rd (try_except (ftp_quit ftp) (any_exc (mret tt)) ;;
            ftp' ← conectar_ftp;
            mret (match ftp' with
                  | None => Retorna (A:=option nat) (ftp', false)
                  | Some _ => Segue ftp'
                  end)).
Proof using Rd_refl Rd_trans.
  apply keeps_bind; [frame_side|frame_go|intros _].
  apply keeps_bind; [frame_side|apply keeps_conectar_ftp|intros; frame_go].
Qed.

Lemma keeps_keepalive_defensivo ftp : keeps Rd (keepalive_defensivo ftp).
Proof using Rd_refl Rd_trans.
  unfold keepalive_defensivo.
  apply keeps_try_any; [frame_side|frame_go|apply keeps_reconectar].
Qed.

Lemma keeps_reconexao_periodica ftp idx tent :
  keeps Rd (reconexao_periodica ftp idx tent).
Proof using Rd_refl Rd_trans.
  unfold reconexao_periodica. destruct (_ && _); [apply keeps_reconectar|frame_go].
Qed.

Lemma keeps_etapa_rename ftp nome destino tam :
  keeps Rd (etapa_rename ftp nome destino tam).
Proof using Rd_refl Rd_trans.
  unfold etapa_rename. apply keeps_try_any; [frame_side| |frame_go].
  do 2 (apply keeps_bind; [frame_side|frame_go|intros]).
  apply keeps_remoto_confere_tamanho.
Qed.

Lemma keeps_apos_falha ftp e : keeps Rd (apos_falha ftp e).
Proof using Rd_refl Rd_trans.
  unfold apos_falha. destruct e; first [apply keeps_force_type_i_and_tls|frame_go].
Qed.

Lemma keeps_etapa_fallback ftp nome caminho_local destino tam :
  keeps Rd (etapa_fallback ftp nome caminho_local destino tam).
Proof using Rd_refl Rd_trans.
  unfold etapa_fallback. apply keeps_bind; [frame_side| |].
  - apply keeps_try_except; [frame_side| |].
    + apply keeps_bind; [frame_side| |intros; frame_go].
      apply keeps_try_any; [frame_side|frame_go|].
      apply keeps_assegurar_diretorio_remoto.
    + intros e k [= <-].
      apply keeps_bind; [frame_side|apply keeps_apos_falha|intros; frame_go].
  - intros [ftp1|]; [|frame_go].
    apply keeps_bind; [frame_side| |intros; frame_go].
    apply keeps_try_except; [frame_side| |].
    + apply keeps_bind; [frame_side|apply keeps_force_type_i_and_tls|intros _].
      apply keeps_bind; [frame_side|frame_go|intros _].
      apply keeps_bind; [frame_side|apply keeps_remoto_confere_tamanho|].
      intros [|]; [|frame_go]. unfold apagar_original. frame_go.
    + intros e k [= <-].
      apply keeps_bind; [frame_side|apply keeps_apos_falha|intros; frame_go].
Qed.

Lemma keeps_seguir {A B} (m : M (saida A)) (k : A → M (saida B)) :
  keeps Rd m → (∀ a, keeps Rd (k a)) → keeps Rd (seguir m k).
Proof using Rd_refl Rd_trans.
  intros Hm Hk. unfold seguir. apply keeps_bind; [frame_side|done|].
  intros [x|f c|a]; [frame_go..|apply Hk].
Qed.

Lemma keeps_tentativa ftp nome idx tent backoff cache :
  keeps Rd (tentativa ftp nome alvo idx tent backoff cache).
Proof using Rd_refl Rd_trans Rd_write Rd_delete.
  unfold tentativa.
  apply keeps_seguir; [apply keeps_keepalive_defensivo|intros ftp1].
  apply keeps_seguir; [apply keeps_reconexao_periodica|intros ftp2].
  apply keeps_seguir; [by apply keeps_etapa_download|intros tam].
  cbv zeta.
  apply keeps_bind; [frame_side|apply keeps_etapa_rename|intros move_ok].
  apply keeps_bind; [frame_side| |].
  - destruct move_ok; [frame_go|apply keeps_etapa_fallback].
  - intros [ftp3 [|]]; frame_go.
Qed.

Lemma keeps_tentativas_loop n ftp nome idx tent backoff cache :
  keeps Rd (tentativas_loop n ftp nome alvo idx tent backoff cache).
Proof using Rd_refl Rd_trans Rd_write Rd_delete.
  revert ftp tent backoff cache.
  induction n as [|n IH]; intros ftp tent backoff cache; simpl; [frame_go|].
  apply keeps_bind; [frame_side|frame_go|intros _].
  apply keeps_bind; [frame_side|apply keeps_tentativa|].
  intros [x|f c|[]]; [frame_go|apply IH].
Qed.

End ReceiveDiskFrame.

(** X1. Processing a file of the batch leaves every file that was in the
    local file system before as it was: the path the download is written
    to is one that was not in use, and nothing else is written or removed,
    however many attempts are made and however they end. *)
Theorem download_keeps_existing_files `{Environment}
    (ftp : option nat) (nome : string) (idx total : nat) (w : world) :
  disk w ⊆ disk (Receive.tentar_processar_arquivo ftp nome idx total w).2.
Proof.
  unfold Receive.tentar_processar_arquivo. rewrite run_bind.
  destruct (escolher_caminho_local_fresh nome w) as (alvo & -> & Hfresh).
  apply map_subseteq_spec. intros p d Hp.
  assert (Hne : p ≠ alvo) by congruence.
  rewrite <-Hp.
  apply (keeps_tentativas_loop (λ d d', ∀ q, q ≠ alvo → d' !! q = d !! q)); [..|done].
  - done.
  - intros d1 d2 d3 H12 H23 q Hq. by rewrite H23, H12.
  - intros d0 x q Hq. by rewrite lookup_insert_ne.
  - intros d0 q Hq. by rewrite lookup_delete_ne.
Qed.

(** ** receive.py: one download per file, and what a success stands for *)

Definition is_retr (e : event) : bool :=
  match e with EvFtp _ (Retr _ _) _ => true | _ => false end.

Definition no_retr (e : event) : Prop := ¬ is_retr e.

(** A method call other than a RETR, a client creation or a sleep. *)
Definition ev_other (e : event) : bool := ev_real e && negb (is_retr e).

(** A RETR of [nome] that ran to its end and delivered [tam] bytes, [tam]
    positive. *)
Definition downloaded (nome : string) (tam : Z) (e : event) : Prop :=
  ∃ h m d, e = EvFtp h (Retr nome m) (RData d None) ∧
           tam = Z.of_nat (String.length d) ∧ (0 < tam)%Z.

Definition not_completed (e : event) : Prop := ∀ nome tam, ¬ downloaded nome tam e.

(** The cached size [tam_local_cache] along a trace: from [c] before [t] to
    [c'] after it.  With a size cached no RETR is sent; without one, the
    cache is filled by the first download that completes, and no RETR
    follows it. *)
Definition fase (nome : string) (c : option Z) (t : list event) (c' : option Z)
    : Prop :=
  match c, c' with
  | Some tam, _ => Forall no_retr t ∧ c' = Some tam
  | None, None => Forall not_completed t
  | None, Some tam =>
      ∃ t1 e t2, t = t1 ++ e :: t2 ∧ Forall not_completed t1 ∧
                 downloaded nome tam e ∧ Forall no_retr t2
  end.

Lemma no_retr_not_completed e : no_retr e → not_completed e.
Proof. intros Hn nome tam (h & m & d & -> & _). by apply Hn. Qed.

Lemma other_no_retr e : ev_other e → no_retr e.
Proof.
  unfold ev_other, no_retr. intros [_ Hn]%andb_True. by apply negb_True.
Qed.

Lemma conn_other e : ev_conn e → ev_other e.
Proof. by destruct e as [h [] r| | | | | |]. Qed.

Lemma infra_other e : ev_infra e → ev_other e.
Proof. by destruct e as [h [] r| | | | | |]. Qed.

Lemma fase_quiet nome c t : Forall no_retr t → fase nome c t c.
Proof.
  intros Hall. destruct c as [tam|]; simpl; [done|].
  eapply Forall_impl; [exact Hall|exact no_retr_not_completed].
Qed.

Lemma fase_app nome c t1 c1 t2 c2 :
  fase nome c t1 c1 → fase nome c1 t2 c2 → fase nome c (t1 ++ t2) c2.
Proof.
  destruct c as [tam|]; simpl.
  - intros [H1 ->] [H2 ->]. split; [by apply Forall_app|done].
  - destruct c1 as [tam1|]; simpl.
    + intros (u1 & e & u2 & -> & Hu1 & He & Hu2) [H2 ->].
      exists u1, e, (u2 ++ t2). rewrite <-app_assoc. simpl.
      split; [done|]. split; [done|]. split; [done|]. by apply Forall_app.
    + intros H1. destruct c2 as [tam2|].
      * intros (u1 & e & u2 & -> & Hu1 & He & Hu2).
        exists (t1 ++ u1), e, u2. rewrite <-app_assoc.
        split; [done|]. split; [by apply Forall_app|done].
      * intros H2. by apply Forall_app.
Qed.

Section ReceiveOther.
Context `{Environment}.
Import Receive.

Variable φ : event → Prop.
Hypothesis Hφ : ∀ e, ev_other e → φ e.

Local Lemma Hφ_conn_other e : ev_conn e → φ e.
Proof using Hφ. intros. by apply Hφ, conn_other. Qed.
Local Lemma Hφ_infra_other e : ev_infra e → φ e.
Proof using Hφ. intros. by apply Hφ, infra_other. Qed.

Lemma emits_etapa_rename_other ftp nome destino_abs tam :
  emits φ (etapa_rename ftp nome destino_abs tam).
Proof using Hφ.
  unfold etapa_rename. apply emits_try_any; [|apply emits_ret].
  apply emits_bind; [emits_go Hφ|]. intros.
  apply emits_bind; [emits_go Hφ|]. intros.
  apply emits_remoto_confere_tamanho, Hφ_conn_other.
Qed.

Lemma emits_etapa_fallback_other ftp nome caminho_local destino_abs tam :
  emits φ (etapa_fallback ftp nome caminho_local destino_abs tam).
Proof using Hφ.
  unfold etapa_fallback. apply emits_bind.
  - apply emits_try_except.
    + apply emits_bind; [|intros; apply emits_ret].
      apply emits_try_any; [emits_go Hφ|].
      apply emits_assegurar_diretorio_remoto, Hφ_infra_other.
    + intros e k [= <-]. apply emits_bind; [|intros; apply emits_ret].
      unfold apos_falha.
      destruct e; try apply emits_ret.
      apply emits_force_type_i_and_tls, Hφ_conn_other.
  - intros [ftp1|]; [|apply emits_ret].
    apply emits_bind; [|intros; apply emits_ret].
    apply emits_try_except.
    + apply emits_bind; [apply emits_force_type_i_and_tls, Hφ_conn_other|]. intros.
      apply emits_bind; [emits_go Hφ|]. intros.
      apply emits_bind; [apply emits_remoto_confere_tamanho, Hφ_conn_other|].
      intros [|]; [|apply emits_ret].
      apply emits_bind; [|intros; apply emits_ret].
      unfold apagar_original. emits_go Hφ.
    + intros e k [= <-]. apply emits_bind; [|intros; apply emits_ret].
      unfold apos_falha.
      destruct e; try apply emits_ret.
      apply emits_force_type_i_and_tls, Hφ_conn_other.
Qed.

End ReceiveOther.

Section DownloadOnce.
Context `{Environment}.
Import Receive.

(** The RETR and the test of what it left on the disk. *)
Definition baixar_post (nome : string) (r : res (saida Z)) (t : list event) : Prop :=
  (∃ tam e, r = Val (Segue tam) ∧ t = [e] ∧ downloaded nome tam e) ∨
  ((∃ ex, r = Exc ex) ∧ Forall not_completed t).

Lemma spec_baixar ftp nome p :
  spec (ftp_retrbinary ftp nome p ;;
        tam_local ← getsize p;
        if (tam_local <=? 0)%Z then raise (RuntimeError "arquivo local vazio")
        else mret (Segue tam_local))
       (baixar_post nome).
Proof.
  intros w. unfold ftp_retrbinary, getsize, read_file, write_file, get_modo, call.
  unfold mbind, M_bind, bind, mret, M_ret, ret, raise.
  destruct ftp as [h|]; simpl.
  2:{ exists []. rewrite app_nil_r. split; [done|]. right. split; [eauto|constructor]. }
  match goal with
  | |- context [ftp_step ?a ?b ?c] => destruct (ftp_step a b c) as [rep s]
  end.
  set (ev := EvFtp h (Retr nome (default modo_inicial (clients w !! h))) rep).
  assert (Hnc : (∀ d, rep ≠ RData d None) → Forall not_completed [ev]).
  { intros Hrep. constructor; [|constructor].
    intros nm tam (h' & m' & d' & [= _ _ _ Hr] & _). by eapply Hrep. }
  destruct rep as [| | |d fim| |e]; simpl; rewrite ?lookup_insert_eq; simpl;
    try (exists [ev]; split; [done|]; right; split; [eauto|by apply Hnc]).
  destruct fim as [e|]; simpl.
  { exists [ev]. split; [done|]. right. split; [eauto|by apply Hnc]. }
  rewrite lookup_insert_eq. simpl.
  destruct (Z.of_nat (String.length d) <=? 0)%Z eqn:Hle; simpl.
  - exists [ev]. split; [done|]. right. split; [eauto|].
    constructor; [|constructor].
    intros nm tam (h' & m' & d' & [= _ _ _ <-] & -> & Hpos).
    apply Z.leb_le in Hle. lia.
  - exists [ev]. split; [done|]. left. eexists _, _. split; [done|]. split; [done|].
    eexists h, _, d. split; [done|]. split; [done|]. apply Z.leb_gt in Hle. lia.
Qed.

End DownloadOnce.

Section DownloadOnceLoop.
Context `{Environment}.
Import Receive.

Variables (nome destino_abs : string).

Lemma force_total ftp : total (_force_type_i_and_tls ftp).
Proof. intros w. by destruct (total_force_type_i_and_tls ftp w) as (t & _ & Hr & _). Qed.

Lemma spec_force_no_retr ftp :
  spec (_force_type_i_and_tls ftp) (λ r t, r = Val tt ∧ Forall no_retr t).
Proof.
  apply (spec_returns _ (λ r, r = Val tt) (λ _ t, Forall no_retr t)).
  - intros w. destruct (force_total ftp w) as [[] ->]. done.
  - apply emits_force_type_i_and_tls. intros e He. by apply other_no_retr, conn_other.
Qed.

(** The [except] clauses of the download step: whatever is done first, the
    step sleeps and goes to the next iteration. *)
Lemma spec_after_failure {A} (X : M unit) d (v : A) :
  total X → emits no_retr X →
  spec (X ;; sleep d ;; mret v) (λ r t, r = Val v ∧ Forall no_retr t).
Proof.
  intros Htot Hem.
  eapply spec_conseq;
    [apply (spec_and _ (λ r t, r = Val v ∧ ∃ t', t = t' ++ [EvSleep d])
              (λ _ t, Forall no_retr t))|].
  - by eapply spec_then_sleep.
  - apply emits_bind; [done|]. intros _. apply emits_bind; [|intros; apply emits_ret].
    apply emits_sleep. by intros [].
  - simpl. intros r t [[-> _] Hall]. done.
Qed.

(** The download step: with a size cached it sends no RETR and yields that
    size; without one it yields the size of a download that has just
    completed, or it goes to the next iteration with the cache still empty
    and no download completed. *)
Definition download_fase (cache : option Z) (r : res (saida Z)) (t : list event)
    : Prop :=
  ∃ c', fase nome cache t c' ∧
    ((∃ tam, r = Val (Segue tam) ∧ c' = Some tam) ∨ (∃ f, r = Val (Continua f c'))).

Lemma spec_etapa_download_fase ftp caminho_local backoff cache :
  spec (etapa_download ftp nome caminho_local backoff cache) (download_fase cache).
Proof.
  assert (Hforce : ∀ f, emits no_retr (_force_type_i_and_tls f)).
  { intros f. eapply spec_conseq; [apply spec_force_no_retr|]. by intros r t [_ ?]. }
  assert (Hclean : emits no_retr
            (try_except
               (existe ← path_exists caminho_local;
                if existe : bool then os_remove caminho_local else mret tt)
               (any_exc (mret tt)))).
  { emits_go other_no_retr. }
  assert (Hk : ∀ e c, spec
            (match e with
             | SSLError =>
                 _force_type_i_and_tls ftp ;;
                 sleep (inject_Z backoff) ;;
                 mret (Continua ftp c)
             | _ =>
                 try_except
                   (existe ← path_exists caminho_local;
                    if existe : bool then os_remove caminho_local else mret tt)
                   (any_exc (mret tt)) ;;
                 sleep (inject_Z backoff) ;;
                 mret (Continua ftp None)
             end)
            (λ r t, (r = Val (@Continua Z ftp c) ∨ r = Val (Continua ftp None)) ∧
                    Forall no_retr t)).
  { intros e c.
    destruct e;
      (eapply spec_conseq;
       [apply spec_after_failure;
        first [ apply force_total | apply total_try_any, total_ret | done ]|];
       simpl; intros r t [-> ?]; split; [tauto|done]). }
  unfold etapa_download. destruct cache as [tam0|].
  - eapply (spec_try_except _ _ (λ r t, r = Val (Segue tam0) ∧ Forall no_retr t)).
    + eapply (spec_bind _ _ _ (λ _ r t, r = Val (Segue tam0) ∧ t = []));
        [apply spec_force_no_retr|intros; by apply spec_ret|..].
      * by intros e t [[=] _].
      * simpl. intros _ t1 r t2 [_ H1] [-> ->]. by rewrite app_nil_r.
    + intros a t [[= ->] Hall]. exists (Some tam0). split; [done|]. left. eauto.
    + by intros e t [[=] _].
    + intros e k [= <-]. eapply spec_conseq; [apply (Hk e (Some tam0))|].
      simpl. by intros r t2 _ t1 [[=] _].
  - eapply (spec_try_except _ _
              (λ r t, (∃ tam t1 e, r = Val (Segue tam) ∧ t = t1 ++ [e] ∧
                         Forall no_retr t1 ∧ downloaded nome tam e) ∨
                      ((∃ ex, r = Exc ex) ∧ Forall not_completed t))).
    + eapply spec_bind; [apply spec_force_no_retr|intros; apply spec_baixar|..].
      * by intros e t [[=] _].
      * simpl. intros _ t1 r t2 [_ H1] [(tam & e & -> & -> & He)|[Hex H2]].
        -- left. eauto 10.
        -- right. split; [done|]. apply Forall_app. split; [|done].
           eapply Forall_impl; [exact H1|exact no_retr_not_completed].
    + intros a t [(tam & t1 & e & [= ->] & -> & H1 & He)|[[ex [=]] _]].
      exists (Some tam). split; [|left; eauto].
      exists t1, e, []. split; [done|]. split; [|done].
      eapply Forall_impl; [exact H1|exact no_retr_not_completed].
    + by intros e t _ [=].
    + intros e k [= <-]. eapply spec_conseq; [apply (Hk e None)|].
      simpl. intros r t2 [Hr H2] t1 [(tam & ? & ? & [=] & _)|[_ H1]].
      exists None. split.
      * simpl. apply Forall_app. split; [done|].
        eapply Forall_impl; [exact H2|exact no_retr_not_completed].
      * right. exists ftp. by destruct Hr.
Qed.

(** The move by rename answers true only after a size query on the
    destination reported [tam]. *)
Lemma spec_etapa_rename_confirmed ftp tam :
  spec (etapa_rename ftp nome destino_abs tam)
       (λ r t, Forall no_retr t ∧ (∃ b, r = Val b) ∧
               (r = Val true → Exists (size_confirmed destino_abs tam) t)).
Proof.
  apply (spec_and _ (λ _ t, Forall no_retr t)
           (λ r t, (∃ b, r = Val b) ∧
                   (r = Val true → Exists (size_confirmed destino_abs tam) t))).
  { apply emits_etapa_rename_other, other_no_retr. }
  unfold etapa_rename.
  eapply (spec_try_except _ _
            (λ r t, r = Val true → Exists (size_confirmed destino_abs tam) t)).
  - eapply (spec_bind _ _ (λ _ _, True)
              (λ _ r t, r = Val true → Exists (size_confirmed destino_abs tam) t)).
    + eapply spec_conseq; [apply (emits_try_any (λ _, True))|done].
      * apply emits_call_. done.
      * apply emits_ret.
    + intros _.
      eapply (spec_bind _ _ (λ _ _, True)
                (λ _ r t, r = Val true → Exists (size_confirmed destino_abs tam) t)).
      * eapply spec_conseq; [apply (emits_call_ (λ _, True))|done]. done.
      * intros _. eapply spec_conseq; [apply spec_remoto_confere_tamanho|].
        by intros r t (_ & _ & Hc).
      * done.
      * intros _ t1 r t2 _ Hc Hr. apply Exists_app. right. by apply Hc.
    + done.
    + intros _ t1 r t2 _ Hc Hr. apply Exists_app. right. by apply Hc.
  - intros a t Hc. split; [eauto|done].
  - by intros e t _ [=].
  - intros e k [= <-]. apply spec_ret. intros t1 _. split; [eauto|done].
Qed.

(** The relocation that follows the download step, when it yielded [tam]:
    it sends no RETR, goes to the next iteration with [tam] cached, and
    returns True only after the destination was confirmed to hold [tam]
    bytes. *)
Definition relocar_post (tam : Z) (r : res (saida Empty_set)) (t : list event)
    : Prop :=
  Forall no_retr t ∧
  (∀ f c, r = Val (Continua f c) → c = Some tam) ∧
  (∀ f, r = Val (Retorna (f, true)) → Exists (size_confirmed destino_abs tam) t).

Lemma spec_relocar ftp caminho_local backoff tam :
  spec (move_ok ← etapa_rename ftp nome destino_abs tam;
        '(ftp, move_ok) ←
          (if move_ok : bool then mret (ftp, true)
           else etapa_fallback ftp nome caminho_local destino_abs tam);
        if move_ok : bool then mret (Retorna (ftp, true))
        else sleep (inject_Z backoff) ;; mret (Continua ftp (Some tam)))
       (relocar_post tam).
Proof.
  eapply (spec_bind _ _ _
            (λ mo r t, Forall no_retr t ∧
               (∀ f c, r = Val (Continua f c) → c = Some tam) ∧
               (∀ f, r = Val (Retorna (f, true)) →
                     mo = true ∨ Exists (size_confirmed destino_abs tam) t)));
    [apply spec_etapa_rename_confirmed|..].
  - intros mo.
    eapply (spec_bind _ _
              (λ r t, Forall no_retr t ∧
                 ∀ f, r = Val (f, true) →
                      mo = true ∨ Exists (size_confirmed destino_abs tam) t)
              (λ x r t, Forall no_retr t ∧
                 (∀ f c, r = Val (Continua f c) → c = Some tam) ∧
                 (∀ f, r = Val (Retorna (f, true)) → x.2 = true))).
    + destruct mo.
      * apply spec_ret. split; [constructor|]. intros; by left.
      * apply (spec_and _ (λ _ t, Forall no_retr t)).
        { apply emits_etapa_fallback_other, other_no_retr. }
        eapply spec_conseq; [apply spec_etapa_fallback|].
        intros r t (t1 & t2 & -> & _ & Hcases) f ->. right.
        destruct Hcases as [(_ & ? & [=])|[(Hc & _)|(_ & ? & ? & ? & _ & _ & _ & ? & [=])]].
        apply Exists_app. by left.
    + intros [ftp3 [|]].
      * apply spec_ret. split; [constructor|]. split; [done|]. by intros f [= _].
      * intros w. exists [EvSleep (inject_Z backoff)]. split; [done|].
        split; [repeat constructor; by intros []|].
        split; [by intros f c [= _ <-]|done].
    + intros e t [Hall _]. split; [done|]. split; by intros.
    + intros [ftp3 mo2] t1 r t2 [H1 Hsc] (H2 & Hc & Hr).
      split; [by apply Forall_app|]. split; [done|].
      intros f Hf. specialize (Hr f Hf). simpl in Hr. subst mo2.
      destruct (Hsc ftp3 eq_refl) as [?|Hex]; [by left|].
      right. apply Exists_app. by left.
  - intros e t (_ & [b [=]] & _).
  - intros mo t1 r t2 (H1 & _ & Hsc) (H2 & Hc & Hr).
    split; [by apply Forall_app|]. split; [done|].
    intros f Hf. apply Exists_app.
    destruct (Hr f Hf) as [->|Hex]; [left; by apply Hsc|by right].
Qed.

(** The two steps at the head of an attempt send no RETR, and either fall
    through or give the file up. *)
Definition head_post {A} (r : res (saida A)) (t : list event) : Prop :=
  (never_continua r ∧ ∀ f, r ≠ Val (Retorna (f, true))) ∧ Forall no_retr t.

Lemma conn_no_retr e : ev_conn e → no_retr e.
Proof. intros He. by apply other_no_retr, conn_other. Qed.

Lemma spec_reconectar_head (X : M unit) :
  emits no_retr X →
  spec (X ;;
        ftp' ← conectar_ftp;
        mret (match ftp' with
              | None => Retorna (ftp', false)
              | Some _ => Segue ftp'
              end))
       head_post.
Proof.
  intros HX. apply spec_returns.
  - apply returns_bind; [done|]. intros _. apply returns_bind; [done|].
    intros [h|]; by apply returns_ret.
  - apply emits_bind; [done|]. intros _.
    apply emits_bind; [apply emits_conectar_ftp, conn_no_retr|].
    intros. apply emits_ret.
Qed.

Lemma spec_keepalive_head ftp : spec (keepalive_defensivo ftp) head_post.
Proof.
  pose proof conn_no_retr as Hφ.
  unfold keepalive_defensivo.
  eapply spec_conseq;
    [eapply (spec_try_any_fwd _ _ head_post head_post);
     [|apply spec_reconectar_head; emits_go Hφ]|].
  - apply spec_returns.
    + apply returns_bind; [done|]. intros. by apply returns_ret.
    + emits_go Hφ.
  - simpl. intros r t [(a & -> & Hr)|(e & t1 & t2 & -> & [_ Hall1] & [Hr Hall2])].
    + done.
    + split; [done|by apply Forall_app].
Qed.

Lemma spec_reconexao_head ftp idx tent :
  spec (reconexao_periodica ftp idx tent) head_post.
Proof.
  pose proof conn_no_retr as Hφ.
  unfold reconexao_periodica. destruct (_ && _).
  - apply spec_reconectar_head. emits_go Hφ.
  - apply spec_ret. split; [done|constructor].
Qed.

(** One iteration of the retry loop, with [cache] cached at its start:
    [c'] is cached at its end. *)
Definition tentativa_fase (cache : option Z) (r : res (saida Empty_set))
    (t : list event) : Prop :=
  ∃ c', fase nome cache t c' ∧
    (∀ f c, r = Val (Continua f c) → c = c') ∧
    (∀ f, r = Val (Retorna (f, true)) →
       ∃ tam ta tb, t = ta ++ tb ∧ fase nome cache ta (Some tam) ∧
         Forall no_retr tb ∧ Exists (size_confirmed destino_abs tam) tb).

Lemma tentativa_fase_prefix cache r t1 t2 :
  Forall no_retr t1 → tentativa_fase cache r t2 → tentativa_fase cache r (t1 ++ t2).
Proof.
  intros H1 (c' & Hf & Hc & Hr). exists c'.
  split; [eapply fase_app; [by apply fase_quiet|done]|]. split; [done|].
  intros f Hrf. destruct (Hr f Hrf) as (tam & ta & tb & -> & Hfa & Hb & Hsc).
  exists tam, (t1 ++ ta), tb. rewrite app_assoc. split; [done|].
  split; [eapply fase_app; [by apply fase_quiet|done]|done].
Qed.

Lemma spec_seguir_head {A} (m : M (saida A)) (k : A → M (saida Empty_set)) cache :
  spec m head_post →
  (∀ a, spec (k a) (tentativa_fase cache)) →
  spec (seguir m k) (tentativa_fase cache).
Proof.
  intros Hm Hk. unfold seguir.
  eapply (spec_bind _ _ _
            (λ a r t, match a with
                      | Retorna x => r = Val (Retorna x) ∧ t = []
                      | Continua f c => r = Val (Continua f c) ∧ t = []
                      | Segue a => tentativa_fase cache r t
                      end) _ Hm).
  - intros [x|f c|a]; [by apply spec_ret..|apply Hk].
  - intros e t [_ Hall]. exists cache. split; [by apply fase_quiet|]. done.
  - intros [x|f c|a] t1 r t2 [[Hnc Hnr] Hall].
    + intros [-> ->]. rewrite app_nil_r. exists cache.
      split; [by apply fase_quiet|]. split; [done|].
      intros f [= ->]. by destruct (Hnr f).
    + by destruct (Hnc f c).
    + by apply tentativa_fase_prefix.
Qed.

Lemma spec_tentativa_fase ftp caminho_local idx tent backoff cache :
  destino_abs = rstrip "/" PASTA_REMOTA_ENVIADO +:+ "/" +:+ basename nome →
  spec (tentativa ftp nome caminho_local idx tent backoff cache)
       (tentativa_fase cache).
Proof.
  intros Hdest. unfold tentativa.
  apply spec_seguir_head; [apply spec_keepalive_head|intros ftp1].
  apply spec_seguir_head; [apply spec_reconexao_head|intros ftp2].
  unfold seguir. cbv zeta. rewrite <-Hdest.
  eapply (spec_bind _ _ _
            (λ a r t, match a with
                      | Retorna x => r = Val (Retorna x) ∧ t = []
                      | Continua f c => r = Val (Continua f c) ∧ t = []
                      | Segue tam => relocar_post tam r t
                      end) _
            (spec_etapa_download_fase ftp2 caminho_local backoff cache)).
  - intros [x|f c|tam]; [by apply spec_ret..|apply spec_relocar].
  - intros e t (c' & _ & [(? & [=] & _)|(? & [=])]).
  - intros a t1 r t2 (c' & Hfa & Hcase). destruct a as [x|f c|tam].
    + by destruct Hcase as [(? & [=] & _)|(? & [=])].
    + destruct Hcase as [(? & [=] & _)|(f' & [= <- <-])].
      intros [-> ->]. rewrite app_nil_r. exists c. split; [done|].
      split; [by intros ?? [= _ <-]|done].
    + destruct Hcase as [(tam' & [= <-] & ->)|(? & [=])].
      intros (Hall & Hc & Hr). exists (Some tam).
      split; [eapply fase_app; [done|]; by apply fase_quiet|].
      split; [done|]. intros f Hf. exists tam, t1, t2. eauto.
Qed.

(** The retry loop. *)
Definition loop_fase (cache : option Z) (r : res (option nat * bool))
    (t : list event) : Prop :=
  ∃ c', fase nome cache t c' ∧
    ∀ f, r = Val (f, true) →
      ∃ tam ta tb, t = ta ++ tb ∧ fase nome cache ta (Some tam) ∧
        Forall no_retr tb ∧ Exists (size_confirmed destino_abs tam) tb.

Lemma spec_tentativas_loop_fase n ftp caminho_local idx tent b cache :
  destino_abs = rstrip "/" PASTA_REMOTA_ENVIADO +:+ "/" +:+ basename nome →
  spec (tentativas_loop n ftp nome caminho_local idx tent b cache) (loop_fase cache).
Proof.
  intros Hdest. revert ftp tent b cache.
  induction n as [|n IH]; intros ftp tent b cache; simpl.
  { apply spec_ret. exists cache. split; [by apply fase_quiet|done]. }
  eapply (spec_bind _ _ (λ _ t, Forall no_retr t) (λ _, loop_fase cache)).
  - apply emits_log. by intros [].
  - intros _.
    eapply (spec_bind _ _ _
              (λ a r t, match a with
                        | Retorna x => r = Val x ∧ t = []
                        | Continua f c => loop_fase c r t
                        | Segue a => True
                        end) _
              (spec_tentativa_fase ftp caminho_local idx tent b cache Hdest)).
    + intros [x|f c|[]]; [by apply spec_ret|apply IH].
    + intros e t (c' & Hfa & _). exists c'. done.
    + intros [x|f c|[]] t1 r t2 (c1 & Hfa & Hc & Hr).
      * intros [-> ->]. rewrite app_nil_r. exists c1. split; [done|].
        intros f [= ->]. by apply (Hr f).
      * rewrite (Hc f c eq_refl). intros (c2 & Hfb & Hr2). exists c2.
        split; [by eapply fase_app|].
        intros f' Hf'. destruct (Hr2 f' Hf') as (tam & ta & tb & -> & Hta & Hb & Hsc).
        exists tam, (t1 ++ ta), tb. rewrite app_assoc. split; [done|].
        split; [by eapply fase_app|done].
  - intros e t Hall. exists cache. split; [by apply fase_quiet|done].
  - intros _ t1 r t2 H1 (c' & Hfa & Hr). exists c'.
    split; [eapply fase_app; [by apply fase_quiet|done]|].
    intros f Hf. destruct (Hr f Hf) as (tam & ta & tb & -> & Hta & Hb & Hsc).
    exists tam, (t1 ++ ta), tb. rewrite app_assoc. split; [done|].
    split; [eapply fase_app; [by apply fase_quiet|done]|done].
Qed.

Lemma spec_tentar_processar_arquivo_fase ftp idx total :
  destino_abs = rstrip "/" PASTA_REMOTA_ENVIADO +:+ "/" +:+ basename nome →
  spec (tentar_processar_arquivo ftp nome idx total) (loop_fase None).
Proof.
  intros Hdest w. unfold tentar_processar_arquivo. rewrite run_bind.
  destruct (escolher_caminho_local_fresh nome w) as (p & -> & _).
  by apply spec_tentativas_loop_fase.
Qed.

End DownloadOnceLoop.

(** The destination of the relocation of [nome]. *)
Definition destino_de (nome : string) : string :=
  rstrip "/" Receive.PASTA_REMOTA_ENVIADO +:+ "/" +:+ basename nome.

(** At most one download of the file completes, and no RETR is sent after
    it. *)
Definition download_once (nome : string) (t : list event) : Prop :=
  Forall not_completed t ∨
  ∃ tam t1 e t2, t = t1 ++ e :: t2 ∧ Forall not_completed t1 ∧
                 downloaded nome tam e ∧ Forall no_retr t2.

(** The model server with one file waiting in the origin directory. *)
Definition mundo_um_arquivo : @world Server.env :=
  @World Server.env
    (Server.make_tree ["/XML"; "/XML/CTE"; "/XML/CTES_ENVIADOS"]
       [("/XML/CTE/a.xml", "<a/>")]) ∅ ∅ [].

Definition run_um_arquivo : res (option nat * bool) * @world Server.env :=
  @Receive.tentar_processar_arquivo Server.env None "a.xml" 1 1 mundo_um_arquivo.

(** X2. A file is downloaded once: in the events of the processing of a
    file, whatever the number of attempts, either no download completes or
    there is a first download that completes with a positive size (the one
    whose size is cached), and no RETR is sent after it; the later attempts
    reuse the local copy. *)
Theorem file_is_downloaded_once `{Environment}
    (ftp : option nat) (nome : string) (idx total : nat) (w : world) :
  ∃ t, trace (Receive.tentar_processar_arquivo ftp nome idx total w).2
         = trace w ++ t ∧
       download_once nome t.
Proof.
  destruct (spec_tentar_processar_arquivo_fase nome (destino_de nome) ftp idx total
              eq_refl w) as (t & Ht & c' & Hfa & _).
  exists t. split; [done|]. destruct c' as [tam|]; simpl in Hfa.
  - right. destruct Hfa as (t1 & e & t2 & ?). by exists tam, t1, e, t2.
  - by left.
Qed.

(** X3. Processing a file answers True only when, after the download of
    the file completed with [tam] bytes, [tam] positive, a SIZE query on
    the destination of the relocation was answered with exactly [tam], and
    no RETR was sent in between or after. *)
Theorem success_follows_confirmed_size `{Environment}
    (ftp : option nat) (nome : string) (idx total : nat) (w : world)
    (ftp' : option nat) :
  (Receive.tentar_processar_arquivo ftp nome idx total w).1 = Val (ftp', true) →
  ∃ tam t1 e t2,
    trace (Receive.tentar_processar_arquivo ftp nome idx total w).2
      = trace w ++ t1 ++ e :: t2 ∧
    downloaded nome tam e ∧ Forall no_retr t2 ∧
    Exists (size_confirmed (destino_de nome) tam) t2.
Proof.
  intros Hr.
  destruct (spec_tentar_processar_arquivo_fase nome (destino_de nome) ftp idx total
              eq_refl w) as (t & Ht & c' & _ & Hok).
  destruct (Hok ftp' Hr) as (tam & ta & tb & -> & Hfa & Hb & Hsc).
  destruct Hfa as (t1 & e & t2 & -> & _ & He & H2).
  exists tam, t1, e, (t2 ++ tb). rewrite Ht, <-!app_assoc. simpl.
  split; [done|]. split; [done|]. split; [by apply Forall_app|].
  apply Exists_app. by right.
Qed.

Lemma success_follows_confirmed_size_witness :
  run_um_arquivo.1 = Val (Some 0, true) ∧
  ∃ tam t1 e t2,
    trace run_um_arquivo.2 = trace mundo_um_arquivo ++ t1 ++ e :: t2 ∧
    downloaded "a.xml" tam e ∧ Forall no_retr t2 ∧
    Exists (size_confirmed (destino_de "a.xml") tam) t2.
Proof.
  split; [vm_compute; reflexivity|].
  apply (@success_follows_confirmed_size Server.env None "a.xml" 1 1
           mundo_um_arquivo (Some 0)).
  vm_compute; reflexivity.
Defined.

(** ** receive.py: what directory provisioning achieves on the model server *)

Section PathSegments.
Import Server ServerFacts.

Fixpoint barras (k : nat) : string :=
  match k with
  | 0 => ""
  | S k => String "/"%char (barras k)
  end.

Lemma segments_barras k : segments (barras k) = [].
Proof.
  unfold segments. by induction k as [|k IH].
Qed.

Lemma rstrip_barras s : ∃ k, s = rstrip "/" s +:+ barras k.
Proof.
  induction s as [|c r [k IH]]; simpl; [by exists 0|].
  destruct (rstrip "/" r) as [|c' r'] eqn:Hr.
  - destruct (decide (c = "/"%char)) as [->|Hc].
    + exists (S k). exact (f_equal (String _) IH).
    + exists k. exact (f_equal (String _) IH).
  - exists k. exact (f_equal (String _) IH).
Qed.

Lemma segments_app_barras s k : segments (s +:+ barras k) = segments s.
Proof.
  destruct k as [|k]; cbn [barras].
  - f_equal. induction s as [|c s IH]; [done|]. exact (f_equal (String _) IH).
  - change (String "/"%char (barras k)) with ("/" +:+ barras k).
    by rewrite segments_app, segments_barras, app_nil_r.
Qed.

Lemma segments_rstrip s : segments (rstrip "/" s) = segments s.
Proof.
  destruct (rstrip_barras s) as [k Hk]. rewrite Hk at 2.
  by rewrite segments_app_barras.
Qed.

Lemma segments_lstrip s : segments (lstrip "/" s) = segments s.
Proof.
  unfold segments. induction s as [|c r IH]; simpl; [done|].
  destruct (decide (c = "/"%char)) as [->|Hc]; simpl; [exact IH|].
  by rewrite decide_False.
Qed.

Lemma segments_strip s : segments (strip "/" s) = segments s.
Proof. unfold strip. by rewrite segments_lstrip, segments_rstrip. Qed.

(** A component of a path holds no separator. *)
Lemma split_component sep s p : p ∈ split sep s → split sep p = [p].
Proof.
  revert p. induction s as [|c r IH]; intros p; simpl.
  - by intros ->%list_elem_of_singleton.
  - destruct (decide (c = sep)) as [->|Hc].
    + intros [->|Hp]%elem_of_cons; [done|by apply IH].
    + destruct (split sep r) as [|x xs] eqn:Hs.
      * intros ->%list_elem_of_singleton. simpl. by rewrite decide_False.
      * intros [->|Hp]%elem_of_cons.
        -- simpl. rewrite decide_False by done. rewrite (IH x); [done|by left].
        -- apply IH. by right.
Qed.

Lemma segments_component s p : p ∈ segments s → segments p = [p].
Proof.
  unfold segments. intros Hp.
  apply list_elem_of_In, List.filter_In in Hp as [Hp Hne].
  rewrite (split_component "/" s p) by (by apply list_elem_of_In).
  simpl. by rewrite Hne.
Qed.

(** The last prefix the provisioning loop goes through is the whole path. *)
Lemma prefixos_last atual partes :
  Forall (λ p, segments p = [p]) partes → partes ≠ [] →
  ∃ a, a ∈ prefixos atual partes ∧ segments a = segments atual ++ partes.
Proof.
  revert atual. induction partes as [|p partes IH]; intros atual Hall Hne; [done|].
  apply Forall_cons in Hall as [Hp Hall]. cbn [prefixos].
  destruct partes as [|p' partes'].
  - exists (atual +:+ "/" +:+ p). split; [by left|]. by rewrite segments_app, Hp.
  - destruct (IH (atual +:+ "/" +:+ p) Hall) as (a & Ha & Hseg); [done|].
    exists a. split; [by right|].
    by rewrite Hseg, segments_app, Hp, <-app_assoc.
Qed.

Lemma partes_de_segments caminho : Receive.partes_de caminho = segments caminho.
Proof. unfold Receive.partes_de. apply segments_strip. Qed.

End PathSegments.

Section ProvisioningResult.
Import Server ServerFacts.
Local Existing Instance Server.env.

(** X4. On the model server, when [assegurar_diretorio_remoto] returns, the
    path it was given is a directory, whatever was missing of it before;
    the call has removed no directory and changed no file. *)
Theorem provisioning_makes_the_directory
    (w : world) (ftp : option nat) (caminho : string) (n : nat) (pausa : Q)
    (ftp' : option nat) :
  (Receive.assegurar_diretorio_remoto ftp caminho n pausa w).1 = Val ftp' →
  is_dir (srv (Receive.assegurar_diretorio_remoto ftp caminho n pausa w).2)
         (segments caminho) ∧
  grows (srv w) (srv (Receive.assegurar_diretorio_remoto ftp caminho n pausa w).2).
Proof.
  rewrite !assegurar_diretorio_remoto_unfold.
  case_bool_decide as Hc.
  { intros _. split; [|done]. by destruct Hc as [-> | ->]. }
  rewrite run_bind.
  destruct (quiet_run (diretorio_corrente ftp) w (quiet_diretorio_corrente ftp))
    as ([fa cur] & wa & ta & -> & [Hda Hfa] & _ & _).
  rewrite run_bind.
  pose proof (assegurar_partes_ok n pausa (Receive.partes_de caminho) fa "" wa) as Hok.
  pose proof (stable_grows_partes (srv wa) n pausa fa "" (Receive.partes_de caminho)
                wa (grows_refl _)) as [Hdb Hfb].
  destruct (Receive.assegurar_partes n pausa fa "" (Receive.partes_de caminho) wa)
    as [[fb|e] wb]; [|done].
  destruct (restaurar_run fb cur wb) as (wc & tc & -> & [Hdc Hfc] & _ & _ & _).
  cbn [fst snd] in *. intros _.
  destruct (Hok fb (or_introl eq_refl) eq_refl) as [Hdirs _]. clear Hok.
  split.
  - rewrite partes_de_segments in Hdirs.
    destruct (decide (segments caminho = [])) as [->|Hne]; [done|].
    destruct (prefixos_last "" (segments caminho)) as (a & Ha & Hseg); [|done|].
    { apply Forall_forall. intros p Hp. by eapply segments_component. }
    rewrite Forall_forall in Hdirs. specialize (Hdirs a Ha).
    rewrite Hseg in Hdirs. simpl in Hdirs.
    unfold is_dir in *. by rewrite Hdc.
  - split; [|congruence]. rewrite Hdc, <-Hda. done.
Qed.

End ProvisioningResult.

(** An empty server with client 0 connected, and the provisioning of the
    destination directory of receive.py on it. *)
Definition run_provisionar : res (option nat) * @world Server.env :=
  @Receive.assegurar_diretorio_remoto Server.env (Some 0)
    Receive.PASTA_REMOTA_ENVIADO 3 1 mundo_conectado.

Lemma provisioning_makes_the_directory_witness :
  run_provisionar.1 = Val (Some 0) ∧
  Server.is_dir (srv run_provisionar.2) ["XML"; "CTES_ENVIADOS"] ∧
  grows (srv mundo_conectado) (srv run_provisionar.2).
Proof.
  split; [vm_compute; reflexivity|].
  apply (provisioning_makes_the_directory mundo_conectado (Some 0)
           Receive.PASTA_REMOTA_ENVIADO 3 1 (Some 0)).
  vm_compute; reflexivity.
Defined.

(** ** send.py: the report of a run *)

(** Queue and report together always hold the same files. *)
Lemma passos_conserva q tpa rel l q' tpa' rel' :
  passos (q, tpa, rel) l (q', tpa', rel') →
  (Send.arquivo <$> rel') ++ (Send.nome_remoto <$> q')
    ≡ₚ (Send.arquivo <$> rel) ++ (Send.nome_remoto <$> q).
Proof.
  intros Hp. remember (q, tpa, rel) as c eqn:Hc.
  remember (q', tpa', rel') as c' eqn:Hc'.
  revert q tpa rel Hc. induction Hp as [c|c e [[q1 tpa1] rel1] l c'' Hstep _ IH];
    intros q tpa rel ->.
  - by simplify_eq.
  - rewrite (IH Hc' _ _ _ eq_refl).
    inversion Hstep as [it q0 tpa0 rel0 Hlt|it q0 tpa0 rel0 i Hst Hnp Hten Harq]; subst.
    + apply Permutation_app_head. rewrite fmap_app. simpl.
      by rewrite <-Permutation_cons_append.
    + rewrite fmap_app, <-app_assoc. simpl. by rewrite Harq.
Qed.

Lemma passos_sem_pendente q tpa rel l q' tpa' rel' :
  passos (q, tpa, rel) l (q', tpa', rel') →
  Forall (λ i, Send.status i ≠ Pendente) rel →
  Forall (λ i, Send.status i ≠ Pendente) rel'.
Proof.
  intros Hp. remember (q, tpa, rel) as c eqn:Hc.
  remember (q', tpa', rel') as c' eqn:Hc'.
  revert q tpa rel Hc. induction Hp as [c|c e [[q1 tpa1] rel1] l c'' Hstep _ IH];
    intros q tpa rel -> Hrel.
  - by simplify_eq.
  - apply (IH Hc' _ _ _ eq_refl).
    inversion Hstep as [it q0 tpa0 rel0 Hlt|it q0 tpa0 rel0 i Hst Hnp Hten Harq]; subst;
      [done|].
    apply Forall_app. split; [done|]. by constructor.
Qed.

(** X5. Every file given to the queue loop of send.py is in the report of
    the run exactly once: the file names of the report are those of the
    items, up to their order, whatever was retried and however each send
    ended; and no record is left with status "pendente". *)
Theorem every_item_is_reported_once `{Environment}
    (itens_envio : list Send.item) (ftp : option nat) (w : world) :
  ∃ st ftp',
    (Send.main_envio itens_envio ftp w).1 = Val (Some (st, ftp')) ∧
    Send.arquivo <$> Send.relatorio_envios st ≡ₚ Send.nome_remoto <$> itens_envio ∧
    Forall (λ i, Send.status i ≠ Pendente) (Send.relatorio_envios st).
Proof.
  destruct (spec_main_envio itens_envio ftp w) as (t & Ht & st & ftp' & Hr & Hq & Hp).
  exists st, ftp'. split; [done|]. unfold config_of in Hp. rewrite Hq in Hp. split.
  - apply passos_conserva in Hp. simpl in Hp. by rewrite app_nil_r in Hp.
  - eapply passos_sem_pendente; [exact Hp|constructor].
Qed.

(** ** send.py: what a record of [enviar_para_ftp] stands for *)

(** The answer that verified an upload of [nome]: the size reported by
    SIZE, or, when SIZE gave none, the size read from the LIST lines. *)
Definition verification (nome : string) (tam : Z) (t : list event) : Prop :=
  (∃ h, t = [EvFtp h (Size nome) (RSize (Some tam))]) ∨
  (∃ h r0 m ls,
     t = [EvFtp h (Size nome) r0; EvFtp h (Retrlines "LIST" m) (RLines ls)] ∧
     Send.tamanho_na_listagem ls nome = Some tam).

(** The trace ends with a STOR of [nome] that the server accepted and with
    the verification of its size. *)
Definition stored_and_verified (nome : string) (tam : Z) (t : list event) : Prop :=
  ∃ t1 h d m rep t2,
    t = t1 ++ EvFtp h (Stor nome d m) rep :: t2 ∧ not_exc rep ∧
    verification nome tam t2.

(** The fields of a record an attempt leaves alone. *)
Definition campos (i i' : Send.info) : Prop :=
  Send.arquivo i' = Send.arquivo i ∧
  Send.caminho_local i' = Send.caminho_local i ∧
  Send.tamanho_local i' = Send.tamanho_local i.

Section SendOutcome.
Context `{Environment}.
Import Send.

Lemma spec_size_or_none h nome :
  spec (try_except (ftp_size (Some h) nome) (any_exc (mret None)))
       (λ r t, ∃ rep, t = [EvFtp h (Size nome) rep] ∧ (∃ o, r = Val o) ∧
                 ∀ n, r = Val (Some n) → rep = RSize (Some n)).
Proof.
  intros w. unfold try_except, ftp_size, call. rewrite run_bind.
  destruct (ftp_step h (Size nome) (srv w)) as [rep s].
  exists [EvFtp h (Size nome) rep].
  destruct rep as [|o| | | |e]; simpl; (split; [done|]); eexists; (split; [done|]);
    (split; [eauto|]); try by intros k [=].
  by intros k [= ->].
Qed.

Lemma spec_size_from_list h nome :
  spec (try_except
          (linhas ← ftp_retrlines (Some h) "LIST";
           mret (tamanho_na_listagem linhas nome))
          (any_exc (mret None)))
       (λ r t, (∃ o, r = Val o) ∧
               ∀ n, r = Val (Some n) →
                 ∃ m ls, t = [EvFtp h (Retrlines "LIST" m) (RLines ls)] ∧
                         tamanho_na_listagem ls nome = Some n).
Proof.
  intros w. unfold try_except, ftp_retrlines, get_modo, call. rewrite !run_bind.
  simpl.
  destruct (ftp_step h _ (srv w)) as [rep s]. eexists [_].
  destruct rep as [| | | |ls|e]; simpl; (split; [done|]); (split; [eauto|]);
    try by intros k [=].
  intros k [= Hk]. eauto.
Qed.

Lemma spec_verificar_arquivo_remoto ftp nome :
  spec (verificar_arquivo_remoto ftp nome)
       (λ r t, (∃ o, r = Val o) ∧ ∀ n, r = Val (Some n) → verification nome n t).
Proof.
  unfold verificar_arquivo_remoto. destruct ftp as [h|].
  2:{ apply spec_ret. split; [eauto|done]. }
  eapply (spec_bind _ _ _
            (λ a r t, match a with
                      | Some tam => r = Val (Some tam) ∧ t = []
                      | None =>
                          (∃ o, r = Val o) ∧
                          ∀ n, r = Val (Some n) →
                            ∃ m ls, t = [EvFtp h (Retrlines "LIST" m) (RLines ls)] ∧
                                    tamanho_na_listagem ls nome = Some n
                      end) _ (spec_size_or_none h nome)).
  - intros [tam|]; [by apply spec_ret|apply spec_size_from_list].
  - by intros e t (rep & _ & [o [=]] & _).
  - intros [tam|] t1 r t2 (rep & -> & _ & Hsz).
    + intros [-> ->]. split; [eauto|]. intros n [= <-]. left. exists h.
      by rewrite (Hsz tam eq_refl).
    + intros [Ho Hl]. split; [done|]. intros n Hn.
      destruct (Hl n Hn) as (m & ls & -> & Htl). right. by exists h, rep, m, ls.
Qed.

Lemma spec_storbinary_accepted ftp nome caminho :
  spec (ftp_storbinary ftp nome caminho)
       (λ r t, r = Val tt →
               ∃ h d m rep, t = [EvFtp h (Stor nome d m) rep] ∧ not_exc rep).
Proof.
  intros w. unfold ftp_storbinary, read_file, get_modo, call_, call. rewrite !run_bind.
  destruct (disk w !! caminho) as [d|]; simpl.
  2:{ exists []. by rewrite app_nil_r. }
  destruct ftp as [h|]; simpl.
  2:{ exists []. by rewrite app_nil_r. }
  rewrite !run_bind.
  destruct (ftp_step h _ (srv w)) as [rep s]. eexists [_].
  destruct rep; simpl; (split; [done|]); try done;
    intros _; eexists _, _, _, _; (split; [done|]); by intros e.
Qed.

Variables (nome : string) (tam : Z).

(** What one upload attempt hands to the loop: a success record, for an
    upload that was stored and verified, or the record of a failure. *)
Definition tentativa_outcome (i : info)
    (x : option (option nat * info) * (option nat * info)) (t : list event)
    : Prop :=
  match x with
  | (Some (_, i'), _) =>
      status i' = Sucesso ∧ tamanho_remoto i' = Some tam ∧
      tentativas i' = tentativas i ∧ campos i i' ∧ stored_and_verified nome tam t
  | (None, (_, i')) =>
      status i' = status i ∧ tentativas i' = tentativas i ∧ campos i i'
  end.

Lemma spec_falha_envio_outcome ftp i i0 e :
  status i = status i0 → tentativas i = tentativas i0 → campos i0 i →
  spec (falha_envio ftp i e)
       (λ r t, ∃ x, r = Val x ∧ ∀ t1, tentativa_outcome i0 x (t1 ++ t)).
Proof.
  intros Hs Ht Hc.
  eapply spec_conseq;
    [apply (spec_returns _
              (λ r, ∃ i', r = Val (None, (None, i')) ∧ status i' = status i0 ∧
                          tentativas i' = tentativas i0 ∧ campos i0 i')
              (λ _ _, True))|].
  - unfold falha_envio.
    apply returns_bind_total; [apply total_try_any, total_ret|]. intros _.
    apply returns_ret. eexists. split; [done|]. by destruct Hc as (? & ? & ?).
  - eapply spec_conseq; [apply (emits_falha_envio (λ _, True)); done|done].
  - simpl. intros r t [(i' & -> & ?) _]. eexists. split; [done|]. by intros t1.
Qed.

Lemma stored_and_verified_prefix t0 t :
  stored_and_verified nome tam t → stored_and_verified nome tam (t0 ++ t).
Proof.
  intros (t1 & h & d & m & rep & t2 & -> & Hrep & Hv).
  exists (t0 ++ t1), h, d, m, rep, t2. by rewrite <-app_assoc.
Qed.

Lemma tentativa_outcome_prefix i x t0 t :
  tentativa_outcome i x t → tentativa_outcome i x (t0 ++ t).
Proof.
  destruct x as [[[f i']|] [f2 i2]]; simpl; [|done].
  intros (? & ? & ? & ? & Hsv). do 4 (split; [done|]).
  by apply stored_and_verified_prefix.
Qed.

(** The end of an attempt, after the size [tr] was obtained. *)
Definition apos_verificar (i : info) (tr : option Z)
    (r : res (option (option nat * info) * (option nat * info))) : Prop :=
  ∃ x, r = Val x ∧
    match x with
    | (Some (_, i'), _) =>
        tr = Some tam ∧ status i' = Sucesso ∧ tamanho_remoto i' = Some tam ∧
        tentativas i' = tentativas i ∧ campos i i'
    | (None, (_, i')) =>
        status i' = status i ∧ tentativas i' = tentativas i ∧ campos i i'
    end.

Lemma returns_apos_verificar ftp tentativa b i tr :
  returns (apos_verificar i tr)
    (if bool_decide (tr = Some tam)
     then
       let i := com_detalhe (DetTransferido tentativa b)
                  (com_status Sucesso (com_tamanho_remoto tr i)) in
       mret (Some (ftp, i), (ftp, i))
     else
       let i := com_detalhe (DetDivergente tr) (com_tamanho_remoto tr i) in
       try_except (ftp_delete ftp nome ;; mret (None, (ftp, i)))
         (λ e, match e with
               | error_perm => Some (mret (None, (ftp, i)))
               | _ => Some (falha_envio ftp i e)
               end)).
Proof.
  case_bool_decide as Htr.
  - apply returns_ret. eexists. split; [done|]. simpl. by subst.
  - cbv zeta.
    set (i2 := com_detalhe (DetDivergente tr) (com_tamanho_remoto tr i)).
    apply (returns_try_except (λ r, ∀ x, r = Val x → apos_verificar i tr r)).
    + apply returns_bind; [done|]. intros _. apply returns_ret.
      intros _ _. eexists. split; [done|]. by simpl.
    + eauto.
    + intros e _.
      assert (Hf : returns (apos_verificar i tr) (falha_envio ftp i2 e)).
      { unfold falha_envio.
        apply returns_bind_total; [apply total_try_any, total_ret|]. intros _.
        apply returns_ret. eexists. split; [done|]. by simpl. }
      destruct e; try exact Hf.
      apply returns_ret. eexists. split; [done|]. by simpl.
Qed.

Lemma spec_tentativa_envio_outcome ftp caminho tentativa p b i :
  spec (tentativa_envio ftp caminho nome tam tentativa p b i)
       (λ r t, ∃ x, r = Val x ∧ tentativa_outcome i x t).
Proof.
  unfold tentativa_envio.
  eapply (spec_try_except _ _ (λ r t, ∀ x, r = Val x → tentativa_outcome i x t)).
  - eapply (spec_bind _ _ (λ _ _, True)
              (λ _ r t, ∀ x, r = Val x → tentativa_outcome i x t)).
    + eapply spec_conseq;
        [apply (emits_send_configurar_transferencia (λ _, True)); done|done].
    + intros _.
      eapply (spec_bind _ _ _
                (λ _ r t, ∀ x, r = Val x →
                   match x with
                   | (Some (_, i'), _) =>
                       status i' = Sucesso ∧ tamanho_remoto i' = Some tam ∧
                       tentativas i' = tentativas i ∧ campos i i' ∧
                       verification nome tam t
                   | (None, (_, i')) =>
                       status i' = status i ∧ tentativas i' = tentativas i ∧
                       campos i i'
                   end)
                _ (spec_storbinary_accepted ftp nome caminho)).
      * intros _.
        eapply (spec_bind _ _ _
                  (λ tr r t, apos_verificar i tr r ∧ (tr = Some tam → t = []))
                  _ (spec_verificar_arquivo_remoto ftp nome)).
        -- intros tr. apply spec_returns; [apply returns_apos_verificar|].
           case_bool_decide; [by apply spec_ret|].
           intros w. set (m := try_except _ _).
           assert (Hem : emits (λ _, True) m).
           { subst m. apply emits_try_except; [emits_go I|].
             intros e k Hk. destruct e; simplify_eq;
               first [apply emits_ret|by apply emits_falha_envio]. }
           destruct (Hem w) as (t & Ht & _). exists t. split; [done|]. done.
        -- by intros e t [[o [=]] _].
        -- intros tr t1 r t2 [_ Hv] [(x & -> & Hx) Hnil] x' [= <-].
           destruct x as [[[f i']|] [f2 i2]]; [|done].
           destruct Hx as (-> & ? & ? & ? & ?). rewrite (Hnil eq_refl), app_nil_r.
           do 4 (split; [done|]). by apply Hv.
      * done.
      * intros [] t1 r t2 Hst Hrest x ->. specialize (Hrest x eq_refl).
        destruct x as [[[f i']|] [f2 i2]]; [|done].
        destruct Hrest as (? & ? & ? & ? & Hv). do 4 (split; [done|]).
        destruct (Hst eq_refl) as (h & d & m & rep & -> & Hrep).
        exists [], h, d, m, rep, t2. done.
    + done.
    + intros _ t1 r t2 _ Hr x ->. by apply tentativa_outcome_prefix, Hr.
  - intros a t Ha. eauto.
  - by intros e t _ [=].
  - intros e k [= <-].
    eapply spec_conseq; [by apply (spec_falha_envio_outcome ftp i i e)|].
    simpl. intros r t2 (x & -> & Hx) t1 _. eauto.
Qed.

Lemma campos_trans i1 i2 i3 : campos i1 i2 → campos i2 i3 → campos i1 i3.
Proof. intros (? & ? & ?) (? & ? & ?). repeat split; congruence. Qed.

Lemma spec_total_any {A} (m : M A) :
  total m → emits (λ _, True) m → spec m (λ r _, ∃ a, r = Val a).
Proof.
  intros Ht He. eapply spec_conseq; [apply (spec_returns _ _ _ Ht He)|].
  by intros r t [? _].
Qed.

(** What the loop of [enviar_para_ftp] returns, with [n] attempts left, the
    next one numbered [k]. *)
Definition envio_outcome (n k : nat) (i : info) (r : res (option nat * info))
    (t : list event) : Prop :=
  ∃ f i', r = Val (f, i') ∧ campos i i' ∧
    (status i' = Sucesso ∨ status i' = Falha) ∧
    ((n = 0 ∧ tentativas i' = tentativas i) ∨ (k ≤ tentativas i' < k + n)) ∧
    (status i' = Sucesso →
     tamanho_remoto i' = Some tam ∧ stored_and_verified nome tam t).

Lemma envio_outcome_prefix n k i r t0 t :
  envio_outcome n k i r t → envio_outcome n k i r (t0 ++ t).
Proof.
  intros (f & i' & -> & Hc & Hs & Hk & Hok). exists f, i'.
  do 4 (split; [done|]). intros Hsuc. destruct (Hok Hsuc) as [? ?].
  split; [done|]. by apply stored_and_verified_prefix.
Qed.

Lemma spec_enviar_loop_outcome n k ftp caminho i :
  status i ≠ Sucesso →
  spec (enviar_loop n k ftp caminho nome tam i) (envio_outcome n k i).
Proof.
  revert k ftp i. induction n as [|n IH]; intros k ftp i Hi; cbn [enviar_loop].
  { apply spec_ret. eexists _, _. split; [done|].
    destruct (status i) eqn:Hst; try done; simpl;
      (split; [done|]); (split; [by right|]); (split; [by left|]); done. }
  destruct (modo_da_tentativa k) as [p b].
  eapply (spec_bind _ _ _ (λ _, envio_outcome (S n) k i)).
  - apply spec_total_any; [apply total_log|by apply emits_log].
  - intros _.
    eapply (spec_bind _ _ _ (λ _, envio_outcome (S n) k i)).
    + apply spec_total_any;
        [apply total_send_garantir_conexao|by apply emits_send_garantir_conexao].
    + intros [h|].
      2:{ apply spec_ret. eexists _, _. split; [done|]. simpl.
          split; [done|]. split; [by right|]. split; [right; lia|done]. }
      eapply (spec_bind_dep _ _ _ _
                (spec_tentativa_envio_outcome (Some h) caminho k p b
                   (com_tentativas k i))).
      * by intros e t (x & [=] & _).
      * intros [[[f i']|] [f2 i2]] t1 (x & [= <-] & Hx); simpl in Hx.
        -- apply spec_ret. rewrite app_nil_r.
           destruct Hx as (Hs & Htr & Hk & Hc & Hsv).
           exists f, i'. split; [done|]. split; [done|]. split; [by left|].
           split; [right; simpl in Hk; lia|done].
        -- destruct Hx as (Hs & Hk & Hc). simpl in Hs, Hk.
           assert (Hi2 : status i2 ≠ Sucesso) by (by rewrite Hs).
           eapply (spec_bind _ _ _ (λ _ r t, envio_outcome n (S k) i2 r t)).
           ++ apply spec_total_any; [apply total_sleep|by apply emits_sleep].
           ++ intros _. by apply IH.
           ++ by intros e t [a [=]].
           ++ intros _ ta r tb _ (f & i' & -> & Hc' & Hs' & Hk' & Hok).
              exists f, i'. split; [done|].
              split; [by eapply campos_trans|]. split; [done|]. split.
              ** right. destruct Hk' as [[-> Hk']|Hk']; lia.
              ** intros Hsuc. destruct (Hok Hsuc) as [? Hsv]. split; [done|].
                 rewrite app_assoc. by apply stored_and_verified_prefix.
    + by intros e t [a [=]].
    + intros a t1 r t2 _ Hr. by apply envio_outcome_prefix.
  - by intros e t [a [=]].
  - intros _ t1 r t2 _ Hr. by apply envio_outcome_prefix.
Qed.

End SendOutcome.

(** The number of attempts [enviar_para_ftp] allows itself. *)
Definition limite_tentativas (max_tentativas : Z) : nat :=
  Z.to_nat (if (max_tentativas <=? 0)%Z
            then Z.of_nat (length Send.MODOS_TRANSFERENCIA)
            else max_tentativas).

(** A model server with the destination directory of send.py, and one
    file to send on the local disk. *)
Definition mundo_envio_simples : @world Server.env :=
  @World Server.env (Server.make_tree ["/XML"; "/XML/CTE"] [])
    {[ "C:\to_send\a.xml" := "<a/>" ]} ∅ [].

Definition run_envio_simples : res (option nat * Send.info) * @world Server.env :=
  @Send.enviar_para_ftp Server.env None "C:\to_send\a.xml" "a.xml" 3
    mundo_envio_simples.

(** X6. [enviar_para_ftp] never raises: it returns a record for the file.
    With no local file the record is "ignorado" with 0 attempts, and
    nothing at all was done (same connection, same world).  Otherwise the
    record carries the size of the local file, its status is "sucesso" or
    "falha", its attempt count is between 1 and the limit (the number of
    transfer modes when [max_tentativas] is not positive), and a "sucesso"
    record carries a remote size equal to the local one. *)
Theorem upload_record `{Environment}
    (ftp : option nat) (caminho nome : string) (max : Z) (w : world) :
  ∃ ftp' i,
    (Send.enviar_para_ftp ftp caminho nome max w).1 = Val (ftp', i) ∧
    Send.arquivo i = nome ∧ Send.caminho_local i = caminho ∧
    match disk w !! caminho with
    | None =>
        Send.status i = Ignorado ∧ Send.tentativas i = 0 ∧ ftp' = ftp ∧
        (Send.enviar_para_ftp ftp caminho nome max w).2 = w
    | Some d =>
        Send.tamanho_local i = Z.of_nat (String.length d) ∧
        (Send.status i = Sucesso ∨ Send.status i = Falha) ∧
        1 ≤ Send.tentativas i ≤ limite_tentativas max ∧
        (Send.status i = Sucesso →
         Send.tamanho_remoto i = Some (Send.tamanho_local i))
    end.
Proof.
  rewrite enviar_para_ftp_run. destruct (disk w !! caminho) as [d|].
  2:{ eexists _, _. split; [done|]. done. }
  fold (limite_tentativas max).
  assert (Hn : limite_tentativas max ≠ 0).
  { unfold limite_tentativas. destruct (Z.leb_spec max 0); simpl; lia. }
  set (i0 := Send.Info nome caminho (Z.of_nat (String.length d)) None 0 Pendente
               Send.DetVazio).
  destruct (spec_enviar_loop_outcome nome (Z.of_nat (String.length d))
              (limite_tentativas max) 1 ftp caminho i0 ltac:(done) w)
    as (t & _ & f & i' & Hr & (Ha & Hc & Ht) & Hs & Hk & Hok).
  exists f, i'. split; [done|]. split; [done|]. split; [done|].
  split; [done|]. split; [done|]. split; [destruct Hk as [[? _]|?]; [done|lia]|].
  intros Hsuc. rewrite Ht. by destruct (Hok Hsuc).
Qed.

(** X7. A record with status "sucesso" stands for an upload that was
    stored and verified: the events of the call end with a STOR of
    [nome_remoto] that the server accepted, followed by the verification of
    its size and nothing else, namely a SIZE answer equal to the size of
    the local file, or, when SIZE gave no size, LIST lines from which that
    size was read. *)
Theorem success_means_stored_and_verified `{Environment}
    (ftp : option nat) (caminho nome : string) (max : Z) (w : world)
    (ftp' : option nat) (i : Send.info) :
  (Send.enviar_para_ftp ftp caminho nome max w).1 = Val (ftp', i) →
  Send.status i = Sucesso →
  ∃ t, trace (Send.enviar_para_ftp ftp caminho nome max w).2 = trace w ++ t ∧
       stored_and_verified nome (Send.tamanho_local i) t.
Proof.
  rewrite enviar_para_ftp_run. destruct (disk w !! caminho) as [d|].
  2:{ by intros [= <- <-]. }
  set (i0 := Send.Info nome caminho (Z.of_nat (String.length d)) None 0 Pendente
               Send.DetVazio).
  destruct (spec_enviar_loop_outcome nome (Z.of_nat (String.length d))
              (limite_tentativas max) 1 ftp caminho i0 ltac:(done) w)
    as (t & Htr & f & i' & Hr & (Ha & Hc & Ht) & Hs & Hk & Hok).
  fold (limite_tentativas max). rewrite Hr. intros [= <- <-] Hsuc.
  exists t. split; [done|]. rewrite Ht. by destruct (Hok Hsuc).
Qed.

Lemma success_means_stored_and_verified_witness :
  run_envio_simples.1
    = Val (Some 0, Send.Info "a.xml" "C:\to_send\a.xml" 4 (Some 4%Z) 1 Sucesso
                     (Send.DetTransferido 1 true)) ∧
  ∃ t, trace run_envio_simples.2 = trace mundo_envio_simples ++ t ∧
       stored_and_verified "a.xml" 4 t.
Proof.
  split; [vm_compute; reflexivity|].
  apply (@success_means_stored_and_verified Server.env None "C:\to_send\a.xml"
           "a.xml" 3 mundo_envio_simples (Some 0)
           (Send.Info "a.xml" "C:\to_send\a.xml" 4 (Some 4%Z) 1 Sucesso
              (Send.DetTransferido 1 true)));
    vm_compute; reflexivity.
Defined.

(** ** send.py: what is uploaded, and how *)

(** Every STOR is of the file at [caminho], as it is on the disk [D], under
    the name [nome], with the data channel protected. *)
Definition faithful_store (D : gmap string string) (caminho nome : string)
    (e : event) : Prop :=
  match e with
  | EvFtp _ (Stor f d m) _ => f = nome ∧ D !! caminho = Some d ∧ prot_level m = PROT_P
  | _ => True
  end.

Definition is_stor (e : event) : bool :=
  match e with EvFtp _ (Stor _ _ _) _ => true | _ => false end.

Section SendStore.
Context `{Environment}.
Import Send.

(** [emits] from one world. *)
Definition emits_at {A} (φ : event → Prop) (w : world) (m : M A) : Prop :=
  ∃ t, trace (m w).2 = trace w ++ t ∧ Forall φ t.

Lemma emits_at_emits {A} φ w (m : M A) : emits φ m → emits_at φ w m.
Proof. intros Hm. apply Hm. Qed.

Lemma emits_at_bind {A B} φ w (m : M A) (f : A → M B) :
  emits_at φ w m →
  (∀ a w', m w = (Val a, w') → emits_at φ w' (f a)) →
  emits_at φ w (m ≫= f).
Proof.
  intros (t1 & Ht1 & H1) Hf. unfold emits_at. rewrite run_bind.
  destruct (m w) as [[a|e] w1] eqn:Hrun; simpl in *.
  - destruct (Hf a w1 eq_refl) as (t2 & Ht2 & H2).
    exists (t1 ++ t2). rewrite Ht2, Ht1, app_assoc. split; [done|]. by apply Forall_app.
  - eauto.
Qed.

Lemma emits_at_try_except {A} φ w (m : M A) h :
  emits_at φ w m →
  (∀ e w' k, m w = (Exc e, w') → h e = Some k → emits_at φ w' k) →
  emits_at φ w (try_except m h).
Proof.
  intros (t1 & Ht1 & H1) Hh. unfold emits_at, try_except.
  destruct (m w) as [[a|e] w1] eqn:Hrun; simpl in *; [eauto|].
  destruct (h e) as [k|] eqn:Hk; [|eauto].
  destruct (Hh e w1 k eq_refl Hk) as (t2 & Ht2 & H2).
  exists (t1 ++ t2). rewrite Ht2, Ht1, app_assoc. split; [done|]. by apply Forall_app.
Qed.

(** After [configurar_transferencia] with "P" returned, the client has the
    data channel protected. *)
Lemma configurar_transferencia_run ftp b (w w' : world) u :
  configurar_transferencia ftp PROT_P b w = (Val u, w') →
  disk w' = disk w ∧
  ∃ h, ftp = Some h ∧ clients w' !! h = Some (Modo PROT_P b).
Proof.
  unfold configurar_transferencia, ftp_prot_p, ftp_set_pasv, ftp_voidcmd, call_, call,
    set_modo.
  destruct ftp as [h|]; [|done]. rewrite !run_bind.
  destruct (ftp_step h ProtP (srv w)) as [r1 s1]. 
  destruct r1; simpl; try done; rewrite ?run_bind; simpl;
    (destruct (ftp_step h (Voidcmd "TYPE I") s1) as [r2 s2]);
    destruct r2; simpl; try done; intros [= _ <-]; simpl;
    (split; [done|]); exists h; (split; [done|]);
    by rewrite !lookup_insert_eq.
Qed.

Lemma emits_at_storbinary nome caminho h (w : world) m0 :
  clients w !! h = Some m0 → prot_level m0 = PROT_P →
  emits_at (faithful_store (disk w) caminho nome) w
    (ftp_storbinary (Some h) nome caminho).
Proof.
  intros Hc Hp. unfold emits_at, ftp_storbinary, read_file, get_modo, call_, call.
  rewrite !run_bind. destruct (disk w !! caminho) as [d|] eqn:Hd; simpl.
  2:{ exists []. rewrite app_nil_r. split; [done|constructor]. }
  rewrite !run_bind. rewrite Hc. simpl.
  destruct (ftp_step h _ (srv w)) as [rep s]. eexists [_].
  split; [by destruct rep|]. constructor; [|constructor]. simpl. done.
Qed.

Lemma disk_after {A} (m : M A) (w : world) r w' :
  keeps eq m → m w = (r, w') → disk w' = disk w.
Proof. intros Hk Hrun. specialize (Hk w). by rewrite Hrun in Hk. Qed.

Lemma conn_faithful D caminho nome e : ev_conn e → faithful_store D caminho nome e.
Proof. by destruct e as [h [] r| | | | | |]. Qed.

Lemma emits_at_tentativa_envio ftp caminho nome tam k b i (w : world) :
  emits_at (faithful_store (disk w) caminho nome) w
    (tentativa_envio ftp caminho nome tam k PROT_P b i).
Proof.
  pose proof (conn_faithful (disk w) caminho nome) as Hconn.
  unfold tentativa_envio. apply emits_at_try_except.
  - apply emits_at_bind;
      [by apply emits_at_emits, emits_send_configurar_transferencia|].
    intros u w1 Hrun.
    destruct (configurar_transferencia_run _ _ _ _ _ Hrun) as (Hd & h & -> & Hc).
    apply emits_at_bind.
    + rewrite <-Hd. by eapply emits_at_storbinary.
    + intros _ w2 _. apply emits_at_emits.
      apply emits_bind; [by apply emits_verificar_arquivo_remoto|]. intros tr.
      case_bool_decide; [apply emits_ret|].
      apply emits_try_except; [emits_go Hconn|].
      intros e k' Hk. destruct e; simplify_eq;
        first [apply emits_ret|by apply emits_falha_envio].
  - intros e w' k' _ [= <-]. by apply emits_at_emits, emits_falha_envio.
Qed.

Lemma modo_da_tentativa_prot k : (modo_da_tentativa k).1 = PROT_P.
Proof.
  unfold modo_da_tentativa, MODOS_TRANSFERENCIA. cbn [length].
  pose proof (Nat.mod_upper_bound (k - 1) 2 ltac:(done)) as Hlt.
  destruct ((k - 1) mod 2) as [|[|?]]; [done|done|lia].
Qed.

Lemma emits_at_enviar_loop n k ftp caminho nome tam i (w : world) D :
  disk w = D →
  emits_at (faithful_store D caminho nome) w
    (enviar_loop n k ftp caminho nome tam i).
Proof.
  pose proof (conn_faithful D caminho nome) as Hconn.
  assert (Htrans : ∀ d1 d2 d3 : gmap string string, d1 = d2 → d2 = d3 → d1 = d3)
    by (by intros ??? -> ->).
  revert k ftp i w. induction n as [|n IH]; intros k ftp i w Hd; cbn [enviar_loop].
  { apply emits_at_emits, emits_ret. }
  pose proof (modo_da_tentativa_prot k) as Hp.
  destruct (modo_da_tentativa k) as [p b]. simpl in Hp. subst p.
  apply emits_at_bind; [by apply emits_at_emits, emits_log|].
  intros [] w1 Hrun1.
  apply (disk_after _ _ _ _ (keeps_log eq ltac:(done) _)) in Hrun1.
  apply emits_at_bind; [by apply emits_at_emits, emits_send_garantir_conexao|].
  intros [h|] w2 Hrun2; [|apply emits_at_emits, emits_ret].
  apply (disk_after _ _ _ _ (keeps_send_garantir_conexao eq ltac:(done) Htrans _))
    in Hrun2.
  apply emits_at_bind.
  { rewrite <-Hd, <-Hrun1, <-Hrun2. apply emits_at_tentativa_envio. }
  intros [[y|] [f2 i2]] w3 Hrun3; [apply emits_at_emits, emits_ret|].
  apply (disk_after _ _ _ _ (keeps_tentativa_envio eq ltac:(done) Htrans _ _ _ _ _ _ _ _))
    in Hrun3.
  apply emits_at_bind; [by apply emits_at_emits, emits_sleep|].
  intros [] w4 Hrun4.
  apply (disk_after _ _ _ _ (keeps_sleep eq ltac:(done) _)) in Hrun4.
  apply IH. congruence.
Qed.

End SendStore.

(** X8. Whatever [enviar_para_ftp] uploads is the file it was given: every
    STOR it sends is for the name [nome_remoto], carries the content of
    [caminho_arquivo] as it is on the local disk, and is made with the data
    channel protected (PROT P), at every attempt. *)
Theorem uploads_are_faithful_and_protected `{Environment}
    (ftp : option nat) (caminho nome : string) (max : Z) (w : world) :
  ∃ t, trace (Send.enviar_para_ftp ftp caminho nome max w).2 = trace w ++ t ∧
       Forall (faithful_store (disk w) caminho nome) t.
Proof.
  rewrite enviar_para_ftp_run. destruct (disk w !! caminho) as [d|].
  - by apply emits_at_enviar_loop.
  - exists []. rewrite app_nil_r. split; [done|constructor].
Qed.

(** ** receive.py: the listing of the batch *)

(** The lines a reply to a listing command delivered. *)
Definition lines_of (rep : reply) : list string :=
  match rep with
  | RLines ls => ls
  | RData d _ => linhas_de d
  | _ => []
  end.

(** The name [x] was delivered by the server in the reply to an NLST. *)
Definition listed (x : string) (e : event) : Prop :=
  ∃ h c m rep, e = EvFtp h (Retrlines c m) rep ∧ String.prefix "NLST" c ∧
               x ∈ lines_of rep.

(** The commands of a listing: TYPE A and NLST. *)
Definition ev_listing (e : event) : Prop :=
  match e with
  | EvFtp _ (Voidcmd c) _ => c = "TYPE A"
  | EvFtp _ (Retrlines c _) _ => String.prefix "NLST" c
  | _ => False
  end.

Section ListingLists.
Import Receive.

Lemma acrescentar_take n nomes c0 v0 :
  ∃ k, acrescentar n nomes c0 v0
         = (c0 ++ take k nomes, list_to_set (take k nomes) ∪ v0) ∧
       ((Z.of_nat (length c0) < n)%Z →
        (Z.of_nat (length (c0 ++ take k nomes)) ≤ n)%Z).
Proof.
  revert c0 v0. induction nomes as [|x nomes IH]; intros c0 v0; cbn [acrescentar].
  { exists 0. simpl. rewrite app_nil_r, union_empty_l_L. split; [done|lia]. }
  destruct (Z.leb_spec n (Z.of_nat (length (c0 ++ [x])))) as [Hle|Hgt].
  - exists 1. simpl. rewrite union_empty_r_L. split; [done|].
    rewrite length_app. simpl. lia.
  - destruct (IH (c0 ++ [x]) ({[x]} ∪ v0)) as (k & -> & Hlen).
    exists (S k). simpl. rewrite <-app_assoc. simpl. split.
    + f_equal. by rewrite (assoc_L (∪)), (comm_L (∪) _ {[x]}).
    + intros _. rewrite <-app_assoc in Hlen. by apply Hlen.
Qed.

Lemma acrescentar_tudo_take n tudo c0 :
  ∃ k, acrescentar_tudo n tudo c0 = c0 ++ take k tudo ∧
       ((Z.of_nat (length c0) < n)%Z →
        (Z.of_nat (length (c0 ++ take k tudo)) ≤ n)%Z).
Proof.
  revert c0. induction tudo as [|x tudo IH]; intros c0; cbn [acrescentar_tudo].
  { exists 0. simpl. rewrite app_nil_r. split; [done|lia]. }
  destruct (Z.leb_spec n (Z.of_nat (length (c0 ++ [x])))) as [Hle|Hgt].
  - exists 1. simpl. split; [done|]. rewrite length_app. simpl. lia.
  - destruct (IH (c0 ++ [x])) as (k & -> & Hlen).
    exists (S k). simpl. rewrite <-app_assoc. simpl. split; [done|].
    intros _. rewrite <-app_assoc in Hlen. by apply Hlen.
Qed.

(** What is new in a listing: sorted, without repetition, not yet seen. *)
Lemma ordenados_spec nomes vistos :
  NoDup (ordenados nomes vistos) ∧
  ∀ x, x ∈ ordenados nomes vistos ↔ x ∈ nomes ∧ x ∉ vistos.
Proof.
  unfold ordenados. split.
  - rewrite merge_sort_Permutation. apply NoDup_elements.
  - intros x.
    by rewrite merge_sort_Permutation, elem_of_elements, elem_of_difference,
      elem_of_list_to_set.
Qed.

End ListingLists.

Section Listing.
Context `{Environment}.
Import Receive.

Variables (n : Z) (somente_xml : bool).

Lemma spec_type_a ftp :
  spec (try_except (ftp_voidcmd ftp "TYPE A") (any_exc (mret tt)))
       (λ r t, r = Val tt ∧ Forall ev_listing t ∧ length t ≤ 1).
Proof.
  intros w. unfold try_except, ftp_voidcmd, call_, call. rewrite run_bind.
  destruct ftp as [h|]; simpl.
  2:{ exists []. rewrite app_nil_r. split; [done|]. split; [done|].
      split; [constructor|simpl; lia]. }
  destruct (ftp_step h _ (srv w)) as [rep s]. eexists [_].
  split; [by destruct rep|]. split; [by destruct rep|].
  split; [by repeat constructor|done].
Qed.

Lemma spec_retrlines_parcial ftp c :
  String.prefix "NLST" c →
  spec (ftp_retrlines_parcial ftp c)
       (λ r t, ∃ ls fim, r = Val (ls, fim) ∧ Forall ev_listing t ∧
                 length t ≤ 1 ∧
                 Forall (λ x, Exists (listed x) t) ls).
Proof.
  intros Hc w. unfold ftp_retrlines_parcial. destruct ftp as [h|].
  2:{ exists []. rewrite app_nil_r. split; [done|]. eexists _, _.
      split; [done|]. split; [constructor|]. split; [simpl; lia|constructor]. }
  destruct (ftp_step h _ (srv w)) as [rep s]. eexists [_]. split; [done|].
  exists (lines_of rep),
    (match rep with RData _ fim => fim | RExc e => Some e | _ => None end).
  split; [by destruct rep|]. split; [by repeat constructor|]. split; [done|].
  apply Forall_forall. intros x Hx. constructor.
  eexists h, c, _, rep. done.
Qed.

(** One NLST: the names it yields are valid, and were delivered. *)
Definition nlst_post_n (k : nat) (r : res (list string)) (t : list event) : Prop :=
  ∃ l, r = Val l ∧ Forall ev_listing t ∧ length t ≤ k ∧
       Forall (λ x, nome_valido x ∧ Exists (listed x) t) l.

Definition nlst_post := nlst_post_n 2.

Lemma filter_nome_valido linhas t :
  Forall (λ x, Exists (listed x) t) linhas →
  Forall (λ x, nome_valido x ∧ Exists (listed x) t)
         (List.filter nome_valido linhas).
Proof.
  rewrite !Forall_forall. intros Hall x Hx.
  apply list_elem_of_In, List.filter_In in Hx as [Hx Hv].
  split; [by apply Is_true_true|]. by apply Hall, list_elem_of_In.
Qed.

Lemma spec_nlst_prefix ftp pattern : spec (_nlst_prefix ftp pattern) nlst_post.
Proof.
  unfold _nlst_prefix.
  eapply (spec_bind _ _ _ (λ _, nlst_post_n 1) _ (spec_type_a ftp)).
  - intros _.
    eapply (spec_bind _ _ _ (λ a r t, r = Val (List.filter nome_valido a.1) ∧ t = []) _
              (spec_retrlines_parcial ftp ("NLST " +:+ pattern) I)).
    + intros [linhas fim]. by apply spec_ret.
    + by intros e t (? & ? & [=] & _).
    + intros [linhas fim] t1 r t2 (ls & f & [= <- <-] & Hev & Hn & Hd) [-> ->].
      rewrite app_nil_r. eexists. split; [done|]. split; [done|].
      split; [lia|]. by apply filter_nome_valido.
  - by intros e t [[=] _].
  - intros [] t1 r t2 (_ & H1 & Hn1) (l & -> & H2 & Hn2 & Hl). exists l.
    split; [done|]. split; [by apply Forall_app|].
    split; [rewrite length_app; lia|].
    eapply Forall_impl; [exact Hl|]. intros x [? Hx]. split; [done|].
    apply Exists_app. by right.
Qed.

(** A name fit for the batch. *)
Definition good (x : string) : Prop :=
  nome_valido x ∧ (somente_xml → termina_em_xml x).

(** The names collected so far are distinct, fit, marked as seen, and no
    more than asked for. *)
Definition coletados_ok (c : list string) (v : gset string) : Prop :=
  NoDup c ∧ (∀ x, x ∈ c → x ∈ v) ∧ Forall good c ∧
  (Z.of_nat (length c) ≤ Z.max 0 n)%Z.

Definition varrer_post (prefixos : list string) (c0 : list string)
    (v0 : gset string) (r : res (list string * gset string)) (t : list event)
    : Prop :=
  ∃ c v, r = Val (c, v) ∧ Forall ev_listing t ∧
    length t ≤ 2 * length prefixos ∧
    (coletados_ok c0 v0 → coletados_ok c v) ∧
    Forall (λ x, x ∈ c0 ∨ Exists (listed x) t) c.

Lemma coletados_ok_app c0 v0 novos k :
  coletados_ok c0 v0 →
  NoDup novos → (∀ x, x ∈ novos → (x ∉ v0) ∧ good x) →
  (Z.of_nat (length (c0 ++ take k novos)) ≤ n)%Z →
  coletados_ok (c0 ++ take k novos) (list_to_set (take k novos) ∪ v0).
Proof using Type.
  intros (Hnd & Hv & Hg & _) Hnovos Hfresh Hlen.
  assert (Hsub : ∀ x, x ∈ take k novos → x ∈ novos).
  { intros x Hx. eapply elem_of_submseteq; [exact Hx|].
    apply sublist_submseteq, sublist_take. }
  split; [|split; [|split]].
  - apply NoDup_app. split; [done|]. split.
    + intros x Hx Hx'. apply Hsub, Hfresh in Hx' as [Hx' _]. by apply Hx', Hv.
    + eapply sublist_NoDup; [exact Hnovos|apply sublist_take].
  - intros x [Hx|Hx]%elem_of_app; apply elem_of_union.
    + right. by apply Hv.
    + left. by apply elem_of_list_to_set.
  - apply Forall_app. split; [done|]. apply Forall_forall.
    intros x Hx. by apply Hsub, Hfresh in Hx as [_ ?].
  - lia.
Qed.

Lemma spec_varrer_prefixos ftp prefixos c0 v0 :
  spec (varrer_prefixos ftp n somente_xml prefixos c0 v0)
       (varrer_post prefixos c0 v0).
Proof.
  revert c0 v0. induction prefixos as [|prefix resto IH]; intros c0 v0;
    cbn [varrer_prefixos].
  { apply spec_ret. exists c0, v0. split; [done|]. split; [constructor|].
    split; [done|]. split; [done|]. apply Forall_forall. by left. }
  destruct (Z.leb_spec n (Z.of_nat (length c0))) as [Hle|Hgt].
  { apply spec_ret. exists c0, v0. split; [done|]. split; [constructor|].
    split; [simpl; lia|]. split; [done|]. apply Forall_forall. by left. }
  eapply (spec_bind_dep _ _ _ _ (spec_nlst_prefix ftp (prefix +:+ "*"))).
  { by intros e t (? & [=] & _). }
  intros nomes t1 (? & [= <-] & Hev & Hn1 & Hnomes).
  destruct nomes as [|x0 nomes'] eqn:Hn0.
  { eapply spec_conseq; [apply IH|].
    intros r t2 (c & v & -> & Hev2 & Hn2 & Hok & Hprov). exists c, v.
    split; [done|]. split; [by apply Forall_app|].
    split; [rewrite length_app; simpl; lia|]. split; [done|].
    eapply Forall_impl; [exact Hprov|]. intros x [?|Hx]; [by left|right].
    apply Exists_app. by right. }
  rewrite <-Hn0 in *. clear Hn0 x0 nomes'. cbv zeta.
  set (nomes1 := if somente_xml then List.filter termina_em_xml nomes else nomes).
  destruct (acrescentar_take n (ordenados nomes1 v0) c0 v0) as (k & -> & Hlen).
  destruct (ordenados_spec nomes1 v0) as [Hnd Hin].
  assert (Hnovos : ∀ x, x ∈ ordenados nomes1 v0 →
            (x ∉ v0) ∧ good x ∧ Exists (listed x) t1).
  { intros x [Hx Hv]%Hin. split; [done|].
    assert (Hx' : x ∈ nomes ∧ (somente_xml → termina_em_xml x)).
    { subst nomes1. destruct somente_xml; [|done].
      apply list_elem_of_In, List.filter_In in Hx as [Hx Ht].
      split; [by apply list_elem_of_In|]. intros _. by apply Is_true_true. }
    destruct Hx' as [Hx' Ht]. rewrite Forall_forall in Hnomes.
    destruct (Hnomes x Hx') as [? ?]. done. }
  eapply spec_conseq; [apply IH|].
  intros r t2 (c & v & -> & Hev2 & Hn2 & Hok & Hprov). exists c, v.
  split; [done|]. split; [by apply Forall_app|].
  split; [rewrite length_app; simpl; lia|]. split.
  - intros Hok0. apply Hok. apply coletados_ok_app; [done|done| |by apply Hlen].
    intros x Hx. by destruct (Hnovos x Hx) as (? & ? & _).
  - eapply Forall_impl; [exact Hprov|]. intros x [Hx|Hx].
    + apply elem_of_app in Hx as [?|Hx]; [by left|right].
      apply Exists_app. left. apply Hnovos.
      eapply elem_of_submseteq; [exact Hx|]. apply sublist_submseteq, sublist_take.
    + right. apply Exists_app. by right.
Qed.

(** With no more names than asked for, the final slice [coletados[:n]]
    changes nothing. *)
Lemma fatia_id (c : list string) :
  (Z.of_nat (length c) ≤ Z.max 0 n)%Z → fatia n c = c.
Proof using Type.
  intros Hlen. unfold fatia. destruct (Z.ltb_spec n 0).
  - destruct c; [done|]. simpl in Hlen. lia.
  - apply take_ge. lia.
Qed.

(** Lines 292-311: the general NLST, when the scan fell short. *)
Definition listar_fallback_post (c : list string) (r : res (list string))
    (t : list event) : Prop :=
  ∃ c2 v2, r = Val c2 ∧ Forall ev_listing t ∧ length t ≤ 2 ∧
    coletados_ok c2 v2 ∧ Forall (λ x, x ∈ c ∨ Exists (listed x) t) c2.

Lemma spec_listar_fallback ftp c v :
  coletados_ok c v → (Z.of_nat (length c) < n)%Z →
  spec (try_except (ftp_voidcmd ftp "TYPE A") (any_exc (mret tt)) ;;
        '(linhas, _) ← ftp_retrlines_parcial ftp "NLST";
        let tudo := List.filter nome_valido linhas in
        let tudo := if SOMENTE_XML then List.filter termina_em_xml tudo else tudo in
        let tudo := ordenados tudo v in
        mret (acrescentar_tudo n tudo c))
       (listar_fallback_post c).
Proof.
  intros Hok Hlt.
  eapply (spec_bind _ _ _
            (λ _ r t, ∃ c2 v2, r = Val c2 ∧ Forall ev_listing t ∧ length t ≤ 1 ∧
               coletados_ok c2 v2 ∧ Forall (λ x, x ∈ c ∨ Exists (listed x) t) c2)
            _ (spec_type_a ftp)).
  - intros _.
    eapply (spec_bind_dep _ _ _ _ (spec_retrlines_parcial ftp "NLST" I)).
    { by intros e t (? & ? & [=] & _). }
    intros [linhas fim] t1 (ls & f & [= <- <-] & Hev & Hn & Hd).
    cbv zeta. unfold SOMENTE_XML.
    set (tudo := List.filter termina_em_xml (List.filter nome_valido linhas)).
    destruct (acrescentar_tudo_take n (ordenados tudo v) c) as (k & -> & Hlen).
    destruct (ordenados_spec tudo v) as [Hnd Hin].
    assert (Hnovos : ∀ x, x ∈ ordenados tudo v →
              (x ∉ v) ∧ good x ∧ Exists (listed x) t1).
    { intros x [Hx Hv]%Hin. split; [done|]. subst tudo.
      apply list_elem_of_In, List.filter_In in Hx as [Hx Ht].
      apply List.filter_In in Hx as [Hx Hval].
      split; [split; [by apply Is_true_true|intros _; by apply Is_true_true]|].
      rewrite Forall_forall in Hd. by apply Hd, list_elem_of_In. }
    apply spec_ret. rewrite app_nil_r. eexists _, _. split; [done|].
    split; [done|]. split; [done|]. split.
    + apply coletados_ok_app; [done|done| |by apply Hlen].
      intros x Hx. by destruct (Hnovos x Hx) as (? & ? & _).
    + apply Forall_forall. intros x [?|Hx]%elem_of_app; [by left|right].
      apply Hnovos. eapply elem_of_submseteq; [exact Hx|].
      apply sublist_submseteq, sublist_take.
  - by intros e t [[=] _].
  - intros [] t1 r t2 (_ & H1 & Hn1) (c2 & v2 & -> & H2 & Hn2 & Hok2 & Hprov).
    exists c2, v2. split; [done|]. split; [by apply Forall_app|].
    split; [rewrite length_app; lia|]. split; [done|].
    eapply Forall_impl; [exact Hprov|]. intros x [?|Hx]; [by left|right].
    apply Exists_app. by right.
Qed.

(** The whole listing. *)
Definition listar_post (r : res (list string)) (t : list event) : Prop :=
  ∃ nomes, r = Val nomes ∧ Forall ev_listing t ∧
    length t ≤ 2 * S (length _PREFIXES) ∧
    NoDup nomes ∧ (Z.of_nat (length nomes) ≤ Z.max 0 n)%Z ∧
    Forall (λ x, good x ∧ Exists (listed x) t) nomes.

Lemma spec_listar ftp :
  spec (listar_primeiros_n_ordenados_nome ftp n somente_xml) listar_post.
Proof.
  unfold listar_primeiros_n_ordenados_nome.
  eapply (spec_bind_dep _ _ _ _ (spec_varrer_prefixos ftp _PREFIXES [] ∅)).
  { by intros e t (? & ? & [=] & _). }
  intros [c v] t1 (? & ? & [= <- <-] & Hev & Hn & Hok & Hprov).
  assert (Hok0 : coletados_ok [] ∅).
  { split; [constructor|]. split; [by intros x ?%elem_of_nil|].
    split; [constructor|simpl; lia]. }
  specialize (Hok Hok0).
  assert (Hprov1 : Forall (λ x, Exists (listed x) t1) c).
  { eapply Forall_impl; [exact Hprov|]. by intros x [?%elem_of_nil|?]. }
  assert (Hfim : ∀ c2 v2 t2, coletados_ok c2 v2 → Forall ev_listing t2 →
            length t2 ≤ 2 →
            Forall (λ x, x ∈ c ∨ Exists (listed x) t2) c2 →
            listar_post (Val (fatia n c2)) (t1 ++ t2)).
  { intros c2 v2 t2 Hok2 Hev2 Hn2 Hprov2.
    destruct Hok2 as (Hnd & _ & Hg & Hlen). rewrite fatia_id by done.
    exists c2. split; [done|]. split; [by apply Forall_app|].
    split; [rewrite length_app; simpl in *; lia|]. split; [done|]. split; [done|].
    apply Forall_forall. intros x Hx. rewrite Forall_forall in Hg.
    split; [by apply Hg|]. apply Exists_app.
    rewrite Forall_forall in Hprov2. destruct (Hprov2 x Hx) as [Hc|?]; [left|by right].
    rewrite Forall_forall in Hprov1. by apply Hprov1. }
  destruct (Z.ltb_spec (Z.of_nat (length c)) n) as [Hlt|Hge].
  - eapply (spec_bind _ _ _ (λ c2 r t, r = Val (fatia n c2) ∧ t = []) _
              (spec_listar_fallback ftp c v Hok Hlt)).
    + intros c2. by apply spec_ret.
    + by intros e t (? & ? & [=] & _).
    + intros c2 ta r tb (? & v2 & [= <-] & Hev2 & Hn2 & Hok2 & Hprov2) [-> ->].
      rewrite app_nil_r. by eapply Hfim.
  - apply spec_ret. eapply (Hfim c v []); [done|constructor|simpl; lia|].
    apply Forall_forall. by left.
Qed.

End Listing.

(** With [n] not positive the loop over the prefixes stops at its first
    test. *)
Lemma varrer_prefixos_nada `{Environment} ftp n somente_xml prefixos w :
  (n ≤ 0)%Z →
  Receive.varrer_prefixos ftp n somente_xml prefixos [] ∅ w = (Val ([], ∅), w).
Proof.
  intros Hle. destruct prefixos as [|p resto]; [done|].
  cbn [Receive.varrer_prefixos length].
  destruct (Z.leb_spec n (Z.of_nat 0)) as [_|?]; [done|lia].
Qed.

(** X9. The listing never raises, and the names it returns are at most
    [n] (none when [n] is not positive), pairwise distinct, each of them
    non-empty and neither "." nor "..", each of them delivered by the server
    in the reply to an NLST of this call, and, when [somente_xml] is on,
    each of them ending in ".xml" whatever the case of its letters. *)
Theorem listing_result `{Environment}
    (ftp : option nat) (n : Z) (somente_xml : bool) (w : world) :
  ∃ nomes t,
    (Receive.listar_primeiros_n_ordenados_nome ftp n somente_xml w).1 = Val nomes ∧
    trace (Receive.listar_primeiros_n_ordenados_nome ftp n somente_xml w).2
      = trace w ++ t ∧
    NoDup nomes ∧ (Z.of_nat (length nomes) ≤ Z.max 0 n)%Z ∧
    Forall (λ x, Receive.nome_valido x ∧
                 (somente_xml → Receive.termina_em_xml x) ∧
                 Exists (listed x) t) nomes.
Proof.
  destruct (spec_listar n somente_xml ftp w)
    as (t & Ht & nomes & Hr & _ & _ & Hnd & Hlen & Hall).
  exists nomes, t. do 4 (split; [done|]).
  eapply Forall_impl; [exact Hall|]. by intros x [[? ?] ?].
Qed.

(** X10. The listing only lists: every command it sends is TYPE A or an
    NLST, at most two per prefix and two more for the general listing,
    whatever the size of the directory; and with [n] not positive it sends
    nothing. *)
Theorem listing_traffic `{Environment}
    (ftp : option nat) (n : Z) (somente_xml : bool) (w : world) :
  ∃ t,
    trace (Receive.listar_primeiros_n_ordenados_nome ftp n somente_xml w).2
      = trace w ++ t ∧
    Forall ev_listing t ∧ length t ≤ 2 * S (length Receive._PREFIXES) ∧
    ((n ≤ 0)%Z → t = []).
Proof.
  destruct (spec_listar n somente_xml ftp w)
    as (t & Ht & nomes & _ & Hev & Hn & _).
  exists t. do 3 (split; [done|]). intros Hle.
  assert (Hrun : Receive.listar_primeiros_n_ordenados_nome ftp n somente_xml w
                 = (Val (fatia n []), w)).
  { unfold Receive.listar_primeiros_n_ordenados_nome.
    rewrite run_bind, (varrer_prefixos_nada ftp n somente_xml _ w Hle), run_bind.
    cbn [length].
    destruct (Z.ltb_spec (Z.of_nat 0) n) as [?|_]; [lia|]. by rewrite run_ret. }
  rewrite Hrun in Ht. simpl in Ht.
  apply (f_equal length) in Ht. rewrite length_app in Ht.
  destruct t; [done|]. simpl in Ht. lia.
Qed.

(** ** send.py: the destination of a file moved into the base folder *)





(** ** send.py: the size read from a LIST line *)





Lemma nonempty_app_r (a b : string) : nonempty b → nonempty (a +:+ b).
Proof. destruct a; [done|]. done. Qed.







(** ** send.py: when a file leaves the folder of files to send *)


Section SendMove.
Context `{Environment}.
Import Send.







End SendMove.
